(** * LeadsManager: grid model, selection, scoring engine and sheet registry

    A shallow embedding of the state-changing code of the LeadsManager
    React application (DataTable.tsx, LeadScoringModal.tsx, App.tsx, and
    the editors and dialogs that call them: SortableColumn.tsx,
    SheetTab.tsx, ImportModal.tsx), the properties of its specification
    and further properties of the code.

    Conventions of the embedding.
    - A JavaScript [string] is a [string] of the Standard Library: one
      [ascii] per UTF-16 code unit, so the text covered is the one whose
      code units are below 256.
    - A JavaScript array is a [list]; an object used as a dictionary is a
      [gmap] keyed by strings, which holds its own entries: a read by
      key that finds none goes on to [Object.prototype] ([JS.get]), and
      an assignment under [__proto__] stores nothing ([JS.put]); a
      [Set<number>] is a [gset nat].
    - React state is passed explicitly.  An event handler is a function
      from the rendered view to the batch of state updates it requests;
      [commit] applies the batch and then runs the effects whose
      dependencies changed. *)

From Stdlib Require Import ZArith QArith Qround Lia List Ascii String Bool.
From Stdlib Require Import DecimalString DecimalZ DecimalNat.
From Stdlib Require Import Permutation Sorted.
From Stdlib Require Import PrimFloat Uint63.
From stdpp Require Import gmap strings list.

Local Open Scope string_scope.
Local Open Scope Z_scope.
Local Open Scope nat_scope.
Local Open Scope list_scope.

Local Abbreviation length := List.length.

(** ** JavaScript built-ins used by the handlers *)

Module JS.

(** [WhiteSpace] and [LineTerminator] code units below 256: TAB, LF, VT,
    FF, CR, SP and NBSP. *)
Definition isWhiteSpace (c : ascii) : bool :=
  let n := nat_of_ascii c in
  (n =? 9) || (n =? 10) || (n =? 11) || (n =? 12) || (n =? 13)
  || (n =? 32) || (n =? 160).

Fixpoint trimStart (s : string) : string :=
  match s with
  | EmptyString => EmptyString
  | String c s' => if isWhiteSpace c then trimStart s' else s
  end.

Fixpoint trimEnd (s : string) : string :=
  match s with
  | EmptyString => EmptyString
  | String c s' =>
      match trimEnd s' with
      | EmptyString => if isWhiteSpace c then EmptyString else String c EmptyString
      | t => String c t
      end
  end.

(** [String.prototype.trim]. *)
Definition trim (s : string) : string := trimEnd (trimStart s).

(** Truthiness of a string: every string but the empty one. *)
Definition truthy (s : string) : bool :=
  match s with EmptyString => false | _ => true end.

(** [v && v.trim()] as a condition, for [v] an array element that may be
    [undefined] ([None]). *)
Definition nonBlank (v : option string) : bool :=
  match v with
  | None => false
  | Some s => truthy s && truthy (trim s)
  end.

(** [array.filter((x, index) => p x index)]. *)
Fixpoint filteri_from {A} (p : A -> nat -> bool) (i : nat) (l : list A) : list A :=
  match l with
  | [] => []
  | x :: l' =>
      if p x i then x :: filteri_from p (S i) l' else filteri_from p (S i) l'
  end.

Definition filteri {A} (p : A -> nat -> bool) (l : list A) : list A :=
  filteri_from p 0 l.

(** [array.splice(start, 0, x)] for a non-negative [start]: the start is
    clamped to the length. *)
Definition splice_insert {A} (start : nat) (x : A) (l : list A) : list A :=
  take start l ++ x :: drop start l.

(** [array[i] = x] on a copy.  Inside the array the element is replaced,
    at [i = length] the array grows by one, and beyond that JavaScript
    leaves holes ([undefined]), which a list of [A] cannot hold:
    [None]. *)
Definition assign {A} (l : list A) (i : nat) (x : A) : option (list A) :=
  if i <? length l then Some (<[i:=x]> l)
  else if i =? length l then Some (l ++ [x])
  else None.

(** [array.findIndex(p)] and [array.indexOf(x)]: [-1] when absent. *)
Fixpoint findIndex_from {A} (p : A -> bool) (i : Z) (l : list A) : Z :=
  match l with
  | [] => (-1)%Z
  | x :: l' => if p x then i else findIndex_from p (i + 1)%Z l'
  end.

Definition findIndex {A} (p : A -> bool) (l : list A) : Z :=
  findIndex_from p 0%Z l.

Definition indexOf (l : list string) (x : string) : Z :=
  findIndex (String.eqb x) l.

(** The normalisation of a relative start index by [splice]. *)
Definition relativeStart (len : nat) (start : Z) : nat :=
  if (start <? 0)%Z then Z.to_nat (Z.max (Z.of_nat len + start) 0)
  else Nat.min (Z.to_nat start) len.

(** [array.forEach((x, index) => ...)] for a callback that updates an
    accumulator captured from the enclosing scope. *)
Fixpoint forEachi_from {A T} (f : T -> A -> nat -> T) (i : nat) (l : list A) (s : T) : T :=
  match l with
  | [] => s
  | x :: l' => forEachi_from f (S i) l' (f s x i)
  end.

Definition forEachi {A T} (f : T -> A -> nat -> T) (l : list A) (s : T) : T :=
  forEachi_from f 0 l s.

(** *** Numbers

    The numbers of the scoring engine and of the sheet ids are integers
    far below 2^53 and quotients of such integers by 100, and [NaN]
    where a score is computed from a value that is no number.  They are
    embedded as [Z] and [Q] with exact arithmetic: [Math.floor(100 / n)]
    is [100 / n] in [Z], and with integer weights the sum a score rounds
    is, times 100, an integer, far from a rounding boundary of
    [Math.round].  The score is written once, over an [arithmetic], and
    can be run in binary64 too. *)

(** [x || d] for a number [x] that may be [undefined]: [0] is falsy. *)
Definition orNum (x : option Z) (d : Z) : Z :=
  match x with
  | Some 0%Z | None => d
  | Some n => n
  end.

(** *** Plain objects used as dictionaries

    The dictionaries of the program are plain objects.  The own entries
    of one are a finite map; a read [obj[key]] that finds no own entry
    goes on to [Object.prototype], which has a member under each of the
    names below: a function, and under [__proto__] the prototype of the
    object that is read. *)
Definition prototypeNames : list string :=
  ["constructor"; "hasOwnProperty"; "isPrototypeOf"; "propertyIsEnumerable";
   "toLocaleString"; "toString"; "valueOf"; "__defineGetter__";
   "__defineSetter__"; "__lookupGetter__"; "__lookupSetter__"; "__proto__"].

Inductive property (A : Type) :=
| Own (a : A)
| Inherited
| Undefined.
Arguments Own {A}.
Arguments Inherited {A}.
Arguments Undefined {A}.

(** [obj[key]], read. *)
Definition get {A} (obj : gmap string A) (key : string) : property A :=
  match obj !! key with
  | Some a => Own a
  | None =>
      if bool_decide (key ∈ prototypeNames) then Inherited else Undefined
  end.

(** [obj[key] = x] for a number [x]: an own entry is written, except
    under [__proto__] on an object without such an own entry, where the
    assignment reaches the setter of [Object.prototype], which ignores a
    number.  (A computed key of an object literal and a spread always
    give an own entry: those are [<[key := x]>].) *)
Definition put (obj : gmap string Z) (key : string) (x : Z) : gmap string Z :=
  match obj !! key with
  | None => if String.eqb key "__proto__" then obj else <[key := x]> obj
  | Some _ => <[key := x]> obj
  end.

(** What a read hands to a product or a quotient: a number, or a value
    that is no number and is converted to [NaN] there (a function, an
    object, a text that is no numeral). *)
Inductive operand :=
| IsNumber (n : Z)
| NoNumber.

(** [obj[key] || d] for a dictionary of numbers: an inherited member is
    truthy. *)
Definition orOperand (x : property Z) (d : Z) : operand :=
  match x with
  | Own n => IsNumber (orNum (Some n) d)
  | Undefined => IsNumber d
  | Inherited => NoNumber
  end.

(** [F.length] of the function that [Object.prototype] has under a
    name, [Object] itself being the one under [constructor]. *)
Definition functionLength (name : string) : Z :=
  if bool_decide (name ∈ ["__defineGetter__"; "__defineSetter__"]) then 2
  else if bool_decide (name ∈ ["toLocaleString"; "toString"; "valueOf"]) then 0
  else 1.

(** The members of every function besides [length], the accessors
    [arguments] and [caller] and what [Object.prototype] gives: its
    [name] and the methods of [Function.prototype]; and the members of
    [Object] (ECMAScript 2024). *)
Definition functionMembers : list string :=
  ["apply"; "bind"; "call"; "name"].

Definition objectMembers : list string :=
  ["prototype"; "assign"; "create"; "defineProperties"; "defineProperty";
   "entries"; "freeze"; "fromEntries"; "getOwnPropertyDescriptor";
   "getOwnPropertyDescriptors"; "getOwnPropertyNames";
   "getOwnPropertySymbols"; "getPrototypeOf"; "groupBy"; "hasOwn"; "is";
   "isExtensible"; "isFrozen"; "isSealed"; "keys"; "preventExtensions";
   "seal"; "setPrototypeOf"; "values"].

(** [V[key] || d], where [V] is the member that a plain object inherits
    under [name]; [None] is a [TypeError].  Under [__proto__] the member
    is [Object.prototype], whose own [__proto__] is [null].  Under the
    other names it is a built-in function: [length] is its number of
    parameters, [name] a text, the accessors [arguments] and [caller]
    throw when read on a built-in function, and the other members are
    functions or objects. *)
Definition inheritedMember (name key : string) (d : Z) : option operand :=
  if String.eqb name "__proto__" then
    if String.eqb key "__proto__" then Some (IsNumber d)
    else if bool_decide (key ∈ prototypeNames) then Some NoNumber
    else Some (IsNumber d)
  else
    if String.eqb key "length"
    then Some (IsNumber (orNum (Some (functionLength name)) d))
    else if bool_decide (key ∈ ["arguments"; "caller"]) then None
    else if bool_decide (key ∈ prototypeNames ++ functionMembers)
    then Some NoNumber
    else if String.eqb name "constructor" && bool_decide (key ∈ objectMembers)
    then Some NoNumber
    else Some (IsNumber d).

(** [Math.round]: the nearest integer, a tie going up. *)
Definition Math_round (x : Q) : Q := inject_Z (Qfloor (x + (1 # 2))).

(** The arithmetic a score is computed in: the numbers, the constants,
    [NaN], and [+], [*], [/] and [Math.round]. *)
Record arithmetic (N : Type) := mkArithmetic {
  ofZ : Z -> N;
  nan : N;
  plus : N -> N -> N;
  times : N -> N -> N;
  over : N -> N -> N;
  round : N -> N
}.
Arguments ofZ {N}.
Arguments nan {N}.
Arguments plus {N}.
Arguments times {N}.
Arguments over {N}.
Arguments round {N}.

(** An operand in an arithmetic. *)
Definition ofOperand {N} (ar : arithmetic N) (x : operand) : N :=
  match x with
  | IsNumber n => ofZ ar n
  | NoNumber => nan ar
  end.

(** Exact arithmetic, the one the properties are stated in: a number is
    a rational or [NaN], which every operation hands on.  (The engine
    divides by 100 only; a quotient by zero is not among its numbers.) *)
Inductive exactNumber :=
| Rational (q : Q)
| NotANumber.

Definition exact1 (f : Q -> Q) (x : exactNumber) : exactNumber :=
  match x with
  | Rational a => Rational (f a)
  | NotANumber => NotANumber
  end.

Definition exact2 (f : Q -> Q -> Q) (x y : exactNumber) : exactNumber :=
  match x, y with
  | Rational a, Rational b => Rational (f a b)
  | _, _ => NotANumber
  end.

Definition exact : arithmetic exactNumber :=
  mkArithmetic exactNumber (fun z => Rational (inject_Z z)) NotANumber
    (exact2 Qplus) (exact2 Qmult) (exact2 Qdiv) (exact1 Math_round).

(** Binary64 arithmetic, the one the program runs in.  An integer below
    2^53 in absolute value is a binary64 number. *)
Definition float_of_Z (z : Z) : float :=
  let m := PrimFloat.of_uint63 (Uint63.of_Z (Z.abs z)) in
  if (z <? 0)%Z then PrimFloat.opp m else m.

(** The largest integer not above [x], for [0 <= x < 2^52]: adding and
    subtracting 2^52 rounds to an integer. *)
Definition floor_binary64 (x : float) : float :=
  let r := PrimFloat.sub (PrimFloat.add x 0x1p52%float) 0x1p52%float in
  if PrimFloat.ltb x r then PrimFloat.sub r 1%float else r.

(** [Math.round] on binary64: exact, a tie going up; a number from 2^52
    on, an infinity or [NaN] is returned as it is. *)
Definition Math_round_binary64 (x : float) : float :=
  let a := PrimFloat.abs x in
  if PrimFloat.ltb a 0x1p52%float then
    let f := floor_binary64 a in
    let d := PrimFloat.sub a f in
    if PrimFloat.ltb x 0%float
    then PrimFloat.opp
           (if PrimFloat.ltb 0.5%float d then PrimFloat.add f 1%float else f)
    else (if PrimFloat.leb 0.5%float d then PrimFloat.add f 1%float else f)
  else x.

Definition binary64 : arithmetic float :=
  mkArithmetic float float_of_Z PrimFloat.nan PrimFloat.add PrimFloat.mul
    PrimFloat.div Math_round_binary64.

(** The value of a digit or letter in the radices up to 36. *)
Definition digitValue (c : ascii) : option Z :=
  let n := Z.of_nat (nat_of_ascii c) in
  if ((48 <=? n) && (n <=? 57))%Z then Some (n - 48)%Z
  else if ((97 <=? n) && (n <=? 122))%Z then Some (n - 87)%Z
  else if ((65 <=? n) && (n <=? 90))%Z then Some (n - 55)%Z
  else None.

(** The longest prefix of digits of the radix, read from the left:
    [None] when the first character is not a digit. *)
Fixpoint parseDigits (radix : Z) (acc : option Z) (s : string) : option Z :=
  match s with
  | EmptyString => acc
  | String c s' =>
      match digitValue c with
      | Some d =>
          if (d <? radix)%Z
          then parseDigits radix (Some (radix * default 0%Z acc + d)%Z) s'
          else acc
      | None => acc
      end
  end.

(** [parseInt(s)] without a radix: leading white space is skipped, a sign
    is read, the prefix [0x] or [0X] selects radix 16, and the longest
    prefix of digits is the value; [None] is [NaN]. *)
Definition parseInt (s : string) : option Z :=
  let s1 := trimStart s in
  let '(sign, s2) :=
    match s1 with
    | String "-" r => ((-1)%Z, r)
    | String "+" r => (1%Z, r)
    | _ => (1%Z, s1)
    end in
  let '(radix, s3) :=
    match s2 with
    | String "0" (String "x" r) | String "0" (String "X" r) => (16%Z, r)
    | _ => (10%Z, s2)
    end in
  (fun n => (sign * n)%Z) <$> parseDigits radix None s3.

(** [n.toString()] for an integer. *)
Definition Z_toString (n : Z) : string :=
  NilZero.string_of_int (Z.to_int n).

(** [x.toString()] for a multiple of 1/100: the integer part and at most
    two decimals, without trailing zeros. *)
Definition hundredths_toString (x : Q) : string :=
  let h := Qfloor (x * 100) in
  let a := Z.abs h in
  let digit (n : Z) := NilZero.string_of_uint (N.to_uint (Z.to_N n)) in
  let fraction :=
    if (a mod 100 =? 0)%Z then EmptyString
    else if (a mod 10 =? 0)%Z then String.append "." (digit ((a mod 100) / 10)%Z)
    else String.append "." (String.append (digit ((a mod 100) / 10)%Z) (digit (a mod 10)%Z)) in
  String.append (if (h <? 0)%Z then "-" else EmptyString)
    (String.append (digit (a / 100)%Z) fraction).

(** [x.toString()] for the numbers the scoring engine prints, which are
    the multiples of 1/100 and [NaN]. *)
Definition Number_toString (x : exactNumber) : string :=
  match x with
  | Rational q => hundredths_toString q
  | NotANumber => "NaN"
  end.

(** *** Numbers read from cell text

    [parseFloat] and [Number] return a binary64 value: [NaN], an
    infinity, or a finite number, kept as the rational it is equal to. *)
Inductive number :=
| NaN
| Inf (negative : bool)
| Fin (q : Q).

(** [a / b] rounded to the nearest integer, a tie going to the even one,
    for [0 <= a] and [0 < b]. *)
Definition roundHalfEven (a b : Z) : Z :=
  let q := (a / b)%Z in
  match (2 * (a mod b) ?= b)%Z with
  | Lt => q
  | Gt => (q + 1)%Z
  | Eq => if Z.even q then q else (q + 1)%Z
  end.

(** The binary64 number nearest to a rational, a tie going to the even
    mantissa: 53 bits of mantissa from the exponent -1022 on, multiples
    of 2^-1074 below, an infinity from 2^1024 on. *)
Definition toBinary64 (x : Q) : number :=
  let n := Z.abs (Qnum x) in
  let d := Z.pos (Qden x) in
  if (n =? 0)%Z then Fin 0
  else
    let e0 := (Z.log2 n - Z.log2 d)%Z in
    let below :=
      if (0 <=? e0)%Z then (n <? d * 2 ^ e0)%Z else (n * 2 ^ (- e0) <? d)%Z in
    let e := if below then (e0 - 1)%Z else e0 in
    let t := (Z.max e (-1022) - 52)%Z in
    let m :=
      if (0 <=? t)%Z then roundHalfEven n (d * 2 ^ t)
      else roundHalfEven (n * 2 ^ (- t)) d in
    let magnitude :=
      if (0 <=? t)%Z then inject_Z (m * 2 ^ t)
      else (m # Z.to_pos (2 ^ (- t)))%Q in
    if Qle_bool (inject_Z (2 ^ 1024)) magnitude then Inf (Qnum x <? 0)%Z
    else Fin (if (Qnum x <? 0)%Z then - magnitude else magnitude)%Q.

Definition isNaN (x : number) : bool :=
  match x with NaN => true | _ => false end.

(** [x || 0] for a number: [NaN] and zero are falsy. *)
Definition orZero (x : number) : number :=
  match x with
  | NaN => Fin 0
  | Fin q => if Qeq_bool q 0 then Fin 0 else Fin q
  | Inf s => Inf s
  end.

(** Subtraction: the difference of two equal infinities is [NaN].  The
    difference of two finite numbers is kept exact; only its sign is
    read, and rounding to binary64 keeps the sign of a difference. *)
Definition sub (x y : number) : number :=
  match x, y with
  | NaN, _ | _, NaN => NaN
  | Fin a, Fin b => Fin (a - b)
  | Inf s, Fin _ => Inf s
  | Fin _, Inf t => Inf (negb t)
  | Inf s, Inf t => if Bool.eqb s t then NaN else Inf s
  end.

(** Multiplication: the exact product of two finite numbers, rounded to
    binary64; an infinity times zero is [NaN]. *)
Definition number_mul (x y : number) : number :=
  match x, y with
  | NaN, _ | _, NaN => NaN
  | Fin a, Fin b => toBinary64 (a * b)
  | Inf s, Fin b | Fin b, Inf s =>
      if Qeq_bool b 0 then NaN else Inf (xorb s (Qnum b <? 0)%Z)
  | Inf s, Inf t => Inf (xorb s t)
  end.

(** [x < y]: false when either side is [NaN]. *)
Definition number_lt (x y : number) : bool :=
  match x, y with
  | NaN, _ | _, NaN => false
  | Fin a, Fin b => negb (Qle_bool b a)
  | Inf s, Inf t => s && negb t
  | Inf s, Fin _ => s
  | Fin _, Inf t => negb t
  end.

(** How [Array.prototype.sort] reads the number a comparator returns:
    negative, positive, or neither (zero and [NaN]). *)
Definition sign (x : number) : comparison :=
  match x with
  | NaN => Eq
  | Inf true => Lt
  | Inf false => Gt
  | Fin q => (q ?= 0)%Q
  end.

(** The order of the numbers: minus infinity, the finite ones, plus
    infinity.  [NaN], which is never a sort key, is put first to make the
    order total. *)
Definition number_compare (x y : number) : comparison :=
  match x, y with
  | NaN, NaN => Eq
  | NaN, _ => Lt
  | _, NaN => Gt
  | Fin a, Fin b => (a ?= b)%Q
  | Inf s, Inf t =>
      if s then (if t then Eq else Lt) else (if t then Gt else Eq)
  | Inf s, Fin _ => if s then Lt else Gt
  | Fin _, Inf t => if t then Gt else Lt
  end.

Definition isDigit (c : ascii) : bool :=
  let n := nat_of_ascii c in (48 <=? n) && (n <=? 57).

(** The longest prefix of decimal digits and what follows it. *)
Fixpoint spanDigits (s : string) : string * string :=
  match s with
  | EmptyString => (EmptyString, EmptyString)
  | String c s' =>
      if isDigit c
      then let '(ds, rest) := spanDigits s' in (String c ds, rest)
      else (EmptyString, s)
  end.

Definition digitsValue (ds : string) : Z :=
  default 0%Z (parseDigits 10 None ds).

(** [m * 10^e] as an exact rational. *)
Definition scale10 (m e : Z) : Q :=
  if (0 <=? e)%Z then inject_Z (m * 10 ^ e)
  else (m # Z.to_pos (10 ^ (- e)))%Q.

(** An [ExponentPart] at the head of [s]: [e] or [E], an optional sign and
    at least one digit.  The exponent and the rest, or [None]. *)
Definition readExponent (s : string) : option (Z * string) :=
  match s with
  | String c r =>
      if (Ascii.eqb c "e" || Ascii.eqb c "E")%bool then
        let '(esign, r1) :=
          match r with
          | String "-" r' => ((-1)%Z, r')
          | String "+" r' => (1%Z, r')
          | _ => (1%Z, r)
          end in
        let '(ds, rest) := spanDigits r1 in
        match ds with
        | EmptyString => None
        | _ => Some ((esign * digitsValue ds)%Z, rest)
        end
      else None
  | EmptyString => None
  end.

(** The longest prefix of [s] that is a [StrDecimalLiteral]: an optional
    sign followed by [Infinity], or by digits with an optional fraction
    and an optional exponent.  Its value and the text left over, or
    [None] when no prefix is one. *)
Definition readDecimalLiteral (s : string) : option (number * string) :=
  let '(negative, s1) :=
    match s with
    | String "-" r => (true, r)
    | String "+" r => (false, r)
    | _ => (false, s)
    end in
  if String.prefix "Infinity" s1
  then Some (Inf negative, String.substring 8 (String.length s1 - 8) s1)
  else
    let '(intDigits, r1) := spanDigits s1 in
    let '(fracDigits, r2, hasPoint) :=
      match r1 with
      | String "." r => let '(fs, r') := spanDigits r in (fs, r', true)
      | _ => (EmptyString, r1, false)
      end in
    match intDigits, fracDigits with
    | EmptyString, EmptyString => None
    | _, _ =>
        let mantissa := digitsValue (String.append intDigits fracDigits) in
        let '(exponent, rest) :=
          match readExponent r2 with
          | Some (e, r) => (e, r)
          | None => (0%Z, r2)
          end in
        let magnitude :=
          scale10 mantissa (exponent - Z.of_nat (String.length fracDigits)) in
        Some (toBinary64 (if negative then - magnitude else magnitude)%Q, rest)
    end.

(** [parseFloat(s)]: leading white space is skipped and the longest
    decimal literal at the head is the value. *)
Definition parseFloat (s : string) : number :=
  match readDecimalLiteral (trimStart s) with
  | Some (x, _) => x
  | None => NaN
  end.

(** [Number(s)]: the whole text, trimmed, must be a numeric literal: a
    decimal literal, or an unsigned integer in radix 16, 8 or 2 after [0x],
    [0o] or [0b]; the empty text is 0. *)
Definition Number (s : string) : number :=
  let t := trim s in
  let radixLiteral (radix : Z) (ds : string) : number :=
    match ds with
    | EmptyString => NaN
    | _ =>
        if forallb (fun c => match digitValue c with
                             | Some d => (d <? radix)%Z
                             | None => false
                             end) (list_ascii_of_string ds)
        then toBinary64 (inject_Z (default 0%Z (parseDigits radix None ds)))
        else NaN
    end in
  match t with
  | EmptyString => Fin 0
  | String "0" (String "x" ds) | String "0" (String "X" ds) => radixLiteral 16%Z ds
  | String "0" (String "o" ds) | String "0" (String "O" ds) => radixLiteral 8%Z ds
  | String "0" (String "b" ds) | String "0" (String "B" ds) => radixLiteral 2%Z ds
  | _ =>
      match readDecimalLiteral t with
      | Some (x, EmptyString) => x
      | _ => NaN
      end
  end.

(** *** Text *)

(** [String.prototype.toLowerCase] on the code units below 256: the
    letters A to Z and the capital letters of Latin-1 (192 to 222 but
    215) move up by 32. *)
Definition lowerChar (c : ascii) : ascii :=
  let n := nat_of_ascii c in
  if ((65 <=? n) && (n <=? 90))
     || ((192 <=? n) && (n <=? 222) && negb (n =? 215))
  then ascii_of_nat (n + 32) else c.

Fixpoint toLowerCase (s : string) : string :=
  match s with
  | EmptyString => EmptyString
  | String c s' => String (lowerChar c) (toLowerCase s')
  end.

(** *** Sorting *)

(** Modelled from the spec: [Array.prototype.sort] is the engine's; the
    spec requires a stable sort, equal keys keeping their relative order,
    which is also what the language standard prescribes for a consistent
    comparator.  The comparator's number is read through [sign].  The
    model is the insertion sort that skips the elements the new one is
    greater than. *)
Fixpoint insertSorted {A} (cmp : A -> A -> comparison) (x : A) (l : list A) : list A :=
  match l with
  | [] => [x]
  | y :: l' =>
      match cmp x y with
      | Gt => y :: insertSorted cmp x l'
      | _ => x :: l
      end
  end.

Definition sort {A} (cmp : A -> A -> comparison) (l : list A) : list A :=
  foldr (insertSorted cmp) [] l.

(** [n * 0.7 < k] in binary64, for array lengths [n] and [k] (which are
    below 2^32 and so binary64 numbers): the literal [0.7] is the
    binary64 number nearest to 7/10 and the product is rounded. *)
Definition exceeds70Percent (n k : nat) : bool :=
  number_lt
    (number_mul (Fin (inject_Z (Z.of_nat n))) (toBinary64 (7 # 10)))
    (Fin (inject_Z (Z.of_nat k))).

(** The same test on the primitive floating-point numbers, against
    which the one above is checked. *)
Definition exceeds70Percent_float (n k : nat) : bool :=
  PrimFloat.ltb
    (PrimFloat.mul (PrimFloat.of_uint63 (Uint63.of_Z (Z.of_nat n)))
                   0x1.6666666666666p-1%float)
    (PrimFloat.of_uint63 (Uint63.of_Z (Z.of_nat k))).

(** [[...new Set(values)]]: a [Set] keeps its elements in the order of
    their first insertion, and adding an element it holds changes
    nothing. *)
Definition Set_add (elements : list string) (x : string) : list string :=
  if bool_decide (x ∈ elements) then elements else elements ++ [x].

Definition Set_values (values : list string) : list string :=
  fold_left Set_add values [].

(** [array.sort()] without a comparator, on strings: the order of the
    code units. *)
Definition sort_default (l : list string) : list string :=
  sort String.compare l.

End JS.

(** ** The table and its view state (DataTable.tsx) *)

Record TableData := mkTableData {
  headers : list string;
  rows : list (list string)
}.

Inductive direction := asc | desc.

(** Invariant I2: every row is as long as the header list. *)
Definition rectangular (d : TableData) : Prop :=
  Forall (fun r => length r = length (headers d)) (rows d).

Module DataTable.

(** The [useState] cells of the component that the structural operations
    read or write.  The editing cell, the selected cell, the context menu
    and the resize flag only drive the display. *)
Record LocalState := mkLocal {
  columnWidths : list Z;
  selectedRows : gset nat;
  sortConfig : option (nat * direction)
}.

(** What the component renders from: the [data] prop, owned by the
    parent, and its own state. *)
Record View := mkView {
  data : TableData;
  local : LocalState
}.

(** The outcome of one handler: the local state after its [setState]
    calls and the argument of [onDataChange] when it was called. *)
Record Update := mkUpdate {
  u_local : LocalState;
  u_data : option TableData
}.

Definition setColumnWidths (w : list Z) (l : LocalState) : LocalState :=
  mkLocal w (selectedRows l) (sortConfig l).

Definition setSelectedRows (s : gset nat) (l : LocalState) : LocalState :=
  mkLocal (columnWidths l) s (sortConfig l).

Definition setSortConfig (c : option (nat * direction)) (l : LocalState)
  : LocalState :=
  mkLocal (columnWidths l) (selectedRows l) c.

(** The two effects of the component, run after the render that follows
    a batch: the one keyed on [data.headers.length] resets the widths to
    150 and clears the selection; the one keyed on [data] clears the
    selection.  [onDataChange] always passes a fresh object, so the
    second one runs after every call. *)
Definition commit (v : View) (u : Update) : View :=
  match u_data u with
  | None => mkView (data v) (u_local u)
  | Some d =>
      let l1 :=
        if decide (length (headers d) = length (headers (data v)))
        then u_local u
        else setSelectedRows ∅
               (setColumnWidths (replicate (length (headers d)) 150%Z)
                  (u_local u)) in
      mkView d (setSelectedRows ∅ l1)
  end.

(** *** Selection *)

Definition toggleRowSelection (rowIndex : nat) (v : View) : Update :=
  let prev := selectedRows (local v) in
  let newSelected :=
    if decide (rowIndex ∈ prev) then prev ∖ {[rowIndex]}
    else prev ∪ {[rowIndex]} in
  mkUpdate (setSelectedRows newSelected (local v)) None.

Definition selectAllRows (v : View) : Update :=
  if decide (size (selectedRows (local v)) = length (rows (data v)))
  then mkUpdate (setSelectedRows ∅ (local v)) None
  else mkUpdate
         (setSelectedRows
            (list_to_set (imap (fun index _ => index) (rows (data v))))
            (local v))
         None.

Definition deleteSelectedRows (v : View) : Update :=
  let newRows :=
    JS.filteri
      (fun _ index => negb (bool_decide (index ∈ selectedRows (local v))))
      (rows (data v)) in
  mkUpdate (setSelectedRows ∅ (local v))
           (Some (mkTableData (headers (data v)) newRows)).

(** *** Columns and rows *)

(** The template literal [`Column ${n}`]. *)
Definition columnName (n : nat) : string :=
  String.append "Column " (NilZero.string_of_uint (Nat.to_uint n)).

Definition addColumn (v : View) : Update :=
  let d := data v in
  let newColumnName := columnName (length (headers d) + 1) in
  let newHeaders := headers d ++ [newColumnName] in
  let newRows := map (fun row => row ++ [""]) (rows d) in
  let newWidths := columnWidths (local v) ++ [150%Z] in
  mkUpdate (setColumnWidths newWidths (local v))
           (Some (mkTableData newHeaders newRows)).

Definition addRow (v : View) : Update :=
  let d := data v in
  let newRow := replicate (length (headers d)) "" in
  mkUpdate (local v) (Some (mkTableData (headers d) (rows d ++ [newRow]))).

Definition insertColumnAt (at_ : nat) (v : View) : Update :=
  let d := data v in
  let newHeaders :=
    JS.splice_insert at_ (columnName (length (headers d) + 1)) (headers d) in
  let newWidths := JS.splice_insert at_ 150%Z (columnWidths (local v)) in
  let newRows := map (JS.splice_insert at_ "") (rows d) in
  mkUpdate (setColumnWidths newWidths (local v))
           (Some (mkTableData newHeaders newRows)).

Definition insertColumnLeft (columnIndex : nat) : View -> Update :=
  insertColumnAt columnIndex.

Definition insertColumnRight (columnIndex : nat) : View -> Update :=
  insertColumnAt (columnIndex + 1).

Definition deleteColumn (columnIndex : nat) (v : View) : Update :=
  let d := data v in
  if length (headers d) <=? 1 then mkUpdate (local v) None
  else
    let keep {A} (_ : A) index := negb (index =? columnIndex) in
    let newHeaders := JS.filteri keep (headers d) in
    let newWidths := JS.filteri keep (columnWidths (local v)) in
    let newRows := map (JS.filteri keep) (rows d) in
    mkUpdate (setColumnWidths newWidths (local v))
             (Some (mkTableData newHeaders newRows)).

(** *** Editing *)

(** [handleCellChange]: [newRows[rowIndex] = [...newRows[rowIndex]]]
    throws a TypeError when the row is absent, and the assignment of the
    cell follows [JS.assign].  [None] stands for both failures. *)
Definition handleCellChange (rowIndex colIndex : nat) (value : string)
    (v : View) : option Update :=
  let d := data v in
  row ← rows d !! rowIndex;
  newRow ← JS.assign row colIndex value;
  Some (mkUpdate (local v)
          (Some (mkTableData (headers d) (<[rowIndex:=newRow]> (rows d))))).

Definition handleHeaderChange (colIndex : nat) (value : string) (v : View)
    : option Update :=
  let d := data v in
  newHeaders ← JS.assign (headers d) colIndex value;
  Some (mkUpdate (local v) (Some (mkTableData newHeaders (rows d)))).

(** [handleHeaderSave] of SortableColumn.tsx: what the header editor
    passes to [handleHeaderChange]. *)
Definition handleHeaderSave (tempHeader header : string) : string :=
  if JS.truthy (JS.trim tempHeader) then JS.trim tempHeader else header.

(** *** Sorting *)

(** [a[columnIndex] || '']. *)
Definition cellText (columnIndex : nat) (row : list string) : string :=
  default EmptyString (row !! columnIndex).

Definition isNumericValue (val : string) : bool :=
  negb (JS.isNaN (JS.Number val)) && negb (JS.isNaN (JS.parseFloat val)).

(** The non-blank cells of a column. *)
Definition columnValues (columnIndex : nat) (d : TableData) : list string :=
  omap (fun row =>
          if JS.nonBlank (row !! columnIndex) then row !! columnIndex else None)
       (rows d).

Definition isNumericColumn (columnIndex : nat) (d : TableData) : bool :=
  let values := columnValues columnIndex d in
  if length values =? 0 then false
  else
    let numericValues := List.filter isNumericValue values in
    JS.exceeds70Percent (length values) (length numericValues).

Definition numericKey (columnIndex : nat) (row : list string) : JS.number :=
  JS.orZero (JS.parseFloat (cellText columnIndex row)).

Definition textKey (columnIndex : nat) (row : list string) : string :=
  JS.toLowerCase (cellText columnIndex row).

(** The comparator passed to [sort]. *)
Definition compareRows (isNumeric : bool) (columnIndex : nat) (dir : direction)
    (a b : list string) : comparison :=
  if isNumeric then
    let aNum := numericKey columnIndex a in
    let bNum := numericKey columnIndex b in
    match dir with
    | asc => JS.sign (JS.sub aNum bNum)
    | desc => JS.sign (JS.sub bNum aNum)
    end
  else
    let aStr := textKey columnIndex a in
    let bStr := textKey columnIndex b in
    match dir with
    | asc => if String.ltb aStr bStr then Lt
             else if String.ltb bStr aStr then Gt else Eq
    | desc => if String.ltb bStr aStr then Lt
              else if String.ltb aStr bStr then Gt else Eq
    end.

Definition sortColumn (columnIndex : nat) (dir : direction) (v : View) : Update :=
  let d := data v in
  let isNumeric := isNumericColumn columnIndex d in
  let sortedRows := JS.sort (compareRows isNumeric columnIndex dir) (rows d) in
  mkUpdate (setSortConfig (Some (columnIndex, dir)) (local v))
           (Some (mkTableData (headers d) sortedRows)).

(** *** Reordering *)

(** Modelled from the spec: [arrayMove] of the drag-and-drop library,
    which is imported by DataTable.tsx and is not part of the sources.
    The spec gives it array-move semantics: remove at [from], insert at
    [to], the other elements keeping their relative order.  The library
    does it with two [splice] calls on a copy, the insertion index being
    computed from the length before the removal.  When nothing is
    removed the inserted value would be [undefined]: [None]. *)
Definition arrayMove {A} (array : list A) (from to : Z) : option (list A) :=
  let len := length array in
  let start := if (to <? 0)%Z then (Z.of_nat len + to)%Z else to in
  let i := JS.relativeStart len from in
  x ← array !! i;
  let rest := delete i array in
  Some (JS.splice_insert (JS.relativeStart (length rest) start) x rest).

(** [handleDragEnd]: [active] and [over] are the [id]s of the dragged
    column and of the column it is dropped on ([None] when it is dropped
    outside); the ids are the header texts. *)
Definition handleDragEnd (active : string) (over : option string) (v : View)
    : option Update :=
  let d := data v in
  match over with
  | Some over_id =>
      if negb (String.eqb active over_id) then
        let oldIndex := JS.findIndex (fun header => String.eqb header active) (headers d) in
        let newIndex := JS.findIndex (fun header => String.eqb header over_id) (headers d) in
        newHeaders ← arrayMove (headers d) oldIndex newIndex;
        newRows ← mapM (fun row => arrayMove row oldIndex newIndex) (rows d);
        newWidths ← arrayMove (columnWidths (local v)) oldIndex newIndex;
        Some (mkUpdate (setColumnWidths newWidths (local v))
                (Some (mkTableData newHeaders newRows)))
      else Some (mkUpdate (local v) None)
  | None => Some (mkUpdate (local v) None)
  end.

(** The gesture behind [moveColumn(from, to)] of the spec: the column at
    index [from] is dragged and dropped on the column at index [to]. *)
Definition moveColumn (from to : nat) (v : View) : option View :=
  active ← headers (data v) !! from;
  over_id ← headers (data v) !! to;
  commit v <$> handleDragEnd active (Some over_id) v.

(** *** Resizing *)

(** [handleMouseMove], the listener that [handleMouseDown] installs for
    one drag of the resize handle of [columnIndex]: [startX] and
    [startWidth] are the pointer position and the width of the column
    when the button went down, [clientX] the position of this move, in
    whole pixels.  The width is written with [newWidths[columnIndex] =
    newWidth], which follows [JS.assign]. *)
Definition handleMouseMove (columnIndex : nat) (startX startWidth clientX : Z)
    (l : LocalState) : option LocalState :=
  let diff := (clientX - startX)%Z in
  let newWidth := Z.max 100 (startWidth + diff) in
  newWidths ← JS.assign (columnWidths l) columnIndex newWidth;
  Some (setColumnWidths newWidths l).

(** [handleMouseDown]: the listener for the drag that starts at
    [clientX].  [columnWidths[columnIndex]] is [undefined] outside the
    array, and every width computed from it would be [NaN]: [None]. *)
Definition handleMouseDown (columnIndex : nat) (clientX : Z) (v : View)
    : option (Z -> LocalState -> option LocalState) :=
  startWidth ← columnWidths (local v) !! columnIndex;
  Some (handleMouseMove columnIndex clientX startWidth).

(** *** Export *)

(** What [exportToCSV] hands to the CSV writer and to the download link:
    the fields, the rows and the file name. *)
Record Export := mkExport {
  fields : list string;
  exported : list (list string);
  filename : string
}.

Definition exportToCSV (v : View) : Export :=
  let selected := selectedRows (local v) in
  let rowsToExport :=
    if 0 <? size selected
    then JS.filteri (fun _ index => bool_decide (index ∈ selected)) (rows (data v))
    else rows (data v) in
  let filename :=
    if 0 <? size selected
    then String.append "leadsmanager-selected-"
           (String.append (NilZero.string_of_uint (Nat.to_uint (size selected)))
              "-rows.csv")
    else "leadsmanager-export.csv"%string in
  mkExport (headers (data v)) rowsToExport filename.

End DataTable.

(** ** Auxiliary definitions of the statements *)

(** The array that moving the element at index [i] to index [j] gives,
    for [i] inside the array: the element is taken out and put back so
    that [j] elements of the others come before it. *)
Definition moveTo {A} (i j : nat) (l : list A) : list A :=
  match l !! i with
  | Some x => take j (delete i l) ++ x :: drop j (delete i l)
  | None => l
  end.

(** The widths follow the headers. *)
Definition widths_aligned (v : DataTable.View) : Prop :=
  length (DataTable.columnWidths (DataTable.local v))
  = length (headers (DataTable.data v)).

(** Sample views. *)
Definition one_column_view : DataTable.View :=
  DataTable.mkView (mkTableData ["Name"] [["Acme"]; ["Beta"]])
    (DataTable.mkLocal [150%Z] ∅ None).

Definition two_rows_all_selected : DataTable.View :=
  DataTable.mkView (mkTableData ["Name"] [["Acme"]; ["Beta"]])
    (DataTable.mkLocal [150%Z] {[0; 1]} None).

Definition three_column_view : DataTable.View :=
  DataTable.mkView
    (mkTableData ["Name"; "Size"; "City"]
       [["Acme"; "Large"; "Oslo"]; ["Beta"; "Small"; "Rome"]])
    (DataTable.mkLocal [150%Z; 220%Z; 100%Z] {[1]} None).

(** ** The scoring engine (LeadScoringModal.tsx) *)

Module LeadScoringModal.

(** The keys of [IMPORTANCE_LEVELS] and the points of each. *)
Inductive importance :=
| VeryImportant | Important | Normal | ALittleImportant | NotImportant.

Definition IMPORTANCE_LEVELS (level : importance) : Z :=
  match level with
  | VeryImportant => 100
  | Important => 75
  | Normal => 50
  | ALittleImportant => 25
  | NotImportant => 0
  end%Z.

Record SavedScore := mkSavedScore {
  saved_id : string;
  saved_name : string;
  saved_weights : gmap string Z;
  saved_subcategoryWeights : gmap string (gmap string Z);
  saved_includedColumns : list string
}.

(** The [useState] cells of the modal that the configuration and the
    score depend on. *)
Record State := mkState {
  weights : gmap string Z;
  subcategoryWeights : gmap string (gmap string Z);
  includedColumns : list string;
  expandedColumn : string;
  selectedValue : string;
  selectedImportance : importance
}.

Definition setWeights (w : gmap string Z) (st : State) : State :=
  mkState w (subcategoryWeights st) (includedColumns st) (expandedColumn st)
    (selectedValue st) (selectedImportance st).

Definition setSubcategoryWeights (w : gmap string (gmap string Z)) (st : State)
  : State :=
  mkState (weights st) w (includedColumns st) (expandedColumn st)
    (selectedValue st) (selectedImportance st).

Definition setIncludedColumns (c : list string) (st : State) : State :=
  mkState (weights st) (subcategoryWeights st) c (expandedColumn st)
    (selectedValue st) (selectedImportance st).

Definition setExpandedColumn (c : string) (st : State) : State :=
  mkState (weights st) (subcategoryWeights st) (includedColumns st) c
    (selectedValue st) (selectedImportance st).

Definition setSelectedValue (x : string) (st : State) : State :=
  mkState (weights st) (subcategoryWeights st) (includedColumns st)
    (expandedColumn st) x (selectedImportance st).

Definition setSelectedImportance (level : importance) (st : State) : State :=
  mkState (weights st) (subcategoryWeights st) (includedColumns st)
    (expandedColumn st) (selectedValue st) level.

(** The outcome of a handler: the state after its [setState] calls, and
    whether [setIncludedColumns] received a new array, which is what the
    effect on [includedColumns] is keyed on. *)
Record Update := mkUpdate {
  u_state : State;
  u_included : bool
}.

(** The body of the effect "update weights when included columns
    change", for a non-empty list. *)
Definition equalWeights (includedColumns : list string) : gmap string Z :=
  let n := Z.of_nat (length includedColumns) in
  let equalWeight := (100 / n)%Z in
  let remainder := (100 - equalWeight * n)%Z in
  JS.forEachi
    (fun (newWeights : gmap string Z) header index =>
       JS.put newWeights header
         (equalWeight + (if (index =? 0)%nat then remainder else 0))%Z)
    includedColumns ∅.

Definition commit (u : Update) : State :=
  let st := u_state u in
  if u_included u && (0 <? length (includedColumns st))
  then setWeights (equalWeights (includedColumns st)) st
  else st.

(** [Object.values(weights).reduce((sum, weight) => sum + weight, 0)]. *)
Definition totalWeight (st : State) : Z :=
  map_fold (fun _ weight sum => (sum + weight)%Z) 0%Z (weights st).

Definition isValidWeight (st : State) : bool :=
  (totalWeight st =? 100)%Z && (0 <? length (includedColumns st)).

Definition addColumn (header : string) (st : State) : Update :=
  if negb (bool_decide (header ∈ includedColumns st))
  then mkUpdate (setIncludedColumns (includedColumns st ++ [header]) st) true
  else mkUpdate st false.

Definition removeColumn (header : string) (st : State) : Update :=
  let st1 :=
    setIncludedColumns
      (List.filter (fun col => negb (String.eqb col header)) (includedColumns st))
      st in
  let st2 := setWeights (delete header (weights st1)) st1 in
  let st3 :=
    if String.eqb (expandedColumn st2) header
    then setExpandedColumn EmptyString st2 else st2 in
  mkUpdate st3 true.

Definition handleWeightChange (header value : string) (st : State) : Update :=
  let numValue := JS.orNum (JS.parseInt value) 0 in
  mkUpdate
    (setWeights (<[header := Z.max 0 (Z.min 100 numValue)]> (weights st)) st)
    false.

(** [handleLoadScore].  The array [score.includedColumns] is handed to
    [setIncludedColumns] as it is: [sameArray] tells whether it is the
    array that the state holds already, which is so when the last change
    of the included columns was a load of this saved score.  The state
    then holds no new array, and the effect on [includedColumns] does
    not run. *)
Definition handleLoadScore (sameArray : bool) (score : SavedScore)
    (st : State) : Update :=
  mkUpdate
    (setIncludedColumns (saved_includedColumns score)
       (setSubcategoryWeights (saved_subcategoryWeights score)
          (setWeights (saved_weights score) st)))
    (negb sameArray).

Definition handleRowClick (columnName : string) (st : State) : Update :=
  mkUpdate
    (setSelectedValue EmptyString
       (setExpandedColumn
          (if String.eqb (expandedColumn st) columnName
           then EmptyString else columnName)
          st))
    false.

Definition handleAssignImportance (columnName : string) (st : State) : Update :=
  if JS.truthy (selectedValue st) then
    let prev := subcategoryWeights st in
    let forColumn := default ∅ (prev !! columnName) in
    mkUpdate
      (setSelectedValue EmptyString
         (setSubcategoryWeights
            (<[columnName :=
                 <[selectedValue st := IMPORTANCE_LEVELS (selectedImportance st)]>
                   forColumn]> prev)
            st))
      false
  else mkUpdate st false.

(** [weights[columnName] || 0] in [calculateRowScore]. *)
Definition columnWeightRead (st : State) (columnName : string) : JS.operand :=
  JS.orOperand (JS.get (weights st) columnName) 0.

(** [subcategoryWeights[columnName]?.[cellValue] || 50]; [None] is a
    [TypeError].  Without an own entry for a column that has a name of
    [Object.prototype], the value is looked up in the inherited member. *)
Definition subcategoryWeightRead (st : State) (columnName cellValue : string)
    : option JS.operand :=
  match JS.get (subcategoryWeights st) columnName with
  | JS.Own forColumn => Some (JS.orOperand (JS.get forColumn cellValue) 50)
  | JS.Undefined => Some (JS.IsNumber 50)
  | JS.Inherited => JS.inheritedMember columnName cellValue 50
  end.

(** The callback of [includedColumns.forEach] in [calculateRowScore]:
    [totalScore] after one more column, in the arithmetic [ar]; [None]
    when the callback throws. *)
Definition scoreColumnIn {N} (ar : JS.arithmetic N) (data : TableData)
    (st : State) (row : list string) (totalScore : N) (columnName : string)
    : option N :=
  let columnIndex := JS.indexOf (headers data) columnName in
  if (columnIndex =? -1)%Z then Some totalScore
  else
    match row !! Z.to_nat columnIndex with
    | Some cellValue =>
        if JS.nonBlank (Some cellValue) then
          let columnWeight := columnWeightRead st columnName in
          subcategoryWeight ← subcategoryWeightRead st columnName cellValue;
          Some (JS.plus ar totalScore
                  (JS.times ar
                     (JS.over ar (JS.ofOperand ar columnWeight) (JS.ofZ ar 100))
                     (JS.ofOperand ar subcategoryWeight)))
        else Some totalScore
    | None => Some totalScore
    end.

(** [calculateRowScore]; [None] when it throws. *)
Definition calculateRowScoreIn {N} (ar : JS.arithmetic N) (data : TableData)
    (st : State) (row : list string) : option N :=
  totalScore ←
    fold_left
      (fun totalScore columnName =>
         totalScore ≫= fun t => scoreColumnIn ar data st row t columnName)
      (includedColumns st) (Some (JS.ofZ ar 0));
  Some (JS.over ar (JS.round ar (JS.times ar totalScore (JS.ofZ ar 100)))
          (JS.ofZ ar 100)).

Definition scoreColumn
    : TableData -> State -> list string -> JS.exactNumber -> string ->
      option JS.exactNumber :=
  scoreColumnIn JS.exact.

Definition calculateRowScore
    : TableData -> State -> list string -> option JS.exactNumber :=
  calculateRowScoreIn JS.exact.

(** [handleApplyScoreToData]: the table passed to [onDataChange], [None]
    when the guard on [isValidWeight] returns early or the score of a row
    throws.  The assignment [newRow[scoreColumnIndex] = ...] follows the
    padding loop, so its index is inside the row. *)
Definition handleApplyScoreToData (data : TableData) (st : State)
    : option TableData :=
  if negb (isValidWeight st) then None
  else
    let scoreColumnName := "Lead Score"%string in
    let found := JS.indexOf (headers data) scoreColumnName in
    let newHeaders :=
      if (found =? -1)%Z then headers data ++ [scoreColumnName]
      else headers data in
    let scoreColumnIndex :=
      if (found =? -1)%Z then length newHeaders - 1 else Z.to_nat found in
    newRows ←
      mapM (fun row =>
              let newRow :=
                row ++ replicate (length newHeaders - length row) EmptyString in
              score ← calculateRowScore data st row;
              Some (<[scoreColumnIndex := JS.Number_toString score]> newRow))
           (rows data);
    Some (mkTableData newHeaders newRows).

(** [Object.entries(IMPORTANCE_LEVELS)]: the levels in the order of the
    object literal. *)
Definition IMPORTANCE_LEVELS_entries : list (importance * Z) :=
  map (fun level => (level, IMPORTANCE_LEVELS level))
    [VeryImportant; Important; Normal; ALittleImportant; NotImportant].

(** [getImportanceLevelByPoints]: the first level with these points,
    [Normal] when there is none (the name of a level is never falsy). *)
Definition getImportanceLevelByPoints (points : Z) : importance :=
  match List.find (fun entry => (snd entry =? points)%Z) IMPORTANCE_LEVELS_entries with
  | Some entry => fst entry
  | None => Normal
  end.

(** [hasSubcategoryWeights], read as a condition. *)
Definition hasSubcategoryWeights (columnName : string) (st : State) : bool :=
  match subcategoryWeights st !! columnName with
  | Some forColumn => 0 <? size forColumn
  | None => false
  end.

Definition availableColumns (data : TableData) (st : State) : list string :=
  List.filter (fun header => negb (bool_decide (header ∈ includedColumns st)))
    (headers data).

(** [data.rows.map(row => row[columnIndex]).filter(val => val &&
    val.trim())] is [DataTable.columnValues]. *)
Definition getUniqueValues (data : TableData) (header : string) : list string :=
  let columnIndex := JS.indexOf (headers data) header in
  if (columnIndex =? -1)%Z then []
  else
    let values := DataTable.columnValues (Z.to_nat columnIndex) data in
    take 5 (JS.Set_values values).

Definition getUniqueValuesForColumn (data : TableData) (columnName : string)
    : list string :=
  let columnIndex := JS.indexOf (headers data) columnName in
  if (columnIndex =? -1)%Z then []
  else
    let values := DataTable.columnValues (Z.to_nat columnIndex) data in
    JS.sort_default (JS.Set_values values).

(** The [useState] cells of the saved scores: the list, the name typed
    in the save dialog and whether the dialog shows. *)
Record Library := mkLibrary {
  savedScores : list SavedScore;
  scoreName : string;
  showSaveDialog : bool
}.

(** [handleSaveScore]: [now] is [Date.now()].  The creation date, which
    is only displayed, is not part of [SavedScore]. *)
Definition handleSaveScore (now : Z) (st : State) (lib : Library) : Library :=
  if negb (JS.truthy (JS.trim (scoreName lib))) || negb (isValidWeight st)
  then lib
  else
    let newScore :=
      mkSavedScore (JS.Z_toString now) (JS.trim (scoreName lib))
        (weights st) (subcategoryWeights st) (includedColumns st) in
    mkLibrary (savedScores lib ++ [newScore]) EmptyString false.

End LeadScoringModal.

(** The row score as the specification words it: [round2] of the sum,
    over the included columns, of [(columnWeight / 100) * w], with [w] the
    weight assigned to the cell value, 50 when none is assigned, and
    nothing for a blank cell. *)
Definition round2 (q : Q) : Q :=
  (inject_Z (Qfloor (q * 100 + (1 # 2))) / 100)%Q.

Definition cellOf (data : TableData) (row : list string) (columnName : string)
    : option string :=
  let columnIndex := JS.indexOf (headers data) columnName in
  if (columnIndex =? -1)%Z then None else row !! Z.to_nat columnIndex.

Definition columnWeightOf (st : LeadScoringModal.State) (columnName : string) : Z :=
  default 0%Z (LeadScoringModal.weights st !! columnName).

Definition assignedWeight (st : LeadScoringModal.State) (columnName value : string)
    : option Z :=
  LeadScoringModal.subcategoryWeights st !! columnName ≫= (.!! value).

Definition valueWeightOf (st : LeadScoringModal.State) (columnName value : string)
    : Z :=
  default 50%Z (assignedWeight st columnName value).

Definition contribution (data : TableData) (st : LeadScoringModal.State)
    (row : list string) (columnName : string) : Q :=
  match cellOf data row columnName with
  | Some value =>
      if JS.nonBlank (Some value)
      then (inject_Z (columnWeightOf st columnName) / 100
            * inject_Z (valueWeightOf st columnName value))%Q
      else 0%Q
  | None => 0%Q
  end.

Definition Qsum (l : list Q) : Q := fold_right Qplus 0%Q l.

Definition score_spec (data : TableData) (st : LeadScoringModal.State)
    (row : list string) : Q :=
  round2 (Qsum (map (contribution data st row) (LeadScoringModal.includedColumns st))).

(** The score of a row is the number [q]. *)
Definition scoreIs (score : option JS.exactNumber) (q : Q) : Prop :=
  match score with
  | Some (JS.Rational p) => (p == q)%Q
  | _ => False
  end.

(** The reads of the score of a row stay in the dictionaries: for an
    included column with a text in the row, neither the column weight,
    nor the dictionary of the column, nor the weight of the text is a
    member of [Object.prototype]. *)
Definition ownReads (data : TableData) (st : LeadScoringModal.State)
    (row : list string) : Prop :=
  forall columnName value,
    columnName ∈ LeadScoringModal.includedColumns st ->
    cellOf data row columnName = Some value ->
    JS.nonBlank (Some value) = true ->
    JS.get (LeadScoringModal.weights st) columnName <> JS.Inherited
    /\ JS.get (LeadScoringModal.subcategoryWeights st) columnName <> JS.Inherited
    /\ forall forColumn,
         LeadScoringModal.subcategoryWeights st !! columnName = Some forColumn ->
         JS.get forColumn value <> JS.Inherited.

(** Sample scoring configurations: P6 of the specification, and one
    column whose value "Cold" is assigned Not Important. *)
Definition p6_table : TableData := mkTableData ["A"; "B"] [["X"; "Y"]].

Definition p6_config : LeadScoringModal.State :=
  LeadScoringModal.mkState
    {[ "A" := 60%Z; "B" := 40%Z ]}
    {[ "A" := {[ "X" := 100%Z ]}; "B" := {[ "Y" := 50%Z ]} ]}
    ["A"; "B"] EmptyString EmptyString LeadScoringModal.Normal.

Definition cold_table : TableData :=
  mkTableData ["Segment"] [["Cold"]].

Definition cold_config : LeadScoringModal.State :=
  LeadScoringModal.mkState
    {[ "Segment" := 100%Z ]}
    {[ "Segment" := {[ "Cold" := 0%Z ]} ]}
    ["Segment"] "Segment" EmptyString LeadScoringModal.NotImportant.

(** The modal as it opens, and the clicks that lead to [cold_config]:
    include "Segment", expand it, choose the value "Cold" and the level
    Not Important, and assign. *)
Definition opened_config : LeadScoringModal.State :=
  LeadScoringModal.mkState ∅ ∅ [] EmptyString EmptyString
    LeadScoringModal.Normal.

Definition cold_clicks : LeadScoringModal.State :=
  let s1 := LeadScoringModal.commit
              (LeadScoringModal.addColumn "Segment" opened_config) in
  let s2 := LeadScoringModal.commit (LeadScoringModal.handleRowClick "Segment" s1) in
  let s3 := LeadScoringModal.setSelectedImportance LeadScoringModal.NotImportant
              (LeadScoringModal.setSelectedValue "Cold" s2) in
  LeadScoringModal.commit (LeadScoringModal.handleAssignImportance "Segment" s3).

(** [output] is the stable sort of [input] for the comparator [cmp]: the
    same elements, in an order the comparator never contradicts, the
    elements that compare equal keeping their order of [input]. *)
Definition isEq (c : comparison) : bool :=
  match c with Eq => true | _ => false end.

Definition stable_sort_of {A} (cmp : A -> A -> comparison)
    (input output : list A) : Prop :=
  output ≡ₚ input
  /\ StronglySorted (fun a b => cmp a b <> Gt) output
  /\ forall x, List.filter (fun a => isEq (cmp x a)) output
               = List.filter (fun a => isEq (cmp x a)) input.

(** Comparing two rows by a key, in a direction. *)
Definition by_key {K} (kcmp : K -> K -> comparison) (key : list string -> K)
    (dir : direction) (a b : list string) : comparison :=
  match dir with
  | asc => kcmp (key a) (key b)
  | desc => kcmp (key b) (key a)
  end.

(** The column of single-cell rows with the given cell texts. *)
Definition column_view (cells : list string) : DataTable.View :=
  DataTable.mkView (mkTableData ["Value"] (map (fun x => [x]) cells))
    (DataTable.mkLocal [150%Z] ∅ None).

(** The claim on [sortByColumn] at one input, for a reading [parses] of
    "the cell parses as a floating-point number": the column is numeric
    iff more than 70% of its non-blank cells parse; a numeric column is
    stably sorted by the parsed value, a blank or unparseable cell
    counting as 0; another column is stably sorted by the lower-cased
    text; headers and widths are untouched. *)
Definition claimedNumeric (parses : string -> bool) (col : nat) (d : TableData)
    : Prop :=
  let values := DataTable.columnValues col d in
  7 * length values < 10 * length (List.filter parses values).

Definition claimedKey (parses : string -> bool) (col : nat) (row : list string)
    : JS.number :=
  let text := DataTable.cellText col row in
  if JS.nonBlank (Some text) && parses text then JS.parseFloat text
  else JS.Fin 0.

Definition sortByColumn_claim (parses : string -> bool) (v : DataTable.View)
    (col : nat) (dir : direction) : Prop :=
  let d := DataTable.data v in
  let v' := DataTable.commit v (DataTable.sortColumn col dir v) in
  (DataTable.isNumericColumn col d = true <-> claimedNumeric parses col d)
  /\ (claimedNumeric parses col d ->
      stable_sort_of (by_key JS.number_compare (claimedKey parses col) dir)
        (rows d) (rows (DataTable.data v')))
  /\ (~ claimedNumeric parses col d ->
      stable_sort_of (by_key String.compare (DataTable.textKey col) dir)
        (rows d) (rows (DataTable.data v')))
  /\ headers (DataTable.data v') = headers d
  /\ DataTable.columnWidths (DataTable.local v')
     = DataTable.columnWidths (DataTable.local v).

(** Two readings of "parses": [parseFloat] finds a number at the head of
    the text; the whole text is a number. *)
Definition parsesAsFloat (s : string) : bool :=
  negb (JS.isNaN (JS.parseFloat s)).

Definition parsesAsNumber (s : string) : bool :=
  negb (JS.isNaN (JS.Number s)).

(** ** The sheet registry (App.tsx) *)

Module App.

Record Sheet := mkSheet {
  id : string;
  name : string;
  sheet_data : option TableData
}.

Record State := mkState {
  sheets : list Sheet;
  activeSheetId : string
}.

Inductive importMode := replace | new.

(** The effect "create default sheet if none exist", once loading is
    over: it runs after every render in which [sheets] changed. *)
Definition commit (st : State) : State :=
  if length (sheets st) =? 0
  then mkState [mkSheet "1" "Sheet 1" None] "1"
  else st.

Definition currentSheet (st : State) : option Sheet :=
  List.find (fun sheet => String.eqb (id sheet) (activeSheetId st)) (sheets st).

Definition handleDataChange (data : option TableData) (st : State) : State :=
  mkState
    (map (fun sheet =>
            if String.eqb (id sheet) (activeSheetId st)
            then mkSheet (id sheet) (name sheet) data
            else sheet)
         (sheets st))
    (activeSheetId st).

(** [existingIds.length > 0 ? Math.max(...existingIds) + 1 : 1] with
    [existingIds] the ids that [parseInt] reads as a number.  The ids
    are integers, embedded as [Z]: [parseInt], [Math.max], [+ 1] and
    [toString] are exact on the integers below 2^53 in absolute value,
    and the ids of a registry count up from 1. *)
Definition nextSheetId (st : State) : Z :=
  let existingIds := omap (fun s => JS.parseInt (id s)) (sheets st) in
  match existingIds with
  | [] => 1%Z
  | x :: xs => (fold_left Z.max xs x + 1)%Z
  end.

Definition addNewSheet (st : State) : State :=
  let newId := nextSheetId st in
  let newSheet :=
    mkSheet (JS.Z_toString newId)
            (String.append "Sheet " (JS.Z_toString newId)) None in
  mkState (sheets st ++ [newSheet]) (JS.Z_toString newId).

Definition renameSheet (id_ name_ : string) (st : State) : State :=
  mkState
    (map (fun sheet =>
            if String.eqb (id sheet) id_
            then mkSheet (id sheet) name_ (sheet_data sheet)
            else sheet)
         (sheets st))
    (activeSheetId st).

(** [deleteSheet]: [remainingSheets[0].id] throws a TypeError when no
    sheet remains; [None] stands for it. *)
Definition deleteSheet (id_ : string) (st : State) : option State :=
  if length (sheets st) <=? 1 then Some st
  else
    let remainingSheets :=
      List.filter (fun sheet => negb (String.eqb (id sheet) id_)) (sheets st) in
    if String.eqb id_ (activeSheetId st) then
      match remainingSheets with
      | first :: _ => Some (mkState remainingSheets (id first))
      | [] => None
      end
    else Some (mkState remainingSheets (activeSheetId st)).

Definition handleImportData (data : TableData) (mode : importMode) (st : State)
    : State :=
  match mode with
  | new =>
      let newId := nextSheetId st in
      let newSheet :=
        mkSheet (JS.Z_toString newId)
                (String.append "Sheet " (JS.Z_toString newId)) (Some data) in
      mkState (sheets st ++ [newSheet]) (JS.Z_toString newId)
  | replace => handleDataChange (Some data) st
  end.

Definition setActiveSheetId (id_ : string) (st : State) : State :=
  mkState (sheets st) id_.

(** The operations of the registry, as the user interface issues them. *)
Inductive Op :=
| AddNewSheet
| RenameSheet (id_ name_ : string)
| DeleteSheet (id_ : string)
| SelectSheet (id_ : string)
| DataChange (data : option TableData)
| ImportData (data : TableData) (mode : importMode).

Definition step (op : Op) (st : State) : option State :=
  commit <$>
    match op with
    | AddNewSheet => Some (addNewSheet st)
    | RenameSheet i n => Some (renameSheet i n st)
    | DeleteSheet i => deleteSheet i st
    | SelectSheet i => Some (setActiveSheetId i st)
    | DataChange d => Some (handleDataChange d st)
    | ImportData d m => Some (handleImportData d m st)
    end.

(** A registry as the data model has it: at least one sheet, and sheet
    ids that are unique. *)
Definition wellFormed (st : State) : Prop :=
  1 <= length (sheets st) /\ NoDup (map id (sheets st)).

(** The registries the application can be in: the default one, created
    when nothing is stored, and what the operations make of it. *)
Inductive reachable : State -> Prop :=
| reachable_default : reachable (commit (mkState [] EmptyString))
| reachable_step (op : Op) (st st' : State) :
    reachable st -> step op st = Some st' -> reachable st'.

End App.

(** ** The tab of a sheet (SheetTab.tsx) *)

Module SheetTab.

(** [handleSave]: the name passed to [onRename], which is [renameSheet]
    for the sheet of the tab. *)
Definition handleSave (tempName : string) (sheet : App.Sheet) : string :=
  if JS.truthy (JS.trim tempName) then JS.trim tempName else App.name sheet.

End SheetTab.

(** ** The import dialog (ImportModal.tsx) *)

Module ImportModal.

(** [row.some(cell => cell && cell.trim())]. *)
Definition hasContent (row : list string) : bool :=
  existsb (fun cell => JS.nonBlank (Some cell)) row.

(** The [complete] callback of [handleFileUpload]: [data] is the array
    of arrays that the CSV parser returns.  The result is the message
    passed to [setError] or the table passed to [setCsvData]. *)
Definition complete (data : list (list string)) : string + TableData :=
  match data with
  | [] => inl "The CSV file appears to be empty."%string
  | headers :: rest =>
      let rows := List.filter hasContent rest in
      if length headers =? 0
      then inl "No headers found in the CSV file."%string
      else inr (mkTableData headers rows)
  end.

End ImportModal.

(** Sample registries. *)
Definition sheet_of (i : string) : App.Sheet :=
  App.mkSheet i (String.append "Sheet " i) None.

Definition three_sheets : App.State :=
  App.mkState [sheet_of "1"; sheet_of "2"; sheet_of "3"] "2".

Definition one_sheet : App.State := App.mkState [sheet_of "1"] "1".

(** ** The structural operations on the table of the active sheet

    Each operation is a handler of DataTable.tsx followed by [commit];
    apply-score is [handleApplyScoreToData] of the scoring modal, whose
    [onDataChange] replaces the [data] prop of the table, and which
    leaves the table as it is when it returns early or throws. *)
Inductive GridOp :=
| AddColumn
| InsertColumnLeft (columnIndex : nat)
| InsertColumnRight (columnIndex : nat)
| DeleteColumn (columnIndex : nat)
| AddRow
| DeleteSelectedRows
| DragEnd (active : string) (over : option string)
| SortColumn (columnIndex : nat) (dir : direction)
| CellChange (rowIndex colIndex : nat) (value : string)
| HeaderChange (colIndex : nat) (value : string)
| ApplyScore (config : LeadScoringModal.State).

Definition gridStep (op : GridOp) (v : DataTable.View) : option DataTable.View :=
  match op with
  | AddColumn => Some (DataTable.commit v (DataTable.addColumn v))
  | InsertColumnLeft i => Some (DataTable.commit v (DataTable.insertColumnLeft i v))
  | InsertColumnRight i => Some (DataTable.commit v (DataTable.insertColumnRight i v))
  | DeleteColumn i => Some (DataTable.commit v (DataTable.deleteColumn i v))
  | AddRow => Some (DataTable.commit v (DataTable.addRow v))
  | DeleteSelectedRows => Some (DataTable.commit v (DataTable.deleteSelectedRows v))
  | DragEnd active over => DataTable.commit v <$> DataTable.handleDragEnd active over v
  | SortColumn i dir => Some (DataTable.commit v (DataTable.sortColumn i dir v))
  | CellChange r c x => DataTable.commit v <$> DataTable.handleCellChange r c x v
  | HeaderChange c x => DataTable.commit v <$> DataTable.handleHeaderChange c x v
  | ApplyScore config =>
      Some (DataTable.commit v
              (DataTable.mkUpdate (DataTable.local v)
                 (LeadScoringModal.handleApplyScoreToData (DataTable.data v) config)))
  end.

(** What the rendered table can issue: a drag goes from a header to a
    header, a cell editor exists for the cells of the rows, a header
    editor for the headers. *)
Definition issuable (op : GridOp) (v : DataTable.View) : Prop :=
  match op with
  | DragEnd active over =>
      active ∈ headers (DataTable.data v)
      /\ forall over_id, over = Some over_id -> over_id ∈ headers (DataTable.data v)
  | CellChange r c _ =>
      exists row, rows (DataTable.data v) !! r = Some row /\ c < length row
  | HeaderChange c _ => c < length (headers (DataTable.data v))
  | _ => True
  end.

(** The invariant of the grid: I2, and one width per header. *)
Definition gridInvariant (v : DataTable.View) : Prop :=
  rectangular (DataTable.data v) /\ widths_aligned v.

(** Running a sequence of operations. *)
Fixpoint gridRun (ops : list GridOp) (v : DataTable.View) : option DataTable.View :=
  match ops with
  | [] => Some v
  | op :: ops' => gridStep op v ≫= gridRun ops'
  end.

(** Every operation of the sequence is issuable where it is issued. *)
Fixpoint issuableRun (ops : list GridOp) (v : DataTable.View) : Prop :=
  match ops with
  | [] => True
  | op :: ops' =>
      issuable op v
      /\ forall v', gridStep op v = Some v' -> issuableRun ops' v'
  end.

(** The scenario of the specification: the import of
    "Name,Size / Acme,Large / Beta,Small". *)
Definition scenario_view : DataTable.View :=
  DataTable.mkView
    (mkTableData ["Name"; "Size"] [["Acme"; "Large"]; ["Beta"; "Small"]])
    (DataTable.mkLocal [150%Z; 150%Z] ∅ None).

(** Two included columns "A" and "B" with weights [cw] and [100 - cw],
    the values "X" and "Y" being assigned the weights [a] and [b]. *)
Definition two_column_config (cw a b : Z) : LeadScoringModal.State :=
  LeadScoringModal.mkState
    {[ "A" := cw; "B" := (100 - cw)%Z ]}
    {[ "A" := {[ "X" := a ]}; "B" := {[ "Y" := b ]} ]}
    ["A"; "B"] EmptyString EmptyString LeadScoringModal.Normal.

(** The binary64 score is the binary64 number of the exact score: the
    same multiple of 1/100, [NaN] where that is [NaN], and the one throws
    where the other does. *)
Definition binary64_agrees (data : TableData) (st : LeadScoringModal.State)
    (row : list string) : bool :=
  match LeadScoringModal.calculateRowScoreIn JS.binary64 data st row,
        LeadScoringModal.calculateRowScore data st row with
  | Some x, Some (JS.Rational q) =>
      PrimFloat.eqb x
        (PrimFloat.div (JS.float_of_Z (Qfloor (q * 100))) 100%float)
  | Some x, Some JS.NotANumber => PrimFloat.is_nan x
  | None, None => true
  | _, _ => false
  end.

(** ** Auxiliary definitions of the further properties *)

(** No column is narrower than 100 pixels. *)
Definition minWidths (l : DataTable.LocalState) : Prop :=
  Forall (fun w => (100 <= w)%Z) (DataTable.columnWidths l).

(** Every selected index is the index of a row. *)
Definition selectionInRange (v : DataTable.View) : Prop :=
  forall i, i ∈ DataTable.selectedRows (DataTable.local v) ->
            i < length (rows (DataTable.data v)).

(** The ids that read as numbers are below 2^53 in absolute value,
    where the arithmetic of the ids is exact. *)
Definition exactIds (st : App.State) : Prop :=
  forall s z,
    s ∈ App.sheets st -> JS.parseInt (App.id s) = Some z ->
    (Z.abs z < 2 ^ 53)%Z.

(** The active id is the id of a sheet. *)
Definition activeExists (st : App.State) : Prop :=
  App.activeSheetId st ∈ map App.id (App.sheets st).

(** What the tab bar can issue: a tab exists for the sheets only. *)
Definition registryIssuable (op : App.Op) (st : App.State) : Prop :=
  match op with
  | App.SelectSheet i => i ∈ map App.id (App.sheets st)
  | _ => True
  end.

(** The cell at a row and a column, [undefined] outside the table. *)
Definition cellAt (d : TableData) (rowIndex colIndex : nat) : option string :=
  rows d !! rowIndex ≫= (.!! colIndex).

(** * Properties *)

(** ** Refusal of [deleteColumn] on the last column *)

Section DeleteColumn.
Import DataTable.

Lemma commit_no_data v l : commit v (mkUpdate l None) = mkView (data v) l.
Proof. reflexivity. Qed.

Lemma view_eta v : mkView (data v) (local v) = v.
Proof. now destruct v. Qed.

(** C7: on a table with exactly one column, [deleteColumn] changes
    nothing, whatever the index: the headers, every row, the widths and
    the rest of the view are the ones before the call. *)
Theorem deleteColumn_single_column_refused (v : View) (columnIndex : nat) :
  length (headers (data v)) = 1 ->
  commit v (deleteColumn columnIndex v) = v
  /\ headers (data (commit v (deleteColumn columnIndex v))) = headers (data v)
  /\ rows (data (commit v (deleteColumn columnIndex v))) = rows (data v)
  /\ columnWidths (local (commit v (deleteColumn columnIndex v)))
     = columnWidths (local v).
Proof.
  intros Hone.
  assert (Hsame : commit v (deleteColumn columnIndex v) = v).
  { unfold deleteColumn. rewrite Hone. simpl.
    rewrite commit_no_data. apply view_eta. }
  rewrite Hsame. auto.
Qed.

Lemma deleteColumn_single_column_refused_witness :
  commit one_column_view (deleteColumn 0 one_column_view) = one_column_view.
Proof.
  apply (deleteColumn_single_column_refused one_column_view 0).
  reflexivity.
Defined.

End DeleteColumn.

(** ** Select-all *)

Section SelectAll.
Import DataTable.

Lemma imap_index_seq {A} (l : list A) (k : nat) :
  imap (fun index _ => k + index) l = seq k (length l).
Proof.
  revert k. induction l as [|x l IH]; intros k; simpl; [reflexivity|].
  rewrite Nat.add_0_r. f_equal.
  rewrite <- (IH (S k)). apply imap_ext. intros i y _. simpl. lia.
Qed.

Lemma elem_of_all_rows {A} (l : list A) (i : nat) :
  i ∈ (list_to_set (imap (fun index _ => index) l) : gset nat)
  <-> i < length l.
Proof.
  rewrite elem_of_list_to_set.
  change (fun (index : nat) (_ : A) => index)
    with (fun (index : nat) (_ : A) => 0 + index).
  rewrite imap_index_seq, elem_of_seq. lia.
Qed.

Lemma selectAllRows_when_full (v : View) :
  size (selectedRows (local v)) = length (rows (data v)) ->
  selectedRows (local (commit v (selectAllRows v))) = ∅.
Proof.
  intros Hsz. unfold selectAllRows.
  destruct (decide _) as [_|Hne]; [reflexivity | contradiction].
Qed.

Lemma selectAllRows_when_not_full (v : View) :
  size (selectedRows (local v)) <> length (rows (data v)) ->
  selectedRows (local (commit v (selectAllRows v)))
  = list_to_set (imap (fun index _ => index) (rows (data v))).
Proof.
  intros Hsz. unfold selectAllRows.
  destruct (decide _) as [He|_]; [contradiction | reflexivity].
Qed.

Lemma selectAllRows_data (v : View) :
  data (commit v (selectAllRows v)) = data v.
Proof. unfold selectAllRows. destruct (decide _); reflexivity. Qed.

(** C8: when the selection has as many elements as the table has rows,
    select-all empties it; otherwise select-all produces exactly the
    indices [0 .. rows.length - 1]. *)
Theorem selectAllRows_all_or_nothing (v : View) :
  let v' := commit v (selectAllRows v) in
  (size (selectedRows (local v)) = length (rows (data v)) ->
     selectedRows (local v') = ∅)
  /\ (size (selectedRows (local v)) <> length (rows (data v)) ->
     forall i, i ∈ selectedRows (local v') <-> i < length (rows (data v))).
Proof.
  simpl. split; intros Hsz.
  - now apply selectAllRows_when_full.
  - intros i. rewrite selectAllRows_when_not_full by assumption.
    apply elem_of_all_rows.
Qed.

Lemma selectAllRows_all_or_nothing_witness :
  selectedRows (local (commit two_rows_all_selected
                         (selectAllRows two_rows_all_selected))) = ∅.
Proof.
  apply (proj1 (selectAllRows_all_or_nothing two_rows_all_selected)).
  vm_compute. reflexivity.
Defined.

(** P7, first half: select-all on an empty selection followed by
    select-all again gives the empty selection. *)
Lemma selectAllRows_twice (v : View) :
  selectedRows (local v) = ∅ ->
  selectedRows
    (local (commit (commit v (selectAllRows v))
              (selectAllRows (commit v (selectAllRows v))))) = ∅.
Proof.
  intros Hempty. apply selectAllRows_when_full. rewrite selectAllRows_data.
  destruct (decide (size (selectedRows (local v)) = length (rows (data v))))
    as [He|Hne].
  - rewrite (selectAllRows_when_full v He). rewrite Hempty in He.
    rewrite <- He. apply size_empty.
  - rewrite (selectAllRows_when_not_full v Hne).
    rewrite size_list_to_set.
    + now rewrite length_imap.
    + change (fun (index : nat) (_ : list string) => index)
        with (fun (index : nat) (_ : list string) => 0 + index).
      rewrite imap_index_seq. apply NoDup_seq.
Qed.

(** P7, second half: deleting the selected rows leaves the selection
    empty, whichever rows were selected. *)
Lemma deleteSelectedRows_clears_selection (v : View) :
  selectedRows (local (commit v (deleteSelectedRows v))) = ∅.
Proof. reflexivity. Qed.

End SelectAll.

(** ** Reordering columns and undoing it *)

Section Reorder.
Import DataTable.

Lemma relativeStart_in_range (len i : nat) :
  i <= len -> JS.relativeStart len (Z.of_nat i) = i.
Proof.
  intros Hi. unfold JS.relativeStart.
  destruct (Z.ltb_spec (Z.of_nat i) 0); [lia|].
  rewrite Nat2Z.id. lia.
Qed.

Lemma arrayMove_in_range {A} (l : list A) (i j : nat) (x : A) :
  l !! i = Some x -> j < length l ->
  arrayMove l (Z.of_nat i) (Z.of_nat j)
  = Some (take j (delete i l) ++ x :: drop j (delete i l)).
Proof.
  intros Hx Hj. pose proof (lookup_lt_Some _ _ _ Hx) as Hi.
  unfold arrayMove.
  destruct (Z.ltb_spec (Z.of_nat j) 0); [lia|].
  rewrite (relativeStart_in_range (length l) i) by lia.
  rewrite Hx. simpl.
  rewrite relativeStart_in_range; [reflexivity|].
  rewrite length_delete by eauto. lia.
Qed.

Lemma arrayMove_length {A} (l l' : list A) (i j : nat) :
  i < length l -> j < length l ->
  arrayMove l (Z.of_nat i) (Z.of_nat j) = Some l' -> length l' = length l.
Proof.
  intros Hi Hj.
  destruct (lookup_lt_is_Some_2 l i Hi) as [x Hx].
  rewrite (arrayMove_in_range l i j x Hx Hj). intros [= <-].
  rewrite length_app. simpl. rewrite length_take, length_drop.
  rewrite length_delete by eauto. lia.
Qed.

(** Moving the element at [i] to [j] and then the element at [j] back to
    [i] gives the array back. *)
Lemma arrayMove_back {A} (l : list A) (i j : nat) (x : A) :
  l !! i = Some x -> j < length l ->
  arrayMove (take j (delete i l) ++ x :: drop j (delete i l))
    (Z.of_nat j) (Z.of_nat i) = Some l.
Proof.
  intros Hx Hj. pose proof (lookup_lt_Some _ _ _ Hx) as Hi.
  assert (Hlen : length (take j (delete i l)) = j).
  { rewrite length_take, length_delete by eauto. lia. }
  set (l' := take j (delete i l) ++ x :: drop j (delete i l)).
  assert (Hx' : l' !! j = Some x).
  { unfold l'. now apply list_lookup_middle. }
  assert (Hlen' : length l' = length l).
  { unfold l'. rewrite length_app. simpl. rewrite Hlen, length_drop.
    rewrite length_delete by eauto. lia. }
  rewrite (arrayMove_in_range l' j i x Hx') by lia.
  assert (Hdel : delete j l' = delete i l).
  { unfold l'. rewrite <- Hlen at 1. rewrite delete_middle.
    apply take_drop. }
  rewrite Hdel, delete_take_drop.
  rewrite take_app_length' by (rewrite length_take; lia).
  rewrite drop_app_length' by (rewrite length_take; lia).
  now rewrite take_drop_middle.
Qed.

Lemma findIndex_from_NoDup (l : list string) (k : Z) (i : nat) (x : string) :
  NoDup l -> l !! i = Some x ->
  JS.findIndex_from (fun header => String.eqb header x) k l = (k + Z.of_nat i)%Z.
Proof.
  intros Hnd. revert k i. induction Hnd as [|y l Hy Hnd IH]; intros k i Hx.
  - discriminate.
  - destruct i as [|i]; simpl in *.
    + injection Hx as ->. rewrite String.eqb_refl. lia.
    + destruct (String.eqb_spec y x) as [->|_].
      * exfalso. apply Hy. now apply list_elem_of_lookup_2 in Hx.
      * rewrite (IH _ _ Hx). lia.
Qed.

Lemma findIndex_NoDup (l : list string) (i : nat) (x : string) :
  NoDup l -> l !! i = Some x ->
  JS.findIndex (fun header => String.eqb header x) l = Z.of_nat i.
Proof. intros. unfold JS.findIndex. now rewrite (findIndex_from_NoDup l 0 i x). Qed.


Lemma moveTo_length {A} (l : list A) (i j : nat) :
  j < length l -> length (moveTo i j l) = length l.
Proof.
  intros Hj. unfold moveTo. destruct (l !! i) as [x|] eqn:Hx; [|reflexivity].
  rewrite length_app. simpl. rewrite length_take, length_drop.
  rewrite length_delete by eauto. lia.
Qed.

Lemma arrayMove_moveTo {A} (l : list A) (i j : nat) :
  i < length l -> j < length l ->
  arrayMove l (Z.of_nat i) (Z.of_nat j) = Some (moveTo i j l).
Proof.
  intros Hi Hj. destruct (lookup_lt_is_Some_2 l i Hi) as [x Hx].
  unfold moveTo. rewrite Hx. now apply arrayMove_in_range.
Qed.

Lemma moveTo_lookup {A} (l : list A) (i j : nat) :
  i < length l -> j < length l -> moveTo i j l !! j = l !! i.
Proof.
  intros Hi Hj. destruct (lookup_lt_is_Some_2 l i Hi) as [x Hx].
  unfold moveTo. rewrite Hx. apply list_lookup_middle.
  rewrite length_take, length_delete by eauto. lia.
Qed.

Lemma moveTo_back {A} (l : list A) (i j : nat) :
  i < length l -> j < length l -> moveTo j i (moveTo i j l) = l.
Proof.
  intros Hi Hj. destruct (lookup_lt_is_Some_2 l i Hi) as [x Hx].
  pose proof (arrayMove_back l i j x Hx Hj) as Hback.
  assert (Hm : moveTo i j l = take j (delete i l) ++ x :: drop j (delete i l)).
  { unfold moveTo. now rewrite Hx. }
  rewrite <- Hm in Hback.
  rewrite arrayMove_moveTo in Hback
    by (rewrite moveTo_length; assumption).
  now injection Hback.
Qed.

Lemma moveTo_Permutation {A} (l : list A) (i j : nat) :
  moveTo i j l ≡ₚ l.
Proof.
  unfold moveTo. destruct (l !! i) as [x|] eqn:Hx; [|reflexivity].
  rewrite <- Permutation_middle, take_drop.
  symmetry. now apply delete_Permutation.
Qed.

Lemma mapM_pointwise {A B} (f : A -> option B) (g : A -> B) (l : list A) :
  Forall (fun x => f x = Some (g x)) l -> mapM f l = Some (map g l).
Proof.
  intros Hall. apply mapM_Some_2.
  induction Hall; constructor; auto.
Qed.

(** One drag of the column at [i] onto the column at [j], for distinct
    headers: the three arrays are moved in lock-step. *)
Lemma moveColumn_moveTo (v : View) (i j : nat) :
  NoDup (headers (data v)) -> rectangular (data v) -> widths_aligned v ->
  i < length (headers (data v)) -> j < length (headers (data v)) -> i <> j ->
  moveColumn i j v
  = Some (mkView
            (mkTableData (moveTo i j (headers (data v)))
               (map (moveTo i j) (rows (data v))))
            (setSelectedRows ∅
               (setColumnWidths (moveTo i j (columnWidths (local v)))
                  (local v)))).
Proof.
  intros Hnd Hrect Hw Hi Hj Hij.
  destruct (lookup_lt_is_Some_2 _ i Hi) as [a Ha].
  destruct (lookup_lt_is_Some_2 _ j Hj) as [o Ho].
  unfold moveColumn. rewrite Ha, Ho. simpl.
  unfold handleDragEnd.
  destruct (String.eqb_spec a o) as [->|Hne].
  { exfalso. apply Hij. eapply NoDup_lookup; eauto. }
  simpl.
  rewrite (findIndex_NoDup _ i a Hnd Ha), (findIndex_NoDup _ j o Hnd Ho).
  rewrite (arrayMove_moveTo (headers (data v))) by assumption. simpl.
  rewrite (mapM_pointwise _ (moveTo i j)).
  2:{ eapply Forall_impl; [exact Hrect|]. intros r Hr. simpl in Hr.
      apply arrayMove_moveTo; rewrite Hr; assumption. }
  simpl. unfold widths_aligned in Hw.
  rewrite (arrayMove_moveTo (columnWidths (local v)))
    by (rewrite Hw; assumption).
  simpl.
  unfold commit. simpl.
  rewrite moveTo_length by assumption.
  destruct (decide _) as [_|Hbad]; [reflexivity|contradiction].
Qed.

Lemma moveColumn_same (v : View) (i : nat) :
  i < length (headers (data v)) -> moveColumn i i v = Some v.
Proof.
  intros Hi. destruct (lookup_lt_is_Some_2 _ i Hi) as [a Ha].
  unfold moveColumn. rewrite Ha. simpl. unfold handleDragEnd.
  rewrite String.eqb_refl. simpl. rewrite commit_no_data.
  now rewrite view_eta.
Qed.

(** C6: with pairwise distinct headers and valid indices, [moveColumn from
    to] followed by [moveColumn to from] succeeds and gives back the
    header order, the cells of every row and the column widths. *)
Theorem moveColumn_then_inverse_restores (v : View) (from to : nat) :
  NoDup (headers (data v)) -> rectangular (data v) -> widths_aligned v ->
  from < length (headers (data v)) -> to < length (headers (data v)) ->
  exists v1 v2,
    moveColumn from to v = Some v1
    /\ moveColumn to from v1 = Some v2
    /\ headers (data v2) = headers (data v)
    /\ rows (data v2) = rows (data v)
    /\ columnWidths (local v2) = columnWidths (local v).
Proof.
  intros Hnd Hrect Hw Hfrom Hto.
  destruct (decide (from = to)) as [->|Hne].
  { exists v, v. rewrite moveColumn_same by assumption. auto. }
  rewrite (moveColumn_moveTo v from to) by assumption.
  eexists. eexists. split; [reflexivity|].
  rewrite moveColumn_moveTo; simpl.
  - split; [reflexivity|]. unfold widths_aligned in Hw.
    rewrite !moveTo_back by (rewrite ?Hw; assumption).
    repeat split.
    rewrite map_map. rewrite <- (map_id (rows (data v))) at 2.
    apply map_ext_Forall.
    eapply Forall_impl; [exact Hrect|]. intros r Hr. simpl in Hr.
    apply moveTo_back; rewrite Hr; assumption.
  - now rewrite moveTo_Permutation.
  - unfold rectangular. simpl. rewrite Forall_map.
    eapply Forall_impl; [exact Hrect|]. intros r Hr. simpl in *.
    rewrite !moveTo_length by (rewrite ?Hr; assumption). exact Hr.
  - unfold widths_aligned in *. simpl.
    rewrite !moveTo_length by (rewrite ?Hw; assumption). exact Hw.
  - now rewrite moveTo_length.
  - now rewrite moveTo_length.
  - auto.
Qed.

Lemma moveColumn_then_inverse_restores_witness :
  exists v1 v2,
    moveColumn 0 2 three_column_view = Some v1
    /\ moveColumn 2 0 v1 = Some v2
    /\ headers (data v2) = headers (data three_column_view)
    /\ rows (data v2) = rows (data three_column_view)
    /\ columnWidths (local v2) = columnWidths (local three_column_view).
Proof.
  apply (moveColumn_then_inverse_restores three_column_view 0 2).
  - apply (bool_decide_unpack _). vm_compute. reflexivity.
  - repeat constructor.
  - reflexivity.
  - simpl. lia.
  - simpl. lia.
Defined.

End Reorder.

(** ** Scoring configuration: inclusion and equal weights *)

Section Inclusion.
Import LeadScoringModal.

(** What the callback of the redistribution effect writes for [index]. *)
Let slot (equalWeight remainder : Z) (index : nat) : Z :=
  (equalWeight + (if (index =? 0)%nat then remainder else 0))%Z.

Let put (e r : Z) (m : gmap string Z) (header : string) (index : nat) :=
  JS.put m header (slot e r index).

Lemma put_insert (m : gmap string Z) (key : string) (x : Z) :
  key <> "__proto__"%string -> JS.put m key x = <[key := x]> m.
Proof.
  intros Hne. unfold JS.put.
  destruct (m !! key); [reflexivity|].
  destruct (String.eqb_spec key "__proto__"); [contradiction|reflexivity].
Qed.

Lemma put_other (m : gmap string Z) (key h : string) (x : Z) :
  h <> key -> JS.put m key x !! h = m !! h.
Proof.
  intros Hne. unfold JS.put.
  destruct (m !! key); [now apply lookup_insert_ne|].
  destruct (String.eqb key "__proto__"); [reflexivity|].
  now apply lookup_insert_ne.
Qed.

Lemma put_proto (m : gmap string Z) (x : Z) :
  m !! "__proto__"%string = None -> JS.put m "__proto__" x = m.
Proof. intros Hnone. unfold JS.put. now rewrite Hnone. Qed.

Lemma forEachi_put_notin (e r : Z) (l : list string) (k : nat)
    (m : gmap string Z) (h : string) :
  h ∉ l -> JS.forEachi_from (put e r) k l m !! h = m !! h.
Proof.
  revert k m. induction l as [|x l IH]; intros k m Hnot; simpl; [reflexivity|].
  rewrite IH by set_solver.
  unfold put. apply put_other. set_solver.
Qed.

(** Under [__proto__] the callback stores nothing. *)
Lemma forEachi_put_proto (e r : Z) (l : list string) (k : nat)
    (m : gmap string Z) :
  m !! "__proto__"%string = None ->
  JS.forEachi_from (put e r) k l m !! "__proto__"%string = None.
Proof.
  revert k m. induction l as [|x l IH]; intros k m Hnone; simpl;
    [exact Hnone|].
  apply IH. unfold put.
  destruct (String.eqb_spec x "__proto__") as [->|Hne].
  - now rewrite put_proto.
  - rewrite put_other by congruence. exact Hnone.
Qed.

Lemma forEachi_put_lookup (e r : Z) (l : list string) (k i : nat)
    (m : gmap string Z) (h : string) :
  NoDup l -> l !! i = Some h -> h <> "__proto__"%string ->
  JS.forEachi_from (put e r) k l m !! h = Some (slot e r (k + i)).
Proof.
  intros Hnd. revert k i m.
  induction Hnd as [|x l Hx Hnd IH]; intros k i m Hi Hne; [discriminate|].
  destruct i as [|i]; simpl in *.
  - injection Hi as ->. rewrite forEachi_put_notin by assumption.
    unfold put. rewrite put_insert by assumption.
    rewrite lookup_insert_eq. do 2 f_equal. lia.
  - rewrite (IH (S k) i) by assumption. do 2 f_equal. lia.
Qed.

Lemma map_fold_sum_insert (m : gmap string Z) (h : string) (w : Z) :
  m !! h = None ->
  map_fold (fun _ weight sum => (sum + weight)%Z) 0%Z (<[h:=w]> m)
  = (map_fold (fun _ weight sum => (sum + weight)%Z) 0%Z m + w)%Z.
Proof.
  intros Hnone.
  rewrite map_fold_insert_L; [reflexivity| |assumption].
  intros. lia.
Qed.

Lemma forEachi_put_total (e r : Z) (l : list string) (k : nat)
    (m : gmap string Z) :
  NoDup l -> "__proto__"%string ∉ l ->
  (forall h, h ∈ l -> m !! h = None) -> 0 < k ->
  map_fold (fun _ weight sum => (sum + weight)%Z) 0%Z
    (JS.forEachi_from (put e r) k l m)
  = (map_fold (fun _ weight sum => (sum + weight)%Z) 0%Z m
     + e * Z.of_nat (length l))%Z.
Proof.
  intros Hnd. revert k m.
  induction Hnd as [|x l Hx Hnd IH]; intros k m Hproto Hfresh Hk; simpl.
  - lia.
  - assert (Hne : x <> "__proto__"%string) by set_solver.
    unfold put at 2. rewrite put_insert by assumption.
    rewrite IH; [| set_solver | | lia].
    + rewrite map_fold_sum_insert by (apply Hfresh; set_solver).
      unfold slot. destruct (Nat.eqb_spec k 0); lia.
    + intros h Hh. rewrite lookup_insert_ne by set_solver.
      apply Hfresh. set_solver.
Qed.

Lemma equalWeights_lookup (cols : list string) (i : nat) (h : string) :
  NoDup cols -> cols !! i = Some h -> h <> "__proto__"%string ->
  equalWeights cols !! h
  = Some (100 / Z.of_nat (length cols)
          + (if (i =? 0)%nat
             then 100 - 100 / Z.of_nat (length cols) * Z.of_nat (length cols)
             else 0))%Z.
Proof.
  intros Hnd Hi Hne. unfold equalWeights, JS.forEachi.
  exact (forEachi_put_lookup _ _ cols 0 i ∅ h Hnd Hi Hne).
Qed.

Lemma equalWeights_notin (cols : list string) (h : string) :
  h ∉ cols -> equalWeights cols !! h = None.
Proof.
  intros Hnot. unfold equalWeights, JS.forEachi.
  exact (forEachi_put_notin _ _ cols 0 ∅ h Hnot).
Qed.

Lemma equalWeights_proto (cols : list string) :
  equalWeights cols !! "__proto__"%string = None.
Proof.
  unfold equalWeights, JS.forEachi.
  exact (forEachi_put_proto _ _ cols 0 ∅ (lookup_empty _)).
Qed.

Lemma equalWeights_total (cols : list string) :
  NoDup cols -> "__proto__"%string ∉ cols -> 1 <= length cols ->
  map_fold (fun _ weight sum => (sum + weight)%Z) 0%Z (equalWeights cols) = 100%Z.
Proof.
  intros Hnd Hproto Hn. destruct cols as [|h cols]; [simpl in Hn; lia|].
  apply NoDup_cons in Hnd as [Hh Hnd].
  assert (Hne : h <> "__proto__"%string) by set_solver.
  unfold equalWeights, JS.forEachi.
  set (e := (100 / Z.of_nat (length (h :: cols)))%Z).
  set (r := (100 - e * Z.of_nat (length (h :: cols)))%Z).
  change (map_fold (fun _ weight sum => (sum + weight)%Z) 0%Z
            (JS.forEachi_from (put e r) 1 cols (put e r ∅ h 0)) = 100%Z).
  unfold put at 2. rewrite put_insert by assumption.
  rewrite forEachi_put_total; [|assumption|set_solver| |lia].
  - rewrite map_fold_sum_insert by apply lookup_empty.
    rewrite map_fold_empty. unfold slot, r. simpl length. simpl Nat.eqb.
    cbv iota. lia.
  - intros h' Hh'. rewrite lookup_insert_ne by set_solver.
    apply lookup_empty.
Qed.

(** With [__proto__] in the list, one share is missing from the total. *)
Lemma forEachi_put_total_proto (e r : Z) (l : list string) (k : nat)
    (m : gmap string Z) :
  NoDup l -> "__proto__"%string ∈ l -> m !! "__proto__"%string = None ->
  (forall h, h ∈ l -> m !! h = None) -> 0 < k ->
  map_fold (fun _ weight sum => (sum + weight)%Z) 0%Z
    (JS.forEachi_from (put e r) k l m)
  = (map_fold (fun _ weight sum => (sum + weight)%Z) 0%Z m
     + e * (Z.of_nat (length l) - 1))%Z.
Proof.
  intros Hnd. revert k m.
  induction Hnd as [|x l Hx Hnd IH]; intros k m Hin Hproto Hfresh Hk.
  - now apply elem_of_nil in Hin.
  - simpl. destruct (String.eqb_spec x "__proto__") as [->|Hne].
    + unfold put at 2. rewrite put_proto by assumption.
      rewrite forEachi_put_total; [lia|assumption|assumption| |lia].
      intros h Hh. apply Hfresh. now right.
    + apply elem_of_cons in Hin as [Hin|Hin]; [congruence|].
      unfold put at 2. rewrite put_insert by assumption.
      rewrite IH; [|assumption| | |lia].
      * rewrite map_fold_sum_insert by (apply Hfresh; now left).
        unfold slot. destruct (Nat.eqb_spec k 0); lia.
      * rewrite lookup_insert_ne by congruence. exact Hproto.
      * intros h Hh. rewrite lookup_insert_ne by set_solver.
        apply Hfresh. now right.
Qed.

Lemma equalWeights_total_proto (cols : list string) :
  NoDup cols -> "__proto__"%string ∈ cols -> 1 <= length cols <= 100 ->
  (map_fold (fun _ weight sum => (sum + weight)%Z) 0%Z (equalWeights cols)
   < 100)%Z.
Proof.
  intros Hnd Hin Hn. destruct cols as [|h cols]; [simpl in Hn; lia|].
  apply NoDup_cons in Hnd as [Hh Hnd].
  unfold equalWeights, JS.forEachi.
  set (n := Z.of_nat (length (h :: cols))).
  assert (Hn' : (1 <= n <= 100)%Z) by (unfold n; lia).
  assert (Hlen : Z.of_nat (length cols) = (n - 1)%Z)
    by (unfold n; simpl length; lia).
  set (e := (100 / n)%Z).
  assert (He : (1 <= e /\ e * n <= 100)%Z).
  { unfold e. split.
    - apply Z.div_le_lower_bound; lia.
    - rewrite Z.mul_comm. apply Z.mul_div_le. lia. }
  set (r := (100 - e * n)%Z).
  change (map_fold (fun _ weight sum => (sum + weight)%Z) 0%Z
            (JS.forEachi_from (put e r) 1 cols (put e r ∅ h 0)) < 100)%Z.
  unfold put at 2. destruct (String.eqb_spec h "__proto__") as [->|Hne].
  - rewrite put_proto by apply lookup_empty.
    rewrite forEachi_put_total; [|assumption|assumption| |lia].
    + rewrite map_fold_empty, Hlen. nia.
    + intros h' _. apply lookup_empty.
  - apply elem_of_cons in Hin as [Hin|Hin]; [congruence|].
    rewrite put_insert by assumption.
    rewrite forEachi_put_total_proto; [|assumption|assumption| | |lia].
    + rewrite map_fold_sum_insert by apply lookup_empty.
      rewrite map_fold_empty, Hlen. unfold slot, r. simpl Nat.eqb.
      cbv iota. nia.
    + rewrite lookup_insert_ne by congruence. apply lookup_empty.
    + intros h' Hh'. rewrite lookup_insert_ne by (intros ->; contradiction).
      apply lookup_empty.
Qed.

(** C3 on the code: an included column with the header [__proto__] gets
    no weight.  When the list of included columns has just changed and
    holds from 1 to 100 distinct headers, [__proto__] among them, the
    effect stores nothing for [__proto__], the weights sum to less than
    100, and the configuration is not valid. *)
Theorem included_proto_gets_no_weight (u : Update) :
  let cols := includedColumns (u_state u) in
  u_included u = true -> NoDup cols -> 1 <= length cols <= 100 ->
  "__proto__"%string ∈ cols ->
  includedColumns (commit u) = cols
  /\ weights (commit u) !! "__proto__"%string = None
  /\ (totalWeight (commit u) < 100)%Z
  /\ isValidWeight (commit u) = false.
Proof.
  intros cols Hfresh Hnd Hn Hin. unfold commit. rewrite Hfresh.
  fold cols. destruct (Nat.ltb_spec 0 (length cols)) as [_|Hbad]; [|lia].
  simpl. split; [reflexivity|]. split; [apply equalWeights_proto|].
  pose proof (equalWeights_total_proto cols Hnd Hin Hn) as Htotal.
  split; [exact Htotal|].
  unfold isValidWeight, totalWeight. simpl.
  destruct (Z.eqb_spec
              (map_fold (fun _ weight sum => (sum + weight)%Z) 0%Z
                 (equalWeights cols)) 100); [lia|reflexivity].
Qed.

(** The redistribution for headers other than [__proto__]: when the list
    of included columns has just changed and holds [n >= 1] distinct
    headers, none of them [__proto__], the effect gives every included
    column the weight [floor(100/n)], the first one getting the
    remainder [100 - floor(100/n)*n] on top, and the weights sum to
    exactly 100 - for every [n >= 1], so for every [n] from 1 to 20. *)
Theorem included_change_gives_equal_weights (u : Update) :
  let cols := includedColumns (u_state u) in
  let n := Z.of_nat (length cols) in
  u_included u = true -> NoDup cols -> 1 <= length cols ->
  "__proto__"%string ∉ cols ->
  includedColumns (commit u) = cols
  /\ (forall i header, cols !! i = Some header ->
        weights (commit u) !! header
        = Some (100 / n + (if (i =? 0)%nat then 100 - 100 / n * n else 0))%Z)
  /\ totalWeight (commit u) = 100%Z.
Proof.
  intros cols n Hfresh Hnd Hn Hproto. unfold commit. rewrite Hfresh.
  fold cols. destruct (Nat.ltb_spec 0 (length cols)) as [_|Hbad]; [|lia].
  simpl. split; [reflexivity|]. split.
  - intros i header Hi. apply equalWeights_lookup; [assumption..|].
    intros ->. apply Hproto. now apply list_elem_of_lookup_2 in Hi.
  - unfold totalWeight. simpl. now apply equalWeights_total.
Qed.

Lemma addColumn_changes_included (header : string) (st : State) :
  header ∉ includedColumns st ->
  u_included (addColumn header st) = true
  /\ includedColumns (u_state (addColumn header st))
     = includedColumns st ++ [header].
Proof.
  intros Hnot. unfold addColumn.
  rewrite bool_decide_eq_false_2 by assumption. simpl. auto.
Qed.

Lemma removeColumn_changes_included (header : string) (st : State) :
  u_included (removeColumn header st) = true
  /\ includedColumns (u_state (removeColumn header st))
     = List.filter (fun col => negb (String.eqb col header)) (includedColumns st).
Proof.
  unfold removeColumn. simpl. split; [reflexivity|].
  destruct (String.eqb _ _); reflexivity.
Qed.

End Inclusion.

Section InclusionFacts.
Import LeadScoringModal.

Lemma included_change_gives_equal_weights_witness :
  weights (commit (addColumn "C" p6_config)) !! "A"%string = Some 34%Z
  /\ totalWeight (commit (addColumn "C" p6_config)) = 100%Z.
Proof.
  destruct (included_change_gives_equal_weights (addColumn "C" p6_config))
    as (_ & Hw & Htotal).
  - reflexivity.
  - apply (bool_decide_unpack _). vm_compute. reflexivity.
  - simpl. lia.
  - apply (bool_decide_unpack _). vm_compute. reflexivity.
  - split; [exact (Hw 0 "A"%string eq_refl) | exact Htotal].
Defined.

(** Including the column [__proto__] alone, and next to "A" and "B". *)
Lemma included_proto_gets_no_weight_witness :
  weights (commit (addColumn "__proto__" opened_config)) = ∅
  /\ totalWeight (commit (addColumn "__proto__" opened_config)) = 0%Z
  /\ totalWeight (commit (addColumn "__proto__" p6_config)) = 67%Z
  /\ isValidWeight (commit (addColumn "__proto__" p6_config)) = false.
Proof.
  split; [vm_compute; reflexivity|]. split; [vm_compute; reflexivity|].
  split; [vm_compute; reflexivity|].
  apply (included_proto_gets_no_weight (addColumn "__proto__" p6_config)).
  - reflexivity.
  - apply (bool_decide_unpack _). vm_compute. reflexivity.
  - simpl. lia.
  - apply (bool_decide_unpack _). vm_compute. reflexivity.
Defined.

(** The claim C2 read on the code fails: after [removeColumn "A"] the
    per-value weights of "A" are still in the configuration. *)
Lemma removeColumn_value_weights_counterexample :
  subcategoryWeights (commit (removeColumn "A" p6_config)) !! "A"%string
  = Some {[ "X"%string := 100%Z ]}
  /\ ~ (weights (commit (removeColumn "A" p6_config)) !! "A"%string = None
        /\ subcategoryWeights (commit (removeColumn "A" p6_config)) !! "A"%string
           = None).
Proof.
  assert (H : subcategoryWeights (commit (removeColumn "A" p6_config)) !! "A"%string
              = Some {[ "X"%string := 100%Z ]}).
  { vm_compute. reflexivity. }
  split; [exact H|]. intros [_ Hnone]. rewrite H in Hnone. discriminate.
Qed.

Lemma commit_subcategoryWeights (u : Update) :
  subcategoryWeights (commit u) = subcategoryWeights (u_state u).
Proof. unfold commit. destruct (_ && _); reflexivity. Qed.

Lemma commit_includedColumns (u : Update) :
  includedColumns (commit u) = includedColumns (u_state u).
Proof. unfold commit. destruct (_ && _); reflexivity. Qed.

Lemma elem_of_filter_ne (header h : string) (cols : list string) :
  h ∈ List.filter (fun col => negb (String.eqb col header)) cols
  <-> h ∈ cols /\ h <> header.
Proof.
  rewrite !list_elem_of_In, List.filter_In.
  destruct (String.eqb_spec h header); simpl; intuition congruence.
Qed.

(** C2, amended: removing a header takes it out of the included columns
    and deletes its column weight; the per-value weights of the
    configuration, those of the removed header included, stay as they
    were. *)
Theorem removeColumn_deletes_weight_keeps_value_weights
    (header : string) (st : State) :
  let st' := commit (removeColumn header st) in
  (header ∉ includedColumns st')
  /\ (forall h, h ∈ includedColumns st' <-> h ∈ includedColumns st /\ h <> header)
  /\ weights st' !! header = None
  /\ subcategoryWeights st' = subcategoryWeights st.
Proof.
  simpl.
  destruct (removeColumn_changes_included header st) as [Hfresh Hcols].
  assert (Hnot : header ∉ includedColumns (u_state (removeColumn header st))).
  { rewrite Hcols, elem_of_filter_ne. tauto. }
  rewrite commit_includedColumns, commit_subcategoryWeights.
  split; [exact Hnot|]. split; [|split].
  - intros h. rewrite Hcols. apply elem_of_filter_ne.
  - unfold commit. rewrite Hfresh. simpl andb.
    destruct (0 <? _).
    + simpl. now apply equalWeights_notin.
    + unfold removeColumn. simpl.
      destruct (String.eqb _ _); simpl; apply lookup_delete_eq.
  - unfold removeColumn. simpl. destruct (String.eqb _ _); reflexivity.
Qed.

(** The handlers keep the included headers distinct, as the data model
    has them. *)
Lemma addColumn_NoDup (header : string) (st : State) :
  NoDup (includedColumns st) ->
  NoDup (includedColumns (commit (addColumn header st))).
Proof.
  intros Hnd. rewrite commit_includedColumns. unfold addColumn.
  destruct (bool_decide_reflect (header ∈ includedColumns st)) as [Hin|Hnot];
    simpl; [exact Hnd|].
  apply NoDup_app. split; [exact Hnd|]. split; [|apply NoDup_singleton].
  intros x Hx Hx'. apply list_elem_of_singleton in Hx' as ->. contradiction.
Qed.

Lemma removeColumn_NoDup (header : string) (st : State) :
  NoDup (includedColumns st) ->
  NoDup (includedColumns (commit (removeColumn header st))).
Proof.
  intros Hnd. rewrite commit_includedColumns.
  destruct (removeColumn_changes_included header st) as [_ ->].
  apply NoDup_ListNoDup, List.NoDup_filter, NoDup_ListNoDup, Hnd.
Qed.

End InclusionFacts.

(** ** The row score *)

Section RowScore.
Import LeadScoringModal.

Variable data : TableData.
Variable st : State.
Variable row : list string.

(** What [scoreColumn] adds for a column, read off the code: the default
    of 50 replaces a missing weight and also an assigned weight of 0. *)
Let added (columnName : string) : Q :=
  match cellOf data row columnName with
  | Some value =>
      if JS.nonBlank (Some value)
      then (inject_Z (columnWeightOf st columnName) / 100
            * inject_Z (JS.orNum (assignedWeight st columnName value) 50))%Q
      else 0%Q
  | None => 0%Q
  end.

Lemma orNum_zero_default (x : option Z) : JS.orNum x 0 = default 0%Z x.
Proof. destruct x as [[| |]|]; reflexivity. Qed.

Lemma get_own {A} (obj : gmap string A) (key : string) :
  JS.get obj key <> JS.Inherited ->
  JS.get obj key = match obj !! key with
                   | Some a => JS.Own a
                   | None => JS.Undefined
                   end.
Proof.
  unfold JS.get. destruct (obj !! key); [reflexivity|].
  destruct (bool_decide _); [congruence|reflexivity].
Qed.

(** Reads that stay in the dictionaries are the lookups of the finite
    maps. *)
Lemma columnWeightRead_own (columnName : string) :
  JS.get (weights st) columnName <> JS.Inherited ->
  columnWeightRead st columnName
  = JS.IsNumber (JS.orNum (weights st !! columnName) 0).
Proof.
  intros Hown. unfold columnWeightRead. rewrite get_own by assumption.
  destruct (weights st !! columnName); reflexivity.
Qed.

Lemma subcategoryWeightRead_own (columnName value : string) :
  JS.get (subcategoryWeights st) columnName <> JS.Inherited ->
  (forall forColumn,
      subcategoryWeights st !! columnName = Some forColumn ->
      JS.get forColumn value <> JS.Inherited) ->
  subcategoryWeightRead st columnName value
  = Some (JS.IsNumber (JS.orNum (assignedWeight st columnName value) 50)).
Proof.
  intros Hown Hvalue. unfold subcategoryWeightRead, assignedWeight.
  rewrite get_own by assumption.
  destruct (subcategoryWeights st !! columnName) as [forColumn|];
    [|reflexivity].
  simpl. rewrite get_own by now apply Hvalue.
  destruct (forColumn !! value); reflexivity.
Qed.

Lemma scoreColumn_added (totalScore : Q) (columnName : string) :
  (forall value,
      cellOf data row columnName = Some value ->
      JS.nonBlank (Some value) = true ->
      JS.get (weights st) columnName <> JS.Inherited
      /\ JS.get (subcategoryWeights st) columnName <> JS.Inherited
      /\ forall forColumn,
           subcategoryWeights st !! columnName = Some forColumn ->
           JS.get forColumn value <> JS.Inherited) ->
  exists t,
    scoreColumn data st row (JS.Rational totalScore) columnName
    = Some (JS.Rational t)
    /\ (t == totalScore + added columnName)%Q.
Proof.
  unfold scoreColumn, scoreColumnIn, added, cellOf. intros Hown.
  destruct (_ =? -1)%Z; [exists totalScore; split; [reflexivity|ring]|].
  destruct (row !! _) as [value|];
    [|exists totalScore; split; [reflexivity|ring]].
  destruct (JS.nonBlank (Some value)) eqn:Hnb;
    [|exists totalScore; split; [reflexivity|ring]].
  destruct (Hown value eq_refl Hnb) as (Hw & Hs & Hv).
  rewrite columnWeightRead_own, subcategoryWeightRead_own by assumption.
  simpl. eexists. split; [reflexivity|].
  rewrite orNum_zero_default. reflexivity.
Qed.

Lemma fold_scoreColumn (cols : list string) (totalScore : Q) :
  (forall c, c ∈ cols -> c ∈ includedColumns st) ->
  ownReads data st row ->
  exists t,
    fold_left
      (fun totalScore columnName =>
         totalScore ≫= fun t => scoreColumn data st row t columnName)
      cols (Some (JS.Rational totalScore))
    = Some (JS.Rational t)
    /\ (t == totalScore + Qsum (map added cols))%Q.
Proof.
  intros Hcols Hown. revert totalScore Hcols.
  induction cols as [|c cols IH]; intros totalScore Hcols; simpl.
  - exists totalScore. split; [reflexivity|ring].
  - destruct (scoreColumn_added totalScore c) as (t1 & -> & Ht1).
    { intros value Hcell Hnb. apply Hown; [|assumption..].
      apply Hcols. now left. }
    destruct (IH t1) as (t & -> & Ht).
    { intros c' Hc'. apply Hcols. now right. }
    exists t. split; [reflexivity|]. rewrite Ht, Ht1. ring.
Qed.

Lemma round2_comp (p q : Q) : (p == q)%Q -> (round2 p == round2 q)%Q.
Proof. intros Heq. unfold round2. now rewrite Heq. Qed.

(** The score is [round2] of the total, and [NaN] or a [TypeError]
    where the total is. *)
Lemma calculateRowScore_round2 :
  calculateRowScore data st row
  = fold_left
      (fun totalScore columnName =>
         totalScore ≫= fun t => scoreColumn data st row t columnName)
      (includedColumns st) (Some (JS.Rational 0))
    ≫= fun totalScore => Some (JS.exact1 round2 totalScore).
Proof.
  unfold calculateRowScore, calculateRowScoreIn, scoreColumn.
  destruct (fold_left _ _ _) as [[t|]|]; reflexivity.
Qed.

(** With reads that stay in the dictionaries, the score is the rounded
    sum of what the columns add. *)
Lemma calculateRowScore_sum :
  ownReads data st row ->
  scoreIs (calculateRowScore data st row)
    (round2 (Qsum (map added (includedColumns st)))).
Proof.
  intros Hown. rewrite calculateRowScore_round2.
  destruct (fold_scoreColumn (includedColumns st) 0) as (t & -> & Ht);
    [auto|assumption|].
  simpl. apply round2_comp. rewrite Ht. ring.
Qed.

(** Where no cell of the row has been assigned the weight 0, and the
    reads stay in the dictionaries, the code computes the score of the
    specification. *)
Lemma calculateRowScore_meets_spec :
  ownReads data st row ->
  (forall columnName value,
      columnName ∈ includedColumns st ->
      cellOf data row columnName = Some value ->
      assignedWeight st columnName value <> Some 0%Z) ->
  scoreIs (calculateRowScore data st row) (score_spec data st row).
Proof.
  intros Hown Hnz. pose proof (calculateRowScore_sum Hown) as Hsum.
  unfold scoreIs in *.
  destruct (calculateRowScore data st row) as [[q|]|]; try contradiction.
  rewrite Hsum. unfold score_spec. apply round2_comp.
  assert (Hall : forall c, c ∈ includedColumns st ->
                   added c = contribution data st row c).
  { intros c Hc. unfold added, contribution.
    destruct (cellOf data row c) as [value|] eqn:Hcell; [|reflexivity].
    destruct (JS.nonBlank _); [|reflexivity].
    unfold valueWeightOf. specialize (Hnz c value Hc Hcell).
    destruct (assignedWeight st c value) as [[| |]|]; try reflexivity.
    congruence. }
  rewrite (map_ext_in added (contribution data st row)); [reflexivity|].
  intros c Hc. apply Hall. now apply list_elem_of_In.
Qed.

Lemma orNum_50_range (x : option Z) :
  (forall w, x = Some w -> (0 <= w <= 100)%Z) -> (0 <= JS.orNum x 50 <= 100)%Z.
Proof.
  intros Hx. destruct x as [w|]; simpl; [|lia].
  specialize (Hx w eq_refl). destruct w; lia.
Qed.

Lemma weighted_term_range (cw ow : Z) :
  (0 <= cw)%Z -> (0 <= ow <= 100)%Z ->
  (0 <= inject_Z cw / 100 * inject_Z ow)%Q
  /\ (inject_Z cw / 100 * inject_Z ow <= inject_Z cw)%Q.
Proof.
  intros Hcw How. unfold Qle, Qdiv, Qmult, Qinv, inject_Z. simpl. nia.
Qed.

Lemma added_range (columnName : string) :
  (0 <= columnWeightOf st columnName)%Z ->
  (forall value w, assignedWeight st columnName value = Some w ->
                   (0 <= w <= 100)%Z) ->
  (0 <= added columnName)%Q
  /\ (added columnName <= inject_Z (columnWeightOf st columnName))%Q.
Proof.
  intros Hcw Hv. unfold added.
  assert (Hzero : (0 <= 0)%Q /\ (0 <= inject_Z (columnWeightOf st columnName))%Q).
  { split; [apply Qle_refl|]. unfold Qle, inject_Z. simpl. lia. }
  destruct (cellOf data row columnName) as [value|]; [|exact Hzero].
  destruct (JS.nonBlank _); [|exact Hzero].
  apply weighted_term_range; [assumption|].
  apply orNum_50_range. apply Hv.
Qed.

Lemma Qsum_added_range (cols : list string) :
  (forall c, c ∈ cols -> (0 <= columnWeightOf st c)%Z) ->
  (forall c value w, assignedWeight st c value = Some w -> (0 <= w <= 100)%Z) ->
  (0 <= Qsum (map added cols))%Q
  /\ (Qsum (map added cols)
      <= inject_Z (foldr Z.add 0%Z (map (columnWeightOf st) cols)))%Q.
Proof.
  intros Hcw Hv. induction cols as [|c cols IH]; simpl.
  - split; apply Qle_refl.
  - destruct IH as [IH0 IH1]; [intros; apply Hcw; now right|].
    destruct (added_range c) as [Ha0 Ha1]; [apply Hcw; now left|apply Hv|].
    split.
    + replace 0%Q with (0 + 0)%Q by reflexivity. now apply Qplus_le_compat.
    + rewrite inject_Z_plus. now apply Qplus_le_compat.
Qed.

Lemma round2_range (q : Q) :
  (0 <= q)%Q -> (q <= 100)%Q -> (0 <= round2 q)%Q /\ (round2 q <= 100)%Q.
Proof.
  intros H0 H100. unfold round2.
  assert (Hlo : (0 <= Qfloor (q * 100 + (1 # 2)))%Z).
  { change 0%Z with (Qfloor 0). apply Qfloor_resp_le.
    unfold Qle in *. destruct q as [n d]. simpl in *. nia. }
  assert (Hhi : (Qfloor (q * 100 + (1 # 2)) <= 10000)%Z).
  { change 10000%Z with (Qfloor (10000 + (1 # 2))). apply Qfloor_resp_le.
    unfold Qle in *. destruct q as [n d]. simpl in *. nia. }
  revert Hlo Hhi. generalize (Qfloor (q * 100 + (1 # 2))). intros f Hlo Hhi.
  unfold Qle, Qdiv, Qmult, Qinv, inject_Z. simpl. lia.
Qed.

Lemma get_not_inherited {A} (obj : gmap string A) (key : string) :
  key ∉ JS.prototypeNames -> JS.get obj key <> JS.Inherited.
Proof.
  intros Hnot. unfold JS.get. destruct (obj !! key); [discriminate|].
  rewrite bool_decide_eq_false_2 by assumption. discriminate.
Qed.

(** The reads stay in the dictionaries when no included header and no
    cell of the row is a name of a member of [Object.prototype]. *)
Lemma ownReads_plain :
  Forall (fun c => c ∉ JS.prototypeNames) (includedColumns st) ->
  Forall (fun x => x ∉ JS.prototypeNames) row ->
  ownReads data st row.
Proof.
  rewrite !Forall_forall. intros Hcols Hrow c value Hc Hcell _.
  assert (Hvalue : value ∈ row).
  { unfold cellOf in Hcell. destruct (_ =? -1)%Z; [discriminate|].
    now apply list_elem_of_lookup_2 in Hcell. }
  split; [apply get_not_inherited; auto|].
  split; [apply get_not_inherited; auto|].
  intros forColumn _. apply get_not_inherited; auto.
Qed.

(** With reads that stay in the dictionaries: when every included column
    weight is in [0,100], the included weights sum to 100 and every
    assigned value weight is in [0,100], the score of the row is a number
    between 0 and 100. *)
Lemma calculateRowScore_between_0_and_100 :
  ownReads data st row ->
  (forall c, c ∈ includedColumns st -> (0 <= columnWeightOf st c <= 100)%Z) ->
  foldr Z.add 0%Z (map (columnWeightOf st) (includedColumns st)) = 100%Z ->
  (forall c value w, assignedWeight st c value = Some w -> (0 <= w <= 100)%Z) ->
  exists q,
    calculateRowScore data st row = Some (JS.Rational q)
    /\ (0 <= q)%Q /\ (q <= 100)%Q.
Proof.
  intros Hown Hcw Hsum Hv. pose proof (calculateRowScore_sum Hown) as Hscore.
  unfold scoreIs in Hscore.
  destruct (calculateRowScore data st row) as [[q|]|]; try contradiction.
  exists q. split; [reflexivity|]. rewrite Hscore.
  destruct (Qsum_added_range (includedColumns st)) as [H0 H1];
    [intros c Hc; apply Hcw, Hc | exact Hv |].
  rewrite Hsum in H1. now apply round2_range.
Qed.

End RowScore.

Section RowScoreFacts.
Import LeadScoringModal.

Lemma calculateRowScore_between_0_and_100_p6 :
  exists q,
    calculateRowScore p6_table p6_config ["X"; "Y"]%string
    = Some (JS.Rational q)
    /\ (0 <= q)%Q /\ (q <= 100)%Q.
Proof.
  apply calculateRowScore_between_0_and_100.
  - apply ownReads_plain; apply (bool_decide_unpack _); vm_compute;
      reflexivity.
  - intros c Hc. apply list_elem_of_In in Hc. simpl in Hc.
    destruct Hc as [<-|[<-|[]]]; vm_compute; split; discriminate.
  - vm_compute. reflexivity.
  - intros c value w. unfold assignedWeight, p6_config. simpl.
    destruct (decide (c = "A"%string)) as [->|Hca].
    + rewrite lookup_insert_eq. simpl.
      destruct (decide (value = "X"%string)) as [->|Hv].
      * rewrite lookup_singleton_eq. intros [= <-]. lia.
      * rewrite lookup_singleton_ne by congruence. discriminate.
    + rewrite lookup_insert_ne by congruence.
      destruct (decide (c = "B"%string)) as [->|Hcb].
      * rewrite lookup_singleton_eq. simpl.
        destruct (decide (value = "Y"%string)) as [->|Hv].
        -- rewrite lookup_singleton_eq. intros [= <-]. lia.
        -- rewrite lookup_singleton_ne by congruence. discriminate.
      * rewrite lookup_singleton_ne by congruence. discriminate.
Qed.

(** C10 on the code: a cell whose text is the name of a member of
    [Object.prototype], in a column that holds an assignment, is scored
    with that member.  The configuration [cold_config] meets what the
    claim asks (the column weight 100 is in [0,100], the weights sum to
    100, the assigned weight 0 is in [0,100]) and can be applied; the row
    [constructor] scores [NaN], in exact and in binary64 arithmetic, and
    applying the score writes [NaN] into the table. *)
Theorem calculateRowScore_inherited_value_is_NaN :
  (forall c, c ∈ includedColumns cold_config ->
             (0 <= columnWeightOf cold_config c <= 100)%Z)
  /\ foldr Z.add 0%Z
       (map (columnWeightOf cold_config) (includedColumns cold_config))
     = 100%Z
  /\ (forall c value w, assignedWeight cold_config c value = Some w ->
                        (0 <= w <= 100)%Z)
  /\ isValidWeight cold_config = true
  /\ calculateRowScore cold_table cold_config ["constructor"%string]
     = Some JS.NotANumber
  /\ (exists x,
        calculateRowScoreIn JS.binary64 cold_table cold_config
          ["constructor"%string] = Some x
        /\ PrimFloat.is_nan x = true)
  /\ handleApplyScoreToData (mkTableData ["Segment"] [["constructor"]])
       cold_config
     = Some (mkTableData ["Segment"; "Lead Score"] [["constructor"; "NaN"]])%string
  /\ ~ (exists q,
          calculateRowScore cold_table cold_config ["constructor"%string]
          = Some (JS.Rational q)
          /\ (0 <= q)%Q /\ (q <= 100)%Q).
Proof.
  split; [|split; [|split; [|split; [|split; [|split; [|split]]]]]].
  - intros c Hc. apply list_elem_of_In in Hc. simpl in Hc.
    destruct Hc as [<-|[]]. vm_compute. split; discriminate.
  - vm_compute. reflexivity.
  - intros c value w. unfold assignedWeight, cold_config. simpl.
    destruct (decide (c = "Segment"%string)) as [->|Hc].
    + rewrite lookup_singleton_eq. simpl.
      destruct (decide (value = "Cold"%string)) as [->|Hv].
      * rewrite lookup_singleton_eq. intros [= <-]. lia.
      * rewrite lookup_singleton_ne by congruence. discriminate.
    + rewrite lookup_singleton_ne by congruence. discriminate.
  - vm_compute. reflexivity.
  - vm_compute. reflexivity.
  - eexists. split; vm_compute; reflexivity.
  - vm_compute. reflexivity.
  - intros (q & Hq & _).
    assert (Hnan : calculateRowScore cold_table cold_config
                     ["constructor"%string] = Some JS.NotANumber)
      by (vm_compute; reflexivity).
    rewrite Hnan in Hq. discriminate.
Qed.

(** P6 of the specification: weights 60 and 40, value weights 100 and 50,
    row [X, Y]: the score is 80, in the code and in the specification. *)
Lemma calculateRowScore_p6 :
  scoreIs (calculateRowScore p6_table p6_config ["X"; "Y"]%string) 80
  /\ (score_spec p6_table p6_config ["X"; "Y"]%string == 80)%Q.
Proof. split; vm_compute; reflexivity. Qed.

(** C1 on the code: a value assigned Not Important (0 points) is scored
    with the default 50.  The configuration is reached by the handlers of
    the modal; with the single included column "Segment" at weight 100 and
    "Cold" assigned 0, the row [Cold] scores 50 in the code and 0 in the
    specification. *)
Theorem calculateRowScore_assigned_zero_scored_as_default :
  cold_clicks = cold_config
  /\ assignedWeight cold_config "Segment" "Cold" = Some 0%Z
  /\ isValidWeight cold_config = true
  /\ scoreIs (calculateRowScore cold_table cold_config ["Cold"%string]) 50
  /\ (exists x,
        calculateRowScoreIn JS.binary64 cold_table cold_config ["Cold"%string]
        = Some x
        /\ PrimFloat.eqb x 50%float = true)
  /\ (score_spec cold_table cold_config ["Cold"%string] == 0)%Q
  /\ ~ scoreIs (calculateRowScore cold_table cold_config ["Cold"%string])
         (score_spec cold_table cold_config ["Cold"%string]).
Proof.
  split; [|split; [|split; [|split; [|split; [|split]]]]];
    try (vm_compute; reflexivity).
  - eexists. split; vm_compute; reflexivity.
  - vm_compute. discriminate.
Qed.

(** The two arithmetics agree on every configuration of two columns
    with integer column weights [cw] and [100 - cw] and value weights
    taken from the importance levels: the binary64 score is the exact
    score, a multiple of 1/100, as a binary64 number. *)
Lemma calculateRowScore_binary64_agrees (cw : Z) (la lb : importance) :
  (0 <= cw <= 100)%Z ->
  binary64_agrees p6_table
    (two_column_config cw (IMPORTANCE_LEVELS la) (IMPORTANCE_LEVELS lb))
    ["X"; "Y"]%string = true.
Proof.
  intros Hcw.
  assert (Hall :
    forallb (fun n =>
      forallb (fun la =>
        forallb (fun lb =>
          binary64_agrees p6_table
            (two_column_config (Z.of_nat n) (IMPORTANCE_LEVELS la)
               (IMPORTANCE_LEVELS lb))
            ["X"; "Y"]%string)
          [VeryImportant; Important; Normal; ALittleImportant; NotImportant])
        [VeryImportant; Important; Normal; ALittleImportant; NotImportant])
      (seq 0 101) = true) by (vm_compute; reflexivity).
  rewrite forallb_forall in Hall.
  specialize (Hall (Z.to_nat cw)). rewrite in_seq in Hall.
  specialize (Hall ltac:(lia)). rewrite Z2Nat.id in Hall by lia.
  rewrite forallb_forall in Hall.
  specialize (Hall la ltac:(destruct la; simpl; tauto)).
  rewrite forallb_forall in Hall.
  apply Hall. destruct lb; simpl; tauto.
Qed.

End RowScoreFacts.

(** ** Stable sorting *)

Section StableSort.
Context {A : Type} (cmp : A -> A -> comparison).
Hypothesis cmp_antisym : forall x y, cmp y x = CompOpp (cmp x y).
Hypothesis cmp_le_trans :
  forall x y z, cmp x y <> Gt -> cmp y z <> Gt -> cmp x z <> Gt.

Lemma insertSorted_Permutation (x : A) (l : list A) :
  JS.insertSorted cmp x l ≡ₚ x :: l.
Proof.
  induction l as [|y l IH]; simpl; [reflexivity|].
  destruct (cmp x y); try reflexivity.
  rewrite IH. apply perm_swap.
Qed.

Lemma sort_Permutation (l : list A) : JS.sort cmp l ≡ₚ l.
Proof.
  induction l as [|x l IH]; simpl; [reflexivity|].
  unfold JS.sort in *. simpl. rewrite insertSorted_Permutation.
  now constructor.
Qed.

Lemma cmp_Gt_flip (x y : A) : cmp x y = Gt -> cmp y x <> Gt.
Proof. intros H. rewrite cmp_antisym, H. discriminate. Qed.

Lemma insertSorted_sorted (x : A) (l : list A) :
  StronglySorted (fun a b => cmp a b <> Gt) l ->
  StronglySorted (fun a b => cmp a b <> Gt) (JS.insertSorted cmp x l).
Proof.
  induction 1 as [|y l Hsorted IH Hy]; simpl.
  - repeat constructor.
  - destruct (cmp x y) eqn:Hxy.
    + constructor; [now constructor|]. constructor; [congruence|].
      eapply Forall_impl; [exact Hy|]. intros z Hz. simpl in Hz.
      apply (cmp_le_trans x y z); congruence.
    + constructor; [now constructor|]. constructor; [congruence|].
      eapply Forall_impl; [exact Hy|]. intros z Hz. simpl in Hz.
      apply (cmp_le_trans x y z); congruence.
    + constructor; [exact IH|].
      rewrite insertSorted_Permutation. constructor; [|exact Hy].
      now apply cmp_Gt_flip.
Qed.

Lemma sort_sorted (l : list A) :
  StronglySorted (fun a b => cmp a b <> Gt) (JS.sort cmp l).
Proof.
  induction l as [|x l IH]; unfold JS.sort in *; simpl.
  - constructor.
  - now apply insertSorted_sorted.
Qed.

Lemma cmp_Eq_Eq (x y z : A) : cmp x y = Eq -> cmp x z = Eq -> cmp y z = Eq.
Proof.
  intros Hxy Hxz.
  assert (Hyx : cmp y x = Eq) by (rewrite cmp_antisym, Hxy; reflexivity).
  assert (Hzx : cmp z x = Eq) by (rewrite cmp_antisym, Hxz; reflexivity).
  assert (H1 : cmp y z <> Gt) by (apply (cmp_le_trans y x z); congruence).
  assert (H2 : cmp z y <> Gt) by (apply (cmp_le_trans z x y); congruence).
  rewrite (cmp_antisym y z) in H2.
  destruct (cmp y z); simpl in *; congruence.
Qed.

Lemma filter_insertSorted (x y : A) (l : list A) :
  List.filter (fun a => isEq (cmp x a)) (JS.insertSorted cmp y l)
  = List.filter (fun a => isEq (cmp x a)) (y :: l).
Proof.
  induction l as [|z l IH]; [reflexivity|].
  simpl JS.insertSorted. destruct (cmp y z) eqn:Hyz; try reflexivity.
  change (List.filter (fun a => isEq (cmp x a)) (z :: JS.insertSorted cmp y l))
    with (if isEq (cmp x z)
          then z :: List.filter (fun a => isEq (cmp x a)) (JS.insertSorted cmp y l)
          else List.filter (fun a => isEq (cmp x a)) (JS.insertSorted cmp y l)).
  rewrite IH. simpl.
  destruct (cmp x y) eqn:Hxy, (cmp x z) eqn:Hxz; simpl; try reflexivity.
  pose proof (cmp_Eq_Eq x y z Hxy Hxz). congruence.
Qed.

Lemma sort_stable (l : list A) (x : A) :
  List.filter (fun a => isEq (cmp x a)) (JS.sort cmp l)
  = List.filter (fun a => isEq (cmp x a)) l.
Proof.
  induction l as [|y l IH]; [reflexivity|].
  unfold JS.sort in *. simpl foldr. rewrite filter_insertSorted.
  simpl. now rewrite IH.
Qed.

(** The model of [Array.prototype.sort] is a stable sort. *)
Lemma sort_is_stable_sort (l : list A) : stable_sort_of cmp l (JS.sort cmp l).
Proof.
  split; [apply sort_Permutation|]. split; [apply sort_sorted|].
  intros x. apply sort_stable.
Qed.

Lemma cmp_refl (x : A) : cmp x x = Eq.
Proof. pose proof (cmp_antisym x x) as H. destruct (cmp x x); simpl in H; congruence. Qed.

Lemma cmp_le_le_Eq (x y : A) : cmp x y <> Gt -> cmp y x <> Gt -> cmp x y = Eq.
Proof.
  intros Hxy Hyx. rewrite (cmp_antisym x y) in Hyx.
  destruct (cmp x y); simpl in *; congruence.
Qed.

(** Two lists with the same elements, both sorted, in which the elements
    that compare equal come in the same order, are equal: being a stable
    sort determines the output. *)
Lemma stably_sorted_unique (l1 l2 : list A) :
  l1 ≡ₚ l2 ->
  StronglySorted (fun a b => cmp a b <> Gt) l1 ->
  StronglySorted (fun a b => cmp a b <> Gt) l2 ->
  (forall x, List.filter (fun a => isEq (cmp x a)) l1
             = List.filter (fun a => isEq (cmp x a)) l2) ->
  l1 = l2.
Proof.
  revert l2. induction l1 as [|a l1 IH]; intros l2 Hperm Hs1 Hs2 Hf.
  - now apply Permutation_nil in Hperm.
  - destruct l2 as [|b l2]; [now apply Permutation_sym, Permutation_nil in Hperm|].
    apply StronglySorted_inv in Hs1 as [Hs1 Ha].
    apply StronglySorted_inv in Hs2 as [Hs2 Hb].
    rewrite List.Forall_forall in Ha, Hb.
    assert (Hab : cmp a b = Eq).
    { apply cmp_le_le_Eq.
      - assert (Hin : In b (a :: l1))
          by (eapply Permutation_in; [symmetry; exact Hperm | now left]).
        destruct Hin as [<-|Hin]; [rewrite cmp_refl; discriminate | now apply Ha].
      - assert (Hin : In a (b :: l2))
          by (eapply Permutation_in; [exact Hperm | now left]).
        destruct Hin as [<-|Hin]; [rewrite cmp_refl; discriminate | now apply Hb]. }
    pose proof (Hf a) as Hfa. simpl in Hfa. rewrite cmp_refl, Hab in Hfa.
    simpl in Hfa. injection Hfa as <- Htl.
    f_equal. apply IH; [now apply Permutation_cons_inv in Hperm|assumption..|].
    intros x. specialize (Hf x). simpl in Hf.
    destruct (isEq (cmp x a)); [now injection Hf | exact Hf].
Qed.

Lemma stable_sort_of_unique (l l' : list A) :
  stable_sort_of cmp l l' -> l' = JS.sort cmp l.
Proof.
  intros (Hperm & Hsorted & Hstable).
  destruct (sort_is_stable_sort l) as (Hperm' & Hsorted' & Hstable').
  apply stably_sorted_unique; [|assumption..|].
  - now rewrite Hperm, Hperm'.
  - intros x. now rewrite Hstable, Hstable'.
Qed.

End StableSort.

(** ** The comparators of [sortColumn] *)

Section Comparators.

Lemma number_compare_antisym (x y : JS.number) :
  JS.number_compare y x = CompOpp (JS.number_compare x y).
Proof.
  destruct x as [|[|]|a], y as [|[|]|b]; simpl; try reflexivity.
  symmetry. apply Qcompare_antisym.
Qed.

Lemma number_compare_le_trans (x y z : JS.number) :
  JS.number_compare x y <> Gt -> JS.number_compare y z <> Gt ->
  JS.number_compare x z <> Gt.
Proof.
  destruct x as [|[|]|a], y as [|[|]|b], z as [|[|]|c]; simpl;
    try congruence.
  rewrite <- !Qle_alt. apply Qle_trans.
Qed.

Lemma orZero_not_NaN (x : JS.number) : JS.isNaN (JS.orZero x) = false.
Proof. destruct x as [| |q]; simpl; [reflexivity..|]. now destruct (Qeq_bool q 0). Qed.

Lemma Qcompare_sub_zero (a b : Q) : (a - b ?= 0)%Q = (a ?= b)%Q.
Proof.
  unfold Qcompare, Qminus, Qplus, Qopp. simpl.
  rewrite Z.mul_1_r, (Z.compare_sub (Qnum a * QDen b)). f_equal. ring.
Qed.

(** Between numbers that are not [NaN], the sign of the difference is the
    order; two equal infinities, whose difference is [NaN], are equal. *)
Lemma sign_sub_compare (x y : JS.number) :
  JS.isNaN x = false -> JS.isNaN y = false ->
  JS.sign (JS.sub x y) = JS.number_compare x y.
Proof.
  destruct x as [|[|]|a], y as [|[|]|b]; simpl; try discriminate;
    try reflexivity.
  intros _ _. apply Qcompare_sub_zero.
Qed.

Lemma text_comparator_compare (a b : string) :
  (if String.ltb a b then Lt else if String.ltb b a then Gt else Eq)
  = String.compare a b.
Proof.
  unfold String.ltb. rewrite (String.compare_antisym a b).
  destruct (String.compare b a); reflexivity.
Qed.

Lemma string_compare_le_trans (x y z : string) :
  String.compare x y <> Gt -> String.compare y z <> Gt ->
  String.compare x z <> Gt.
Proof.
  intros Hxy Hyz.
  assert (Hle : forall s t, String.compare s t <> Gt <-> String.le s t).
  { intros s t. unfold String.le, String.leb.
    destruct (String.compare s t); simpl; intuition congruence. }
  rewrite Hle in *. now transitivity y.
Qed.

Lemma string_compare_antisym (x y : string) :
  String.compare y x = CompOpp (String.compare x y).
Proof. apply String.compare_antisym. Qed.

(** The comparator of [sortColumn] compares the keys of the two rows. *)
Lemma compareRows_numeric (col : nat) (dir : direction) (a b : list string) :
  DataTable.compareRows true col dir a b
  = by_key JS.number_compare (DataTable.numericKey col) dir a b.
Proof.
  unfold DataTable.compareRows, by_key, DataTable.numericKey.
  destruct dir; apply sign_sub_compare; apply orZero_not_NaN.
Qed.

Lemma compareRows_text (col : nat) (dir : direction) (a b : list string) :
  DataTable.compareRows false col dir a b
  = by_key String.compare (DataTable.textKey col) dir a b.
Proof.
  unfold DataTable.compareRows, by_key.
  destruct dir; apply text_comparator_compare.
Qed.

Lemma by_key_antisym {K} (kcmp : K -> K -> comparison) key dir :
  (forall x y, kcmp y x = CompOpp (kcmp x y)) ->
  forall a b, by_key kcmp key dir b a = CompOpp (by_key kcmp key dir a b).
Proof. intros H a b. destruct dir; simpl; apply H. Qed.

Lemma by_key_le_trans {K} (kcmp : K -> K -> comparison) key dir :
  (forall x y, kcmp y x = CompOpp (kcmp x y)) ->
  (forall x y z, kcmp x y <> Gt -> kcmp y z <> Gt -> kcmp x z <> Gt) ->
  forall a b c, by_key kcmp key dir a b <> Gt -> by_key kcmp key dir b c <> Gt ->
                by_key kcmp key dir a c <> Gt.
Proof.
  intros Hanti Htrans a b c. destruct dir; simpl; [apply Htrans|].
  intros Hba Hcb. exact (Htrans _ _ _ Hcb Hba).
Qed.

Lemma stable_sort_of_ext {A} (cmp cmp' : A -> A -> comparison) (l l' : list A) :
  (forall a b, cmp a b = cmp' a b) ->
  stable_sort_of cmp l l' -> stable_sort_of cmp' l l'.
Proof.
  intros Hext (Hperm & Hsorted & Hstable). split; [exact Hperm|]. split.
  - clear Hstable Hperm. induction Hsorted as [|x xs Hs IH Hx]; constructor; auto.
    eapply Forall_impl; [exact Hx|]. intros y Hy. simpl in *.
    now rewrite <- Hext.
  - intros x.
    assert (Hf : forall a, isEq (cmp x a) = isEq (cmp' x a))
      by (intros a; now rewrite Hext).
    rewrite <- (List.filter_ext _ _ Hf l'), <- (List.filter_ext _ _ Hf l).
    apply Hstable.
Qed.

(** *** The 70% test

    [a / b] rounded to the nearest integer is within half of [a / b]. *)
Lemma roundHalfEven_bounds (a b : Z) :
  (0 <= a -> 0 < b ->
   2 * a - b <= 2 * (JS.roundHalfEven a b * b) <= 2 * a + b)%Z.
Proof.
  intros Ha Hb. unfold JS.roundHalfEven.
  pose proof (Z.div_mod a b ltac:(lia)) as Hdiv.
  pose proof (Z.mod_pos_bound a b Hb) as Hmod.
  destruct (Z.compare_spec (2 * (a mod b)) b) as [He|Hl|Hg];
    [destruct (Z.even (a / b))|..]; nia.
Qed.

(** The literal [0.7] is 6305039478318694 / 2^53, which is 2/5 of a unit
    in the last place below 7/10. *)
Lemma toBinary64_point7 :
  JS.toBinary64 (7 # 10) = JS.Fin (6305039478318694 # 9007199254740992).
Proof. vm_compute. reflexivity. Qed.

(** The product [n * 0.7] of an array length: a mantissa [m] at a scale
    of at least 2^-53 and at most 2^-21, within half a unit of the exact
    product. *)
Lemma product_point7 (N : Z) :
  (0 < N < 2 ^ 32)%Z ->
  exists m s : Z,
    (21 <= s <= 53)%Z
    /\ JS.number_mul (JS.Fin (inject_Z N)) (JS.toBinary64 (7 # 10))
       = JS.Fin (m # Z.to_pos (2 ^ s))
    /\ (2 * (N * 6305039478318694 * 2 ^ s) - 2 ^ 53
        <= 2 * (m * 2 ^ 53)
        <= 2 * (N * 6305039478318694 * 2 ^ s) + 2 ^ 53)%Z.
Proof.
  intros HN. rewrite toBinary64_point7. unfold JS.number_mul.
  set (C := 6305039478318694%Z) in *.
  set (n := (N * C)%Z).
  assert (Hn : (2 ^ 52 <= n < 2 ^ 85)%Z).
  { unfold n, C. change (2 ^ 52)%Z with 4503599627370496%Z.
    change (2 ^ 85)%Z with (2 ^ 32 * 2 ^ 53)%Z.
    change (2 ^ 53)%Z with 9007199254740992%Z. lia. }
  set (L := Z.log2 n).
  assert (HL : (52 <= L <= 84)%Z).
  { split.
    - change 52%Z with (Z.log2 (2 ^ 52)). apply Z.log2_le_mono. lia.
    - assert (L < 85)%Z; [|lia]. apply Z.log2_lt_pow2; lia. }
  assert (Hspec : (2 ^ L <= n < 2 ^ (L + 1))%Z) by (apply Z.log2_spec; lia).
  exists (JS.roundHalfEven (n * 2 ^ (105 - L)) (2 ^ 53)), (105 - L)%Z.
  split; [lia|].
  assert (Hpow : (0 < 2 ^ (105 - L))%Z) by (apply Z.pow_pos_nonneg; lia).
  pose proof (roundHalfEven_bounds (n * 2 ^ (105 - L)) (2 ^ 53)
                ltac:(nia) ltac:(lia)) as Hm.
  split; [|exact Hm].
  unfold JS.toBinary64.
  replace (Qnum (inject_Z N * (C # 9007199254740992))) with n by reflexivity.
  replace (Z.pos (Qden (inject_Z N * (C # 9007199254740992))))
    with (2 ^ 53)%Z by reflexivity.
  rewrite (Z.abs_eq n) by lia.
  destruct (Z.eqb_spec n 0) as [|_]; [lia|].
  rewrite Z.log2_pow2 by lia. fold L.
  assert (Hbelow :
    (if (0 <=? L - 53)%Z then (n <? 2 ^ 53 * 2 ^ (L - 53))%Z
     else (n * 2 ^ (- (L - 53)) <? 2 ^ 53)%Z) = false).
  { destruct (Z.leb_spec 0 (L - 53)).
    - rewrite <- Z.pow_add_r by lia. replace (53 + (L - 53))%Z with L by lia.
      apply Z.ltb_ge. lia.
    - replace L with 52%Z by lia. apply Z.ltb_ge.
      change (2 ^ (- (52 - 53)))%Z with 2%Z.
      change (2 ^ 53)%Z with (2 ^ 52 * 2)%Z. lia. }
  cbv zeta. rewrite Hbelow.
  rewrite (Z.max_l (L - 53) (-1022)) by lia.
  destruct (Z.leb_spec 0 (L - 53 - 52)) as [|_]; [lia|].
  replace (- (L - 53 - 52))%Z with (105 - L)%Z by lia.
  set (m := JS.roundHalfEven (n * 2 ^ (105 - L)) (2 ^ 53)) in *.
  destruct (Z.ltb_spec n 0) as [|_]; [lia|].
  assert (Hover : Qle_bool (inject_Z (2 ^ 1024)) (m # Z.to_pos (2 ^ (105 - L)))
                  = false).
  { apply not_true_is_false. intros Hle. apply Qle_bool_imp_le in Hle.
    unfold Qle in Hle. simpl in Hle. rewrite Z2Pos.id in Hle by lia.
    assert (Hs : (2 ^ (105 - L) <= 2 ^ 53)%Z) by (apply Z.pow_le_mono_r; lia).
    assert (Hbig : (2 ^ 86 <= 2 ^ 1024)%Z) by (apply Z.pow_le_mono_r; lia).
    change (2 ^ 85)%Z with 38685626227668133590597632%Z in Hn.
    change (2 ^ 86)%Z with 77371252455336267181195264%Z in Hbig.
    change (2 ^ 53)%Z with 9007199254740992%Z in *.
    nia. }
  rewrite Hover. reflexivity.
Qed.

(** Away from exactly 70%, for every array length, the binary64 test
    [n * 0.7 < k] is the exact one, [7 n < 10 k]: the product is within
    one unit in the last place of [7 n / 10], and that is less than the
    tenth by which [k] differs from it. *)
Lemma exceeds70Percent_off_70 (n k : nat) :
  (Z.of_nat n < 2 ^ 32)%Z -> 10 * k <> 7 * n ->
  JS.exceeds70Percent n k = true <-> 7 * n < 10 * k.
Proof.
  intros Hn Hne. unfold JS.exceeds70Percent.
  destruct n as [|n'].
  - destruct k as [|k']; [lia|]. split; [lia|]. intros _. reflexivity.
  - set (N := Z.of_nat (S n')) in *.
    destruct (product_point7 N ltac:(lia)) as (m & s & Hs & -> & Hm).
    unfold JS.number_lt. rewrite negb_true_iff.
    assert (Hpow : (2 ^ 21 <= 2 ^ s)%Z) by (apply Z.pow_le_mono_r; lia).
    set (P := (2 ^ s)%Z) in *. set (K := Z.of_nat k).
    assert (Hcmp : Qle_bool (inject_Z K) (m # Z.to_pos P) = false
                   <-> (m < K * P)%Z).
    { rewrite <- not_true_iff_false, Qle_bool_iff. unfold Qle. simpl.
      rewrite Z2Pos.id by lia. lia. }
    rewrite Hcmp.
    change (2 ^ 21)%Z with 2097152%Z in Hpow.
    change (2 ^ 53)%Z with 9007199254740992%Z in Hm.
    change (2 ^ 32)%Z with 4294967296%Z in Hn.
    assert (HK : (0 <= K)%Z) by lia.
    split.
    + intros Hlt. destruct (Nat.lt_total (7 * S n') (10 * k)) as [|[|Hgt]];
        [assumption|lia|exfalso].
      assert (7 * N >= 10 * K + 1)%Z by lia. nia.
    + intros Hlt. assert (10 * K >= 7 * N + 1)%Z by lia. nia.
Qed.

(** With fewer than 90 values, the binary64 test is the exact one at
    exactly 70% too. *)
Lemma exceeds70Percent_exact (n k : nat) :
  n < 90 -> k <= n ->
  JS.exceeds70Percent n k = true <-> 7 * n < 10 * k.
Proof.
  intros Hn Hk.
  assert (Hall :
    forallb (fun n => forallb (fun k =>
       Bool.eqb (JS.exceeds70Percent n k) (7 * n <? 10 * k)) (seq 0 (S n)))
      (seq 0 90) = true) by (vm_compute; reflexivity).
  rewrite forallb_forall in Hall.
  specialize (Hall n). rewrite in_seq in Hall. specialize (Hall ltac:(lia)).
  rewrite forallb_forall in Hall.
  specialize (Hall k). rewrite in_seq in Hall. specialize (Hall ltac:(lia)).
  apply Bool.eqb_prop in Hall. rewrite Hall. apply Nat.ltb_lt.
Qed.

(** At 90 values the product [90 * 0.7] is rounded below 63, and 63
    numeric values out of 90 - exactly 70% - pass the test. *)
Lemma exceeds70Percent_at_90 : JS.exceeds70Percent 90 63 = true.
Proof. vm_compute. reflexivity. Qed.

(** The rounded product of the rationals is the product of the
    primitive floating-point numbers: the two tests agree on every
    column of up to 120 values. *)
Lemma exceeds70Percent_float_agrees :
  forallb (fun n => forallb (fun k =>
     Bool.eqb (JS.exceeds70Percent n k) (JS.exceeds70Percent_float n k))
       (seq 0 (S n))) (seq 0 121) = true.
Proof. vm_compute. reflexivity. Qed.

End Comparators.

(** ** Sorting by a column *)

Section SortColumn.
Import DataTable.

Lemma length_filter_le {A} (p : A -> bool) (l : list A) :
  length (List.filter p l) <= length l.
Proof.
  induction l as [|x l IH]; simpl; [lia|]. destruct (p x); simpl; lia.
Qed.

(** C4, amended: [sortColumn] leaves the headers and the widths as they
    are and sorts the rows stably.  The column is numeric iff strictly
    more than 70% of its non-blank cells are numbers as a whole (for
    [Number] and for [parseFloat]): this holds for every column in which
    the share of such cells is not exactly 70% (a column has fewer than
    2^32 cells), and also at exactly 70% for a column of fewer than 90
    non-blank cells.  A numeric column is ordered by the number [parseFloat] reads at the head
    of each cell, a cell without one (blank, unparseable) counting as 0;
    any other column is ordered by the lower-cased text.  Rows with equal
    keys keep their relative order. *)
Theorem sortColumn_stable_by_key (v : View) (col : nat) (dir : direction) :
  let d := data v in
  let v' := commit v (sortColumn col dir v) in
  let values := columnValues col d in
  headers (data v') = headers d
  /\ columnWidths (local v') = columnWidths (local v)
  /\ ((Z.of_nat (length values) < 2 ^ 32)%Z ->
      10 * length (List.filter isNumericValue values) <> 7 * length values ->
      (isNumericColumn col d = true
       <-> 7 * length values < 10 * length (List.filter isNumericValue values)))
  /\ (length values < 90 ->
      (isNumericColumn col d = true
       <-> 7 * length values < 10 * length (List.filter isNumericValue values)))
  /\ (isNumericColumn col d = true ->
      stable_sort_of (by_key JS.number_compare (numericKey col) dir)
        (rows d) (rows (data v')))
  /\ (isNumericColumn col d = false ->
      stable_sort_of (by_key String.compare (textKey col) dir)
        (rows d) (rows (data v'))).
Proof.
  simpl. unfold commit, sortColumn. simpl.
  destruct (decide _) as [_|Hbad]; [|contradiction].
  simpl. split; [reflexivity|]. split; [reflexivity|].
  split; [|split; [|split]].
  - intros Hn Hne. unfold isNumericColumn.
    destruct (Nat.eqb_spec (length (columnValues col (data v))) 0) as [H0|H0].
    + pose proof (length_filter_le isNumericValue (columnValues col (data v))).
      split; [discriminate|lia].
    + now apply exceeds70Percent_off_70.
  - intros Hn. unfold isNumericColumn.
    destruct (Nat.eqb_spec (length (columnValues col (data v))) 0) as [H0|H0].
    + pose proof (length_filter_le isNumericValue (columnValues col (data v))).
      split; [discriminate|lia].
    + apply exceeds70Percent_exact; [assumption|apply length_filter_le].
  - intros ->.
    apply (stable_sort_of_ext (compareRows true col dir)).
    { apply compareRows_numeric. }
    apply sort_is_stable_sort.
    + intros x y. rewrite !compareRows_numeric.
      apply by_key_antisym, number_compare_antisym.
    + intros x y z. rewrite !compareRows_numeric.
      apply by_key_le_trans;
        [apply number_compare_antisym | apply number_compare_le_trans].
  - intros ->.
    apply (stable_sort_of_ext (compareRows false col dir)).
    { apply compareRows_text. }
    apply sort_is_stable_sort.
    + intros x y. rewrite !compareRows_text.
      apply by_key_antisym, string_compare_antisym.
    + intros x y z. rewrite !compareRows_text.
      apply by_key_le_trans;
        [apply string_compare_antisym | apply string_compare_le_trans].
Qed.

(** P5 of the specification: the column 10, 2, abc, 1 is numeric and
    sorts ascending to abc, 1, 2, 10. *)
Lemma sortColumn_stable_by_key_witness :
  isNumericColumn 0 (data (column_view ["10"; "2"; "abc"; "1"])) = true
  /\ stable_sort_of (by_key JS.number_compare (numericKey 0) asc)
       [["10"]; ["2"]; ["abc"]; ["1"]]
       [["abc"]; ["1"]; ["2"]; ["10"]]%string.
Proof.
  destruct (sortColumn_stable_by_key (column_view ["10"; "2"; "abc"; "1"]) 0 asc)
    as (_ & _ & Hclass & _ & Hnum & _).
  assert (Hk : isNumericColumn 0 (data (column_view ["10"; "2"; "abc"; "1"])) = true).
  { apply Hclass; [reflexivity|vm_compute; lia..]. }
  split; [exact Hk|]. exact (Hnum Hk).
Defined.

(** The claim C4 fails on the code under both readings of "parses".
    If a cell parses when [parseFloat] reads a number at its head, the
    column 10abc, 9abc parses entirely and is still not numeric.  If a
    cell parses when the whole of it is a number, the column 5, 7, 9,
    11, 10abc is numeric and 10abc is sorted as 10, not as 0. *)
Lemma sortByColumn_claim_counterexample :
  ~ sortByColumn_claim parsesAsFloat (column_view ["10abc"; "9abc"]) 0 asc
  /\ ~ sortByColumn_claim parsesAsNumber
         (column_view ["5"; "7"; "9"; "11"; "10abc"]) 0 asc.
Proof.
  split.
  - intros (Hclass & _).
    assert (Hc : claimedNumeric parsesAsFloat 0
                   (data (column_view ["10abc"; "9abc"]))).
    { vm_compute. lia. }
    apply Hclass in Hc. vm_compute in Hc. discriminate.
  - intros (_ & Hnum & _).
    assert (Hc : claimedNumeric parsesAsNumber 0
                   (data (column_view ["5"; "7"; "9"; "11"; "10abc"]))).
    { vm_compute. lia. }
    destruct (Hnum Hc) as (_ & Hsorted & _).
    assert (Hrows : rows (data (commit (column_view ["5"; "7"; "9"; "11"; "10abc"])
                     (sortColumn 0 asc (column_view ["5"; "7"; "9"; "11"; "10abc"]))))
                    = [["5"]; ["7"]; ["9"]; ["10abc"]; ["11"]]%string).
    { vm_compute. reflexivity. }
    rewrite Hrows in Hsorted.
    apply StronglySorted_inv in Hsorted as [_ Hfirst].
    rewrite List.Forall_forall in Hfirst.
    apply (Hfirst ["10abc"%string]); [simpl; tauto|].
    vm_compute. reflexivity.
Qed.

(** The slip of the threshold on a table: 90 non-blank cells of which 63,
    exactly 70%, are numbers; the column is classified numeric. *)
Lemma isNumericColumn_at_exactly_70_percent :
  let d := data (column_view (replicate 63 "1" ++ replicate 27 "x"))%string in
  length (columnValues 0 d) = 90
  /\ length (List.filter isNumericValue (columnValues 0 d)) = 63
  /\ isNumericColumn 0 d = true.
Proof. vm_compute. repeat split; reflexivity. Qed.

End SortColumn.

(** ** Sheet ids: printing a number and reading it back *)

Section SheetIds.

Lemma parseDigits_uint_acc (d : Decimal.uint) (p : positive) :
  JS.parseDigits 10 (Some (Z.pos p)) (NilEmpty.string_of_uint d)
  = Some (Z.pos (Pos.of_uint_acc d p)).
Proof.
  revert p. induction d; intros p; [reflexivity|..];
    cbn [NilEmpty.string_of_uint JS.parseDigits Pos.of_uint_acc];
    change (JS.digitValue _) with (Some 0%Z) || change (JS.digitValue _) with (Some 1%Z)
    || change (JS.digitValue _) with (Some 2%Z) || change (JS.digitValue _) with (Some 3%Z)
    || change (JS.digitValue _) with (Some 4%Z) || change (JS.digitValue _) with (Some 5%Z)
    || change (JS.digitValue _) with (Some 6%Z) || change (JS.digitValue _) with (Some 7%Z)
    || change (JS.digitValue _) with (Some 8%Z) || change (JS.digitValue _) with (Some 9%Z);
    cbn [Z.ltb Z.compare Pos.compare Pos.compare_cont default option_rect id];
    rewrite <- IHd; f_equal; f_equal; lia.
Qed.

Lemma parseDigits_uint (d : Decimal.uint) (acc : option Z) :
  acc = None \/ acc = Some 0%Z -> d <> Decimal.Nil ->
  JS.parseDigits 10 acc (NilEmpty.string_of_uint d)
  = Some (Z.of_N (Pos.of_uint d)).
Proof.
  revert acc. induction d; intros acc Hacc Hd; [contradiction|..].
  1: { cbn [NilEmpty.string_of_uint JS.parseDigits Pos.of_uint].
       change (JS.digitValue "0") with (Some 0%Z). cbn [Z.ltb Z.compare].
       replace (10 * default 0 acc + 0)%Z with 0%Z
         by (destruct Hacc as [-> | ->]; reflexivity).
       destruct d; try (apply IHd; [now right | discriminate]).
       reflexivity. }
  all: cbn [NilEmpty.string_of_uint JS.parseDigits Pos.of_uint];
    change (JS.digitValue _) with (Some 1%Z) || change (JS.digitValue _) with (Some 2%Z)
    || change (JS.digitValue _) with (Some 3%Z) || change (JS.digitValue _) with (Some 4%Z)
    || change (JS.digitValue _) with (Some 5%Z) || change (JS.digitValue _) with (Some 6%Z)
    || change (JS.digitValue _) with (Some 7%Z) || change (JS.digitValue _) with (Some 8%Z)
    || change (JS.digitValue _) with (Some 9%Z);
    cbn [Z.ltb Z.compare Pos.compare Pos.compare_cont];
    destruct Hacc as [-> | ->]; cbn [default];
    exact (parseDigits_uint_acc d _).
Qed.

Lemma parseInt_unsigned (d : Decimal.uint) :
  d <> Decimal.Nil ->
  JS.parseInt (NilEmpty.string_of_uint d)
  = (fun n => 1 * n)%Z <$> JS.parseDigits 10 None (NilEmpty.string_of_uint d).
Proof.
  intros Hd. destruct d as [|d|d|d|d|d|d|d|d|d|d]; [contradiction|..];
    destruct d; reflexivity.
Qed.

Lemma parseInt_negative (d : Decimal.uint) :
  d <> Decimal.Nil ->
  JS.parseInt (String "-" (NilEmpty.string_of_uint d))
  = (fun n => -1 * n)%Z <$> JS.parseDigits 10 None (NilEmpty.string_of_uint d).
Proof.
  intros Hd. destruct d as [|d|d|d|d|d|d|d|d|d|d]; [contradiction|..];
    destruct d; reflexivity.
Qed.

(** A sheet id printed from a number reads back as that number. *)
Lemma parseInt_Z_toString (z : Z) : JS.parseInt (JS.Z_toString z) = Some z.
Proof.
  destruct z as [|p|p]; [reflexivity|..]; unfold JS.Z_toString; simpl.
  - pose proof (DecimalPos.Unsigned.to_uint_nonnil p) as Hnil.
    assert (Hs : NilZero.string_of_uint (Pos.to_uint p)
                 = NilEmpty.string_of_uint (Pos.to_uint p))
      by (destruct (Pos.to_uint p); [contradiction | reflexivity..]).
    rewrite Hs, parseInt_unsigned by assumption.
    rewrite parseDigits_uint by auto.
    rewrite DecimalPos.Unsigned.of_to. reflexivity.
  - pose proof (DecimalPos.Unsigned.to_uint_nonnil p) as Hnil.
    assert (Hs : NilZero.string_of_uint (Pos.to_uint p)
                 = NilEmpty.string_of_uint (Pos.to_uint p))
      by (destruct (Pos.to_uint p); [contradiction | reflexivity..]).
    rewrite Hs, parseInt_negative by assumption.
    rewrite parseDigits_uint by auto.
    rewrite DecimalPos.Unsigned.of_to. reflexivity.
Qed.

End SheetIds.

(** ** The sheet registry *)

Section Registry.
Import App.

Lemma fold_max_ge_init (xs : list Z) (x : Z) : (x <= fold_left Z.max xs x)%Z.
Proof.
  revert x. induction xs as [|y xs IH]; intros x; simpl; [lia|].
  specialize (IH (Z.max x y)). lia.
Qed.

Lemma fold_max_ge_elem (xs : list Z) (x z : Z) :
  z ∈ xs -> (z <= fold_left Z.max xs x)%Z.
Proof.
  revert x. induction xs as [|y xs IH]; intros x Hz; simpl.
  - now apply elem_of_nil in Hz.
  - apply elem_of_cons in Hz as [->|Hz]; [|now apply IH].
    pose proof (fold_max_ge_init xs (Z.max x y)). lia.
Qed.

(** The id that [addNewSheet] generates is above every id that reads as a
    number, so no sheet has it yet. *)
Lemma nextSheetId_above (st : State) (s : Sheet) (z : Z) :
  s ∈ sheets st -> JS.parseInt (id s) = Some z -> (z < nextSheetId st)%Z.
Proof.
  intros Hs Hz. unfold nextSheetId.
  assert (Hin : z ∈ omap (fun s => JS.parseInt (id s)) (sheets st)).
  { apply list_elem_of_omap. eauto. }
  destruct (omap _ (sheets st)) as [|x xs].
  - now apply elem_of_nil in Hin.
  - apply elem_of_cons in Hin as [->|Hin].
    + pose proof (fold_max_ge_init xs x). lia.
    + pose proof (fold_max_ge_elem xs x z Hin). lia.
Qed.

Lemma nextSheetId_fresh (st : State) :
  JS.Z_toString (nextSheetId st) ∉ map id (sheets st).
Proof.
  intros Hin. apply list_elem_of_fmap in Hin as (s & Hid & Hs).
  pose proof (nextSheetId_above st s (nextSheetId st) Hs) as Hlt.
  rewrite <- Hid, parseInt_Z_toString in Hlt. specialize (Hlt eq_refl). lia.
Qed.

Lemma commit_nonempty (st : State) : 1 <= length (sheets st) -> commit st = st.
Proof.
  intros Hn. unfold commit.
  destruct (Nat.eqb_spec (length (sheets st)) 0); [lia|reflexivity].
Qed.

Lemma map_id_map (f : Sheet -> Sheet) (l : list Sheet) :
  (forall s, id (f s) = id s) -> map id (map f l) = map id l.
Proof. intros Hf. rewrite map_map. apply map_ext. exact Hf. Qed.

Lemma NoDup_ids_filter (p : Sheet -> bool) (l : list Sheet) :
  NoDup (map id l) -> NoDup (map id (List.filter p l)).
Proof.
  induction l as [|s l IH]; simpl; [auto|].
  rewrite NoDup_cons. intros [Hs Hnd]. destruct (p s); simpl; [|auto].
  apply NoDup_cons. split; [|auto].
  intros Hin. apply Hs.
  apply list_elem_of_fmap in Hin as (s' & Hid & Hs').
  apply list_elem_of_fmap. exists s'. split; [exact Hid|].
  apply list_elem_of_In in Hs'. apply List.filter_In in Hs' as [Hs' _].
  now apply list_elem_of_In.
Qed.

Lemma filter_other_ids_all (id_ : string) (l : list Sheet) :
  id_ ∉ map id l ->
  List.filter (fun sheet => negb (String.eqb (id sheet) id_)) l = l.
Proof.
  induction l as [|s l IH]; simpl; [reflexivity|].
  rewrite not_elem_of_cons. intros [Hne Hnot].
  destruct (String.eqb_spec (id s) id_); [congruence|].
  simpl. now rewrite IH.
Qed.

(** With unique ids, filtering one id out removes at most one sheet. *)
Lemma filter_other_ids_length (id_ : string) (l : list Sheet) :
  NoDup (map id l) ->
  length l <= S (length (List.filter (fun sheet => negb (String.eqb (id sheet) id_)) l)).
Proof.
  induction l as [|s l IH]; simpl; [lia|].
  rewrite NoDup_cons. intros [Hs Hnd].
  destruct (String.eqb_spec (id s) id_) as [Heq|Hne]; simpl.
  - rewrite filter_other_ids_all by (rewrite <- Heq; exact Hs). lia.
  - specialize (IH Hnd). lia.
Qed.

Lemma addSheet_wellFormed (st : State) (nm : string) (d : option TableData) :
  wellFormed st ->
  wellFormed
    (mkState (sheets st ++ [mkSheet (JS.Z_toString (nextSheetId st)) nm d])
       (JS.Z_toString (nextSheetId st))).
Proof.
  intros [Hlen Hnd]. split; simpl.
  - rewrite length_app. simpl. lia.
  - rewrite map_app. simpl. apply NoDup_app. split; [exact Hnd|]. split.
    + intros x Hx Hx'. apply list_elem_of_singleton in Hx' as ->.
      now apply (nextSheetId_fresh st).
    + apply NoDup_singleton.
Qed.

Lemma deleteSheet_wellFormed (id_ : string) (st : State) :
  wellFormed st ->
  exists st', deleteSheet id_ st = Some st' /\ wellFormed st'.
Proof.
  intros [Hlen Hnd]. unfold deleteSheet.
  destruct (Nat.leb_spec (length (sheets st)) 1) as [Hle|Hgt].
  { exists st. split; [reflexivity|]. now split. }
  pose proof (filter_other_ids_length id_ (sheets st) Hnd) as Hrem.
  pose proof (NoDup_ids_filter
                (fun sheet => negb (String.eqb (id sheet) id_)) (sheets st) Hnd)
    as Hnd'.
  destruct (String.eqb id_ (activeSheetId st)).
  - destruct (List.filter _ (sheets st)) as [|first rest] eqn:Hf.
    + simpl in Hrem. lia.
    + eexists. split; [reflexivity|]. split; simpl; [lia|exact Hnd'].
  - eexists. split; [reflexivity|]. split; simpl; [lia|exact Hnd'].
Qed.

Lemma step_wellFormed (op : Op) (st : State) :
  wellFormed st -> exists st', step op st = Some st' /\ wellFormed st'.
Proof.
  intros Hwf. pose proof Hwf as [Hlen Hnd]. unfold step.
  assert (Hok : forall st1, wellFormed st1 ->
                  exists st', commit <$> Some st1 = Some st' /\ wellFormed st').
  { intros st1 Hwf1. exists st1. simpl.
    rewrite commit_nonempty by apply Hwf1. auto. }
  destruct op as [|i n|i|i|d|d m].
  - apply Hok. now apply addSheet_wellFormed.
  - apply Hok. split; simpl.
    + now rewrite length_map.
    + rewrite map_id_map; [exact Hnd|]. intros s. now destruct (String.eqb _ _).
  - destruct (deleteSheet_wellFormed i st Hwf) as (st1 & -> & Hwf1).
    now apply Hok.
  - apply Hok. now split.
  - apply Hok. split; simpl.
    + now rewrite length_map.
    + rewrite map_id_map; [exact Hnd|]. intros s. now destruct (String.eqb _ _).
  - apply Hok. destruct m; simpl.
    + split; simpl.
      * now rewrite length_map.
      * rewrite map_id_map; [exact Hnd|]. intros s. now destruct (String.eqb _ _).
    + now apply addSheet_wellFormed.
Qed.

(** Every registry the application reaches has at least one sheet and
    unique ids. *)
Lemma reachable_wellFormed (st : State) : reachable st -> wellFormed st.
Proof.
  induction 1 as [|op st st' _ IH Hstep].
  - split; [simpl; lia|]. apply (bool_decide_unpack _). vm_compute. reflexivity.
  - destruct (step_wellFormed op st IH) as (st1 & Hstep1 & Hwf).
    congruence.
Qed.

(** C9: in a registry with at least one sheet and unique ids,
    [deleteSheet] on the only sheet leaves the registry as it is; every
    registry operation succeeds and leaves at least one sheet (and unique
    ids); and deleting the active sheet of several makes the first
    remaining sheet, in list order, the active one. *)
Theorem deleteSheet_keeps_one_sheet_and_activates_first
    (st : State) (id_ : string) :
  wellFormed st ->
  (length (sheets st) = 1 -> step (DeleteSheet id_) st = Some st)
  /\ (forall op, exists st',
        step op st = Some st' /\ 1 <= length (sheets st') /\ wellFormed st')
  /\ (1 < length (sheets st) -> id_ = activeSheetId st ->
      exists first rest,
        List.filter (fun sheet => negb (String.eqb (id sheet) id_)) (sheets st)
        = first :: rest
        /\ step (DeleteSheet id_) st
           = Some (mkState (first :: rest) (id first))).
Proof.
  intros Hwf. pose proof Hwf as [Hlen Hnd]. split; [|split].
  - intros Hone. unfold step, deleteSheet. rewrite Hone. simpl.
    now rewrite commit_nonempty.
  - intros op. destruct (step_wellFormed op st Hwf) as (st' & Hstep & Hwf').
    exists st'. split; [exact Hstep|]. split; [apply Hwf'|exact Hwf'].
  - intros Hmany ->. unfold step, deleteSheet.
    destruct (Nat.leb_spec (length (sheets st)) 1) as [Hle|_]; [lia|].
    rewrite String.eqb_refl.
    pose proof (filter_other_ids_length (activeSheetId st) (sheets st) Hnd) as Hrem.
    destruct (List.filter _ (sheets st)) as [|first rest] eqn:Hf.
    + simpl in Hrem. lia.
    + exists first, rest. split; [reflexivity|]. simpl.
      rewrite commit_nonempty by (simpl; lia). reflexivity.
Qed.

Lemma deleteSheet_keeps_one_sheet_and_activates_first_witness :
  step (DeleteSheet "1") one_sheet = Some one_sheet
  /\ step (DeleteSheet "2") three_sheets
     = Some (mkState [sheet_of "1"; sheet_of "3"] "1").
Proof.
  split.
  - apply (deleteSheet_keeps_one_sheet_and_activates_first one_sheet "1").
    + split; [simpl; lia|]. apply (bool_decide_unpack _). vm_compute. reflexivity.
    + reflexivity.
  - destruct (deleteSheet_keeps_one_sheet_and_activates_first three_sheets "2")
      as (_ & _ & Hactive).
    + split; [simpl; lia|]. apply (bool_decide_unpack _). vm_compute. reflexivity.
    + destruct Hactive as (first & rest & Hf & Hstep);
        [simpl; lia | reflexivity |].
      rewrite Hstep. injection Hf as <- <-. reflexivity.
Defined.

End Registry.

(** ** The row/column invariant *)

Section Rectangular.
Import DataTable.

Lemma splice_insert_length {A} (i : nat) (x : A) (l : list A) :
  length (JS.splice_insert i x l) = S (length l).
Proof.
  unfold JS.splice_insert. rewrite length_app. simpl.
  rewrite length_take, length_drop. lia.
Qed.

Lemma filteri_from_length {A} (k i : nat) (l : list A) :
  length (JS.filteri_from (fun _ index => negb (index =? k)) i l)
  = if decide (i <= k < i + length l) then length l - 1 else length l.
Proof.
  revert i. induction l as [|x l IH]; intros i; simpl.
  - destruct (decide _); lia.
  - destruct (Nat.eqb_spec i k) as [->|Hne]; simpl; rewrite IH;
      repeat destruct (decide _); lia.
Qed.

Lemma filteri_drop_length {A} (k : nat) (l : list A) :
  length (JS.filteri (fun _ index => negb (index =? k)) l)
  = if decide (k < length l) then length l - 1 else length l.
Proof.
  unfold JS.filteri. rewrite filteri_from_length.
  repeat destruct (decide _); lia.
Qed.

Lemma filteri_from_Forall {A} (P : A -> Prop) (p : A -> nat -> bool) (i : nat)
    (l : list A) :
  Forall P l -> Forall P (JS.filteri_from p i l).
Proof.
  intros Hall. revert i. induction Hall as [|x l Hx Hall IH]; intros i; simpl.
  - constructor.
  - destruct (p x i); [constructor|]; auto.
Qed.

Lemma findIndex_from_elem (l : list string) (k : Z) (x : string) :
  x ∈ l ->
  exists i, i < length l
    /\ JS.findIndex_from (fun header => String.eqb header x) k l
       = (k + Z.of_nat i)%Z.
Proof.
  revert k. induction l as [|y l IH]; intros k Hx.
  - now apply elem_of_nil in Hx.
  - simpl. destruct (String.eqb_spec y x) as [->|Hne].
    + exists 0. split; [lia|]. lia.
    + apply elem_of_cons in Hx as [->|Hx]; [contradiction|].
      destruct (IH (k + 1)%Z Hx) as (i & Hi & ->).
      exists (S i). split; [lia|]. lia.
Qed.

Lemma findIndex_elem (l : list string) (x : string) :
  x ∈ l ->
  exists i, i < length l
    /\ JS.findIndex (fun header => String.eqb header x) l = Z.of_nat i.
Proof.
  intros Hx. destruct (findIndex_from_elem l 0 x Hx) as (i & Hi & Hf).
  exists i. split; [exact Hi|]. unfold JS.findIndex. rewrite Hf. lia.
Qed.

Lemma commit_data (v : View) (l : LocalState) (d : TableData) :
  data (commit v (mkUpdate l (Some d))) = d.
Proof. reflexivity. Qed.

(** After [commit], the widths follow the headers when the handler kept
    them aligned or changed the number of headers. *)
Lemma commit_aligned (v : View) (l : LocalState) (d : TableData) :
  (length (headers d) = length (headers (data v)) ->
   length (columnWidths l) = length (headers d)) ->
  widths_aligned (commit v (mkUpdate l (Some d))).
Proof.
  intros Hl. unfold widths_aligned, commit. simpl.
  destruct (decide _) as [Heq|Hne]; simpl; [auto|].
  apply length_replicate.
Qed.

Lemma handleDragEnd_invariant (active : string) (over : option string) (v : View) :
  gridInvariant v -> issuable (DragEnd active over) v ->
  exists v', commit v <$> handleDragEnd active over v = Some v'
             /\ gridInvariant v'.
Proof.
  intros [Hrect Hw] [Hactive Hover]. unfold handleDragEnd.
  destruct over as [over_id|].
  2:{ exists v. simpl. rewrite commit_no_data, view_eta. now split. }
  destruct (String.eqb active over_id); simpl.
  { exists v. rewrite commit_no_data, view_eta. now split. }
  destruct (findIndex_elem _ active Hactive) as (i & Hi & ->).
  destruct (findIndex_elem _ over_id (Hover _ eq_refl)) as (j & Hj & ->).
  rewrite (arrayMove_moveTo (headers (data v))) by assumption. simpl.
  rewrite (mapM_pointwise _ (moveTo i j)).
  2:{ eapply Forall_impl; [exact Hrect|]. intros r Hr. simpl in Hr.
      apply arrayMove_moveTo; rewrite Hr; assumption. }
  simpl. unfold widths_aligned in Hw.
  rewrite (arrayMove_moveTo (columnWidths (local v)))
    by (rewrite Hw; assumption).
  simpl. eexists. split; [reflexivity|]. split.
  - rewrite commit_data. unfold rectangular. simpl. rewrite Forall_map.
    eapply Forall_impl; [exact Hrect|]. intros r Hr. simpl in *.
    rewrite !moveTo_length by (rewrite ?Hr; assumption). exact Hr.
  - apply commit_aligned. simpl. intros _.
    rewrite !moveTo_length by (rewrite ?Hw; assumption). exact Hw.
Qed.

Lemma assign_in_range {A} (l : list A) (i : nat) (x : A) :
  i < length l -> JS.assign l i x = Some (<[i:=x]> l).
Proof.
  intros Hi. unfold JS.assign.
  destruct (Nat.ltb_spec i (length l)); [reflexivity|lia].
Qed.

Lemma indexOf_in_range (l : list string) (x : string) :
  JS.indexOf l x <> (-1)%Z -> Z.to_nat (JS.indexOf l x) < length l.
Proof.
  unfold JS.indexOf, JS.findIndex.
  assert (Hgen : forall k, (0 <= k)%Z ->
            JS.findIndex_from (String.eqb x) k l = (-1)%Z
            \/ (k <= JS.findIndex_from (String.eqb x) k l
                    < k + Z.of_nat (length l))%Z).
  { induction l as [|y l IH]; intros k Hk; simpl; [now left|].
    destruct (String.eqb x y); [right; lia|].
    destruct (IH (k + 1)%Z ltac:(lia)) as [->|H]; [now left|right; lia]. }
  destruct (Hgen 0%Z ltac:(lia)) as [->|H]; [congruence|lia].
Qed.

(** The index that [handleApplyScoreToData] writes the score at is inside
    the padded row, so the assignment replaces a cell. *)
Lemma applyScore_assign_in_range (d : TableData) (row : list string) (x : string) :
  let found := JS.indexOf (headers d) "Lead Score" in
  let newHeaders :=
    if (found =? -1)%Z then headers d ++ ["Lead Score"%string] else headers d in
  let scoreColumnIndex :=
    if (found =? -1)%Z then length newHeaders - 1 else Z.to_nat found in
  let newRow := row ++ replicate (length newHeaders - length row) EmptyString in
  JS.assign newRow scoreColumnIndex x = Some (<[scoreColumnIndex:=x]> newRow).
Proof.
  simpl. apply assign_in_range.
  rewrite length_app, length_replicate.
  destruct (Z.eqb_spec (JS.indexOf (headers d) "Lead Score") (-1)) as [He|Hne].
  - rewrite length_app. simpl. lia.
  - pose proof (indexOf_in_range _ _ Hne). lia.
Qed.

Lemma applyScore_invariant (config : LeadScoringModal.State) (v : View) :
  gridInvariant v ->
  gridInvariant
    (commit v (mkUpdate (local v)
                 (LeadScoringModal.handleApplyScoreToData (data v) config))).
Proof.
  intros [Hrect Hw]. unfold LeadScoringModal.handleApplyScoreToData.
  destruct (negb _).
  { rewrite commit_no_data, view_eta. now split. }
  cbv zeta. destruct (mapM _ _) as [newRows|] eqn:Hrows; simpl.
  2:{ rewrite commit_no_data, view_eta. now split. }
  apply mapM_Some in Hrows. split.
  - rewrite commit_data. unfold rectangular. cbn [headers rows].
    eapply Forall2_Forall_r; [exact Hrows|].
    eapply Forall_impl; [exact Hrect|].
    intros r Hr newRow HnewRow. simpl in Hr.
    destruct (LeadScoringModal.calculateRowScore _ _ r) as [score|];
      [|discriminate].
    simpl in HnewRow. injection HnewRow as <-.
    rewrite length_insert, length_app, length_replicate.
    destruct (_ =? _)%Z; rewrite ?length_app; simpl; lia.
  - apply commit_aligned. cbn [headers]. intros Heq.
    unfold widths_aligned in Hw. rewrite Hw.
    destruct (_ =? _)%Z; [|reflexivity].
    rewrite length_app in Heq. simpl in Heq. lia.
Qed.

Lemma insertColumnAt_invariant (i : nat) (v : View) :
  gridInvariant v -> gridInvariant (commit v (insertColumnAt i v)).
Proof.
  intros [Hrect Hw]. unfold insertColumnAt. split.
  - rewrite commit_data. unfold rectangular. cbn [headers rows].
    rewrite Forall_map. eapply Forall_impl; [exact Hrect|].
    intros r Hr. simpl in Hr. rewrite !splice_insert_length. lia.
  - apply commit_aligned. cbn [headers]. rewrite splice_insert_length. lia.
Qed.

Lemma addColumn_invariant (v : View) :
  gridInvariant v -> gridInvariant (commit v (addColumn v)).
Proof.
  intros [Hrect Hw]. unfold addColumn. split.
  - rewrite commit_data. unfold rectangular. cbn [headers rows].
    rewrite Forall_map. eapply Forall_impl; [exact Hrect|].
    intros r Hr. simpl in Hr. rewrite !length_app. simpl. lia.
  - apply commit_aligned. cbn [headers]. rewrite length_app. simpl. lia.
Qed.

Lemma deleteColumn_invariant (k : nat) (v : View) :
  gridInvariant v -> gridInvariant (commit v (deleteColumn k v)).
Proof.
  intros [Hrect Hw]. unfold deleteColumn.
  destruct (_ <=? 1).
  { rewrite commit_no_data, view_eta. now split. }
  split.
  - rewrite commit_data. unfold rectangular. cbn [headers rows].
    rewrite Forall_map. eapply Forall_impl; [exact Hrect|].
    intros r Hr. simpl in Hr. rewrite !filteri_drop_length, Hr. reflexivity.
  - apply commit_aligned. cbn [headers columnWidths setColumnWidths].
    intros _. unfold widths_aligned in Hw.
    rewrite !filteri_drop_length, Hw. reflexivity.
Qed.

Lemma addRow_invariant (v : View) :
  gridInvariant v -> gridInvariant (commit v (addRow v)).
Proof.
  intros [Hrect Hw]. unfold addRow. split.
  - rewrite commit_data. unfold rectangular. cbn [headers rows].
    apply Forall_app. split; [exact Hrect|].
    constructor; [apply length_replicate|constructor].
  - apply commit_aligned. intros _. exact Hw.
Qed.

Lemma deleteSelectedRows_invariant (v : View) :
  gridInvariant v -> gridInvariant (commit v (deleteSelectedRows v)).
Proof.
  intros [Hrect Hw]. unfold deleteSelectedRows. split.
  - rewrite commit_data. unfold rectangular. cbn [headers rows].
    now apply filteri_from_Forall.
  - apply commit_aligned. intros _. exact Hw.
Qed.

Lemma sortColumn_invariant (i : nat) (dir : direction) (v : View) :
  gridInvariant v -> gridInvariant (commit v (sortColumn i dir v)).
Proof.
  intros [Hrect Hw]. unfold sortColumn. split.
  - rewrite commit_data. unfold rectangular. cbn [headers rows].
    eapply Permutation_Forall; [|exact Hrect].
    symmetry. apply sort_Permutation.
  - apply commit_aligned. intros _. exact Hw.
Qed.

Lemma handleCellChange_invariant (r c : nat) (x : string) (v : View) :
  gridInvariant v -> issuable (CellChange r c x) v ->
  exists v', commit v <$> handleCellChange r c x v = Some v'
             /\ gridInvariant v'.
Proof.
  intros [Hrect Hw] (row & Hrow & Hc). unfold handleCellChange.
  rewrite Hrow. simpl. rewrite assign_in_range by assumption. simpl.
  eexists. split; [reflexivity|]. split.
  - rewrite commit_data. unfold rectangular. cbn [headers rows].
    apply Forall_insert; [exact Hrect|].
    rewrite length_insert.
    unfold rectangular in Hrect. rewrite Forall_lookup in Hrect.
    exact (Hrect r row Hrow).
  - apply commit_aligned. intros _. exact Hw.
Qed.

Lemma handleHeaderChange_invariant (c : nat) (x : string) (v : View) :
  gridInvariant v -> issuable (HeaderChange c x) v ->
  exists v', commit v <$> handleHeaderChange c x v = Some v'
             /\ gridInvariant v'.
Proof.
  intros [Hrect Hw] Hc. simpl in Hc. unfold handleHeaderChange.
  rewrite assign_in_range by assumption. simpl.
  eexists. split; [reflexivity|]. split.
  - rewrite commit_data. unfold rectangular. cbn [headers rows].
    eapply Forall_impl; [exact Hrect|]. intros row Hr. simpl in Hr.
    now rewrite length_insert.
  - apply commit_aligned. cbn [headers]. intros _.
    rewrite length_insert. exact Hw.
Qed.

Lemma gridStep_invariant (op : GridOp) (v : View) :
  gridInvariant v -> issuable op v ->
  exists v', gridStep op v = Some v' /\ gridInvariant v'.
Proof.
  intros Hinv Hop. destruct op; simpl.
  - eexists. split; [reflexivity|]. now apply addColumn_invariant.
  - eexists. split; [reflexivity|]. now apply insertColumnAt_invariant.
  - eexists. split; [reflexivity|]. now apply insertColumnAt_invariant.
  - eexists. split; [reflexivity|]. now apply deleteColumn_invariant.
  - eexists. split; [reflexivity|]. now apply addRow_invariant.
  - eexists. split; [reflexivity|]. now apply deleteSelectedRows_invariant.
  - now apply handleDragEnd_invariant.
  - eexists. split; [reflexivity|]. now apply sortColumn_invariant.
  - now apply handleCellChange_invariant.
  - now apply handleHeaderChange_invariant.
  - eexists. split; [reflexivity|]. now apply applyScore_invariant.
Qed.

(** C5: on a table whose rows all have the length of the header list
    (with one width per header), every structural operation the table can
    issue - add column, insert column left or right, delete column, add
    row, delete rows, move column, sort, cell edit, header edit, apply
    score to data - completes and gives a table whose rows all have the
    length of the header list again. *)
Theorem structural_operations_keep_rows_rectangular (op : GridOp) (v : View) :
  rectangular (data v) -> widths_aligned v -> issuable op v ->
  exists v', gridStep op v = Some v'
             /\ Forall (fun row => length row = length (headers (data v')))
                  (rows (data v'))
             /\ widths_aligned v'.
Proof.
  intros Hrect Hw Hop.
  destruct (gridStep_invariant op v (conj Hrect Hw) Hop) as (v' & Hstep & Hinv).
  exists v'. split; [exact Hstep|]. exact Hinv.
Qed.

Lemma structural_operations_keep_rows_rectangular_witness :
  exists v', gridStep (InsertColumnRight 1) scenario_view = Some v'
             /\ Forall (fun row => length row = length (headers (data v')))
                  (rows (data v'))
             /\ widths_aligned v'.
Proof.
  apply (structural_operations_keep_rows_rectangular
           (InsertColumnRight 1) scenario_view).
  - repeat constructor.
  - reflexivity.
  - exact I.
Defined.

(** The scenario of the specification: [insertColumnRight(1)] appends
    "Column 3" and pads the rows. *)
Lemma insertColumnRight_scenario :
  data (commit scenario_view (insertColumnRight 1 scenario_view))
  = mkTableData ["Name"; "Size"; "Column 3"]
      [["Acme"; "Large"; ""]; ["Beta"; "Small"; ""]]%string.
Proof. reflexivity. Qed.

(** P1: the invariant holds after every operation of a sequence. *)
Lemma gridRun_invariant (ops : list GridOp) (v : View) :
  gridInvariant v -> issuableRun ops v ->
  exists v', gridRun ops v = Some v' /\ gridInvariant v'.
Proof.
  revert v. induction ops as [|op ops IH]; intros v Hinv Hops; simpl in *.
  - eauto.
  - destruct Hops as [Hop Hrest].
    destruct (gridStep_invariant op v Hinv Hop) as (v1 & Hstep & Hinv1).
    rewrite Hstep. simpl. apply IH; auto.
Qed.

(** The handler does not check its indices itself.  Called with the index
    one past the end of a row, which no rendered cell editor has, it
    makes that row longer than the header list: [issuable] is what the
    rendering guarantees. *)
Lemma handleCellChange_past_the_end :
  exists v', gridStep (CellChange 0 2 "x") scenario_view = Some v'
             /\ ~ rectangular (data v').
Proof.
  eexists. split; [reflexivity|].
  intros Hrect. apply Forall_inv in Hrect. simpl in Hrect. discriminate.
Qed.

End Rectangular.

(** ** Resizing a column *)

Section Resize.
Import DataTable.

(** X1: one move of a resize drag, on a column that has a width, sets
    the width of that column to the width it had when the drag started
    plus the distance the pointer has travelled, but never to less than
    100; the other widths, the number of widths, the selection and the
    sort mark stay as they are, and if no column was narrower than 100
    before, none is after. *)
Theorem handleMouseMove_resizes_one_column (columnIndex : nat)
    (startX clientX : Z) (v : View) :
  columnIndex < length (columnWidths (local v)) ->
  exists startWidth move l',
    columnWidths (local v) !! columnIndex = Some startWidth
    /\ handleMouseDown columnIndex startX v = Some move
    /\ move clientX (local v) = Some l'
    /\ columnWidths l' !! columnIndex
       = Some (Z.max 100 (startWidth + (clientX - startX)))
    /\ (forall i, i <> columnIndex ->
          columnWidths l' !! i = columnWidths (local v) !! i)
    /\ length (columnWidths l') = length (columnWidths (local v))
    /\ selectedRows l' = selectedRows (local v)
    /\ sortConfig l' = sortConfig (local v)
    /\ (minWidths (local v) -> minWidths l').
Proof.
  intros Hi. destruct (lookup_lt_is_Some_2 _ _ Hi) as [startWidth Hw].
  exists startWidth, (handleMouseMove columnIndex startX startWidth).
  unfold handleMouseDown, handleMouseMove. rewrite Hw. simpl.
  rewrite assign_in_range by assumption. simpl.
  eexists. split; [reflexivity|]. split; [reflexivity|].
  split; [reflexivity|]. simpl. split; [|split; [|split; [|split; [|split]]]].
  - now apply list_lookup_insert_eq.
  - intros i Hne. now apply list_lookup_insert_ne.
  - apply length_insert.
  - reflexivity.
  - reflexivity.
  - unfold minWidths. simpl. intros Hmin. apply Forall_insert; [assumption|lia].
Qed.

Lemma handleMouseMove_resizes_one_column_witness :
  exists l',
    handleMouseMove 1 400 220 250 (local three_column_view) = Some l'
    /\ columnWidths l' = [150; 100; 100]%Z.
Proof.
  destruct (handleMouseMove_resizes_one_column 1 400 250 three_column_view)
    as (startWidth & move & l' & Hstart & Hdown & Hmove & _).
  - simpl. lia.
  - injection Hstart as <-. injection Hdown as <-.
    exists l'. split; [exact Hmove|].
    vm_compute in Hmove. injection Hmove as <-. reflexivity.
Defined.

(** X2: the moves of one drag do not accumulate: after any earlier move
    of the same drag, a move leaves the widths that this move alone
    would have left. *)
Theorem handleMouseMove_last_move_wins (columnIndex : nat)
    (startX startWidth clientX1 clientX2 : Z) (l : LocalState) :
  handleMouseMove columnIndex startX startWidth clientX1 l
    ≫= handleMouseMove columnIndex startX startWidth clientX2
  = handleMouseMove columnIndex startX startWidth clientX2 l.
Proof.
  unfold handleMouseMove, JS.assign. simpl.
  destruct (Nat.ltb_spec columnIndex (length (columnWidths l))) as [Hlt|Hge];
    simpl.
  - rewrite length_insert.
    destruct (Nat.ltb_spec columnIndex (length (columnWidths l))); [|lia].
    simpl. now rewrite list_insert_insert_eq.
  - destruct (Nat.eqb_spec columnIndex (length (columnWidths l))) as [->|Hne];
      simpl; [|reflexivity].
    rewrite length_app. simpl.
    destruct (Nat.ltb_spec (length (columnWidths l))
                (length (columnWidths l) + 1)); [|lia].
    unfold setColumnWidths. simpl. do 2 f_equal.
    rewrite insert_app_r_alt by lia. now rewrite Nat.sub_diag.
Qed.

Lemma arrayMove_Forall {A} (P : A -> Prop) (l l' : list A) (from to : Z) :
  arrayMove l from to = Some l' -> Forall P l -> Forall P l'.
Proof.
  unfold arrayMove. intros Hmove Hall.
  destruct (l !! JS.relativeStart (length l) from) as [x|] eqn:Hx;
    [|discriminate].
  simpl in Hmove. injection Hmove as <-. unfold JS.splice_insert.
  assert (Hdel : Forall P (delete (JS.relativeStart (length l) from) l))
    by now apply Forall_delete.
  apply Forall_app. split; [now apply Forall_take|].
  constructor; [|now apply Forall_drop].
  rewrite Forall_lookup in Hall. exact (Hall _ _ Hx).
Qed.

Lemma commit_minWidths (v : View) (u : Update) :
  minWidths (u_local u) -> minWidths (local (commit v u)).
Proof.
  unfold commit, minWidths. intros Hmin.
  destruct (u_data u) as [d|]; [|exact Hmin]. simpl.
  destruct (decide _); simpl; [exact Hmin|].
  apply Forall_replicate. lia.
Qed.

(** X3: no operation on the table makes a column narrower than 100:
    where every width is at least 100, it is so after any structural
    operation (the inserted and the reset widths are 150). *)
Theorem gridStep_keeps_minimum_width (op : GridOp) (v v' : View) :
  minWidths (local v) -> gridStep op v = Some v' -> minWidths (local v').
Proof.
  intros Hmin Hstep. pose proof Hmin as Hall. unfold minWidths in Hall.
  destruct op as [|i|i|i| | |active over|i dir|r c x|c x|config];
    simpl in Hstep.
  - injection Hstep as <-. apply commit_minWidths. unfold minWidths. simpl.
    apply Forall_app. split; [assumption|]. constructor; [lia|constructor].
  - injection Hstep as <-. apply commit_minWidths. unfold minWidths. simpl.
    unfold JS.splice_insert. apply Forall_app.
    split; [now apply Forall_take|].
    constructor; [lia|now apply Forall_drop].
  - injection Hstep as <-. apply commit_minWidths. unfold minWidths. simpl.
    unfold JS.splice_insert. apply Forall_app.
    split; [now apply Forall_take|].
    constructor; [lia|now apply Forall_drop].
  - injection Hstep as <-. apply commit_minWidths. unfold deleteColumn.
    destruct (_ <=? 1); [exact Hmin|]. unfold minWidths. simpl.
    now apply filteri_from_Forall.
  - injection Hstep as <-. now apply commit_minWidths.
  - injection Hstep as <-. now apply commit_minWidths.
  - unfold handleDragEnd in Hstep.
    destruct over as [over_id|]; simpl in Hstep.
    2:{ injection Hstep as <-. now apply commit_minWidths. }
    destruct (negb (String.eqb active over_id)); simpl in Hstep.
    2:{ injection Hstep as <-. now apply commit_minWidths. }
    destruct (arrayMove (headers (data v)) _ _); [|discriminate].
    simpl in Hstep. destruct (mapM _ _); [|discriminate]. simpl in Hstep.
    destruct (arrayMove (columnWidths (local v)) _ _) as [w|] eqn:Hw;
      [|discriminate].
    simpl in Hstep. injection Hstep as <-. apply commit_minWidths.
    unfold minWidths. simpl. exact (arrayMove_Forall _ _ _ _ _ Hw Hall).
  - injection Hstep as <-. now apply commit_minWidths.
  - unfold handleCellChange in Hstep.
    destruct (rows (data v) !! r) as [row|]; [|discriminate]. simpl in Hstep.
    destruct (JS.assign row c x); [|discriminate]. simpl in Hstep.
    injection Hstep as <-. now apply commit_minWidths.
  - unfold handleHeaderChange in Hstep.
    destruct (JS.assign (headers (data v)) c x); [|discriminate].
    simpl in Hstep. injection Hstep as <-. now apply commit_minWidths.
  - injection Hstep as <-. now apply commit_minWidths.
Qed.

Lemma gridStep_keeps_minimum_width_witness :
  minWidths
    (local (commit three_column_view (deleteColumn 0 three_column_view))).
Proof.
  apply (gridStep_keeps_minimum_width (DeleteColumn 0) three_column_view).
  - unfold minWidths. simpl. repeat constructor; lia.
  - reflexivity.
Defined.

End Resize.

(** ** The selection, row deletion and export *)

Section Selection.
Import DataTable.

(** X4: toggling the selection of the same row twice gives back the view
    it started from. *)
Theorem toggleRowSelection_twice (rowIndex : nat) (v : View) :
  let v1 := commit v (toggleRowSelection rowIndex v) in
  commit v1 (toggleRowSelection rowIndex v1) = v.
Proof.
  destruct v as [d [w s c]]. unfold toggleRowSelection, commit. simpl.
  unfold setSelectedRows. simpl. do 2 f_equal.
  apply set_eq. intros i.
  destruct (decide (rowIndex ∈ s)) as [Hin|Hnot].
  - destruct (decide (rowIndex ∈ s ∖ {[rowIndex]})) as [Hin'|_].
    + apply elem_of_difference in Hin' as [_ Hne].
      exfalso. apply Hne. now apply elem_of_singleton.
    + rewrite elem_of_union, elem_of_difference, elem_of_singleton.
      destruct (decide (i = rowIndex)) as [->|Hne]; tauto.
  - destruct (decide (rowIndex ∈ s ∪ {[rowIndex]})) as [_|Hnot'].
    + rewrite elem_of_difference, elem_of_union, elem_of_singleton.
      destruct (decide (i = rowIndex)) as [->|Hne]; tauto.
    + exfalso. apply Hnot'. apply elem_of_union. right.
      now apply elem_of_singleton.
Qed.

(** X5: an operation that changes the table clears the row selection:
    after a structural operation either the table is the one before or
    no row is selected (the effect keyed on the table runs after every
    [onDataChange]; editing one cell is enough). *)
Theorem gridStep_changing_data_clears_selection (op : GridOp) (v v' : View) :
  gridStep op v = Some v' ->
  data v' = data v \/ selectedRows (local v') = ∅.
Proof.
  intros Hstep.
  destruct op as [|i|i|i| | |active over|i dir|r c x|c x|config];
    simpl in Hstep.
  - injection Hstep as <-. now right.
  - injection Hstep as <-. now right.
  - injection Hstep as <-. now right.
  - injection Hstep as <-. unfold deleteColumn.
    destruct (_ <=? 1); [now left|now right].
  - injection Hstep as <-. now right.
  - injection Hstep as <-. now right.
  - unfold handleDragEnd in Hstep.
    destruct over as [over_id|]; simpl in Hstep.
    2:{ injection Hstep as <-. now left. }
    destruct (negb (String.eqb active over_id)); simpl in Hstep.
    2:{ injection Hstep as <-. now left. }
    destruct (arrayMove (headers (data v)) _ _); [|discriminate].
    simpl in Hstep. destruct (mapM _ _); [|discriminate]. simpl in Hstep.
    destruct (arrayMove (columnWidths (local v)) _ _); [|discriminate].
    simpl in Hstep. injection Hstep as <-. now right.
  - injection Hstep as <-. now right.
  - unfold handleCellChange in Hstep.
    destruct (rows (data v) !! r) as [row|]; [|discriminate]. simpl in Hstep.
    destruct (JS.assign row c x); [|discriminate]. simpl in Hstep.
    injection Hstep as <-. now right.
  - unfold handleHeaderChange in Hstep.
    destruct (JS.assign (headers (data v)) c x); [|discriminate].
    simpl in Hstep. injection Hstep as <-. now right.
  - injection Hstep as <-.
    destruct (LeadScoringModal.handleApplyScoreToData _ _);
      [now right|now left].
Qed.

Lemma gridStep_changing_data_clears_selection_witness :
  selectedRows
    (local (commit three_column_view
              (sortColumn 0 desc three_column_view))) = ∅.
Proof.
  destruct (gridStep_changing_data_clears_selection (SortColumn 0 desc)
              three_column_view _ eq_refl) as [Hsame|Hclear].
  - vm_compute in Hsame. discriminate.
  - exact Hclear.
Defined.

(** *** Filtering rows by a set of indices *)

Lemma filteri_from_ext {A} (p q : A -> nat -> bool) (k : nat) (l : list A) :
  (forall x i, k <= i < k + length l -> p x i = q x i) ->
  JS.filteri_from p k l = JS.filteri_from q k l.
Proof.
  revert k. induction l as [|x l IH]; intros k Hext; simpl; [reflexivity|].
  rewrite (Hext x k) by (simpl; lia).
  rewrite (IH (S k)) by (intros y i Hi; apply Hext; simpl; lia).
  reflexivity.
Qed.

Lemma filteri_from_snoc {A} (p : A -> nat -> bool) (k : nat) (l : list A)
    (x : A) :
  JS.filteri_from p k (l ++ [x])
  = JS.filteri_from p k l ++ (if p x (k + length l) then [x] else []).
Proof.
  revert k. induction l as [|y l IH]; intros k; simpl.
  - rewrite Nat.add_0_r. now destruct (p x k).
  - rewrite IH. replace (S k + length l) with (k + S (length l)) by lia.
    now destruct (p y k).
Qed.

Lemma filteri_from_partition {A} (p : A -> nat -> bool) (k : nat) (l : list A) :
  JS.filteri_from p k l ++ JS.filteri_from (fun x i => negb (p x i)) k l ≡ₚ l.
Proof.
  revert k. induction l as [|x l IH]; intros k; simpl; [reflexivity|].
  destruct (p x k); simpl.
  - now rewrite IH.
  - rewrite <- Permutation_middle. now rewrite IH.
Qed.

Lemma filteri_from_sublist {A} (p : A -> nat -> bool) (k : nat) (l : list A) :
  JS.filteri_from p k l `sublist_of` l.
Proof.
  revert k. induction l as [|x l IH]; intros k; simpl; [constructor|].
  destruct (p x k); [apply sublist_skip|apply sublist_cons]; apply IH.
Qed.

(** The rows at the indices of [s], when they are all indices of rows,
    are as many as [s] has elements. *)
Lemma filteri_selected_length {A} (l : list A) (s : gset nat) :
  (forall i, i ∈ s -> i < length l) ->
  length (JS.filteri (fun _ index => bool_decide (index ∈ s)) l) = size s.
Proof.
  unfold JS.filteri. revert s.
  induction l as [|x l IH] using rev_ind; intros s Hin.
  - simpl. symmetry. apply size_empty_iff, elem_of_equiv_empty.
    intros i Hi. specialize (Hin i Hi). simpl in Hin. lia.
  - rewrite filteri_from_snoc, length_app. simpl (0 + _).
    assert (Hlt : forall i, i ∈ s -> i <> length l -> i < length l).
    { intros i Hi Hne. specialize (Hin i Hi). rewrite length_app in Hin.
      simpl in Hin. lia. }
    destruct (decide (length l ∈ s)) as [Hlast|Hlast].
    + rewrite bool_decide_eq_true_2 by assumption. simpl.
      rewrite (filteri_from_ext _
                 (fun _ index => bool_decide (index ∈ s ∖ {[length l]}))).
      2:{ intros y i Hi. apply bool_decide_ext.
          rewrite elem_of_difference, elem_of_singleton.
          split; [intros Hs; split; [exact Hs|lia] | tauto]. }
      rewrite IH.
      2:{ intros i Hi. apply elem_of_difference in Hi as [Hi Hne].
          apply Hlt; [exact Hi|]. intros ->. apply Hne.
          now apply elem_of_singleton. }
      rewrite size_difference by now apply singleton_subseteq_l.
      rewrite size_singleton.
      assert (size s <> 0).
      { intros H0. apply size_empty_iff in H0. rewrite H0 in Hlast.
        now apply not_elem_of_empty in Hlast. }
      lia.
    + rewrite bool_decide_eq_false_2 by assumption. simpl.
      rewrite IH; [lia|].
      intros i Hi. apply Hlt; [exact Hi|]. intros ->. contradiction.
Qed.

(** X6: [deleteSelectedRows] removes the selected rows and nothing else:
    the rows left are rows of the table in their order, and when every
    selected index is the index of a row, they are fewer by the size of
    the selection; the headers are kept and the selection is emptied. *)
Theorem deleteSelectedRows_removes_the_selection (v : View) :
  let v' := commit v (deleteSelectedRows v) in
  headers (data v') = headers (data v)
  /\ rows (data v') `sublist_of` rows (data v)
  /\ selectedRows (local v') = ∅
  /\ (selectionInRange v ->
      length (rows (data v')) + size (selectedRows (local v))
      = length (rows (data v))).
Proof.
  simpl. split; [reflexivity|]. split; [|split; [reflexivity|]].
  - apply filteri_from_sublist.
  - intros Hin. unfold commit, deleteSelectedRows. simpl.
    rewrite <- (filteri_selected_length (rows (data v)) _ Hin).
    rewrite Nat.add_comm, <- length_app.
    apply Permutation_length. unfold JS.filteri.
    exact (filteri_from_partition _ 0 (rows (data v))).
Qed.

(** X7: with a selection, [exportToCSV] writes the selected rows, which
    are the rows that [deleteSelectedRows] would remove: together with
    the rows it would keep they make up the table; and when every
    selected index is the index of a row, the file holds as many rows as
    its name says. *)
Theorem exportToCSV_writes_the_selection (v : View) :
  0 < size (selectedRows (local v)) ->
  let e := exportToCSV v in
  fields e = headers (data v)
  /\ exported e ++ rows (data (commit v (deleteSelectedRows v)))
     ≡ₚ rows (data v)
  /\ exported e `sublist_of` rows (data v)
  /\ (selectionInRange v ->
      filename e
      = String.append "leadsmanager-selected-"
          (String.append
             (NilZero.string_of_uint (Nat.to_uint (length (exported e))))
             "-rows.csv")).
Proof.
  intros Hsel. unfold exportToCSV. simpl.
  destruct (Nat.ltb_spec 0 (size (selectedRows (local v)))) as [_|Hbad];
    [|lia].
  split; [reflexivity|]. split; [|split].
  - exact (filteri_from_partition _ 0 (rows (data v))).
  - apply filteri_from_sublist.
  - intros Hin. now rewrite (filteri_selected_length _ _ Hin).
Qed.

Lemma exportToCSV_writes_the_selection_witness :
  exported (exportToCSV three_column_view) = [["Beta"; "Small"; "Rome"]]
  /\ filename (exportToCSV three_column_view)
     = "leadsmanager-selected-1-rows.csv".
Proof.
  destruct (exportToCSV_writes_the_selection three_column_view)
    as (_ & _ & _ & Hname).
  - vm_compute. lia.
  - split; [reflexivity|]. rewrite Hname; [reflexivity|].
    intros i Hi. simpl in Hi. apply elem_of_singleton in Hi as ->.
    simpl. lia.
Defined.

End Selection.

(** ** Inserting, deleting, sorting and editing *)

Section ColumnOperations.
Import DataTable.

Lemma filteri_from_all {A} (p : A -> nat -> bool) (k : nat) (l : list A) :
  (forall x i, k <= i -> p x i = true) -> JS.filteri_from p k l = l.
Proof.
  revert k. induction l as [|x l IH]; intros k Hall; simpl; [reflexivity|].
  rewrite Hall by lia. f_equal. apply IH. intros y i Hi. apply Hall. lia.
Qed.

(** Filtering out the index at which an element was spliced in gives
    back the array. *)
Lemma filteri_from_splice_insert {A} (k j : nat) (x : A) (l : list A) :
  k <= length l ->
  JS.filteri_from (fun _ index => negb (index =? j + k)) j
    (JS.splice_insert k x l) = l.
Proof.
  unfold JS.splice_insert. revert j l.
  induction k as [|k IH]; intros j l Hk.
  - rewrite take_0, drop_0. simpl. rewrite Nat.add_0_r, Nat.eqb_refl. simpl.
    apply filteri_from_all. intros y i Hi.
    destruct (Nat.eqb_spec i j); [lia|reflexivity].
  - destruct l as [|y l]; [simpl in Hk; lia|]. simpl.
    destruct (Nat.eqb_spec j (j + S k)); [lia|]. simpl. f_equal.
    replace (j + S k) with (S j + k) by lia.
    apply IH. simpl in Hk. lia.
Qed.

(** X8: on a table with at least one column whose rows all have the
    length of the header list, inserting a column to the left of a column
    (or after the last one) and then deleting the column at that index
    gives back the headers and the rows. *)
Theorem insertColumnLeft_then_deleteColumn (columnIndex : nat) (v : View) :
  rectangular (data v) ->
  1 <= length (headers (data v)) ->
  columnIndex <= length (headers (data v)) ->
  let v1 := commit v (insertColumnLeft columnIndex v) in
  data (commit v1 (deleteColumn columnIndex v1)) = data v.
Proof.
  intros Hrect Hone Hk v1.
  assert (Hd1 : data v1
                = mkTableData
                    (JS.splice_insert columnIndex
                       (columnName (length (headers (data v)) + 1))
                       (headers (data v)))
                    (map (JS.splice_insert columnIndex "") (rows (data v))))
    by reflexivity.
  unfold deleteColumn.
  rewrite Hd1. simpl.
  rewrite splice_insert_length.
  destruct (Nat.leb_spec (S (length (headers (data v)))) 1) as [Hle|_]; [lia|].
  rewrite commit_data. destruct (data v) as [hs rs]. simpl in *. f_equal.
  - exact (filteri_from_splice_insert columnIndex 0 _ hs Hk).
  - rewrite map_map. rewrite <- (map_id rs) at 2.
    apply map_ext_in. intros row Hrow.
    unfold rectangular in Hrect. simpl in Hrect.
    rewrite List.Forall_forall in Hrect. specialize (Hrect row Hrow).
    apply (filteri_from_splice_insert columnIndex 0). lia.
Qed.

Lemma insertColumnLeft_then_deleteColumn_witness :
  data (commit (commit scenario_view (insertColumnLeft 1 scenario_view))
          (deleteColumn 1
             (commit scenario_view (insertColumnLeft 1 scenario_view))))
  = data scenario_view.
Proof.
  apply (insertColumnLeft_then_deleteColumn 1 scenario_view).
  - repeat constructor.
  - simpl. lia.
  - simpl. lia.
Defined.

(** *** Sorting twice *)

Lemma insertSorted_head {A} (cmp : A -> A -> comparison) (x : A) (l : list A) :
  Forall (fun y => cmp x y <> Gt) l -> JS.insertSorted cmp x l = x :: l.
Proof.
  intros Hall. destruct Hall as [|y l Hy _]; simpl; [reflexivity|].
  destruct (cmp x y); [reflexivity..|contradiction].
Qed.

Lemma sort_sorted_id {A} (cmp : A -> A -> comparison) (l : list A) :
  StronglySorted (fun a b => cmp a b <> Gt) l -> JS.sort cmp l = l.
Proof.
  induction 1 as [|x l _ IH Hx]; [reflexivity|].
  unfold JS.sort in *. simpl. rewrite IH. now apply insertSorted_head.
Qed.

Lemma compareRows_antisym (isNumeric : bool) (col : nat) (dir : direction)
    (a b : list string) :
  compareRows isNumeric col dir b a = CompOpp (compareRows isNumeric col dir a b).
Proof.
  destruct isNumeric.
  - rewrite !compareRows_numeric. apply by_key_antisym, number_compare_antisym.
  - rewrite !compareRows_text. apply by_key_antisym, string_compare_antisym.
Qed.

Lemma compareRows_le_trans (isNumeric : bool) (col : nat) (dir : direction)
    (a b c : list string) :
  compareRows isNumeric col dir a b <> Gt ->
  compareRows isNumeric col dir b c <> Gt ->
  compareRows isNumeric col dir a c <> Gt.
Proof.
  destruct isNumeric.
  - rewrite !compareRows_numeric. apply by_key_le_trans;
      [apply number_compare_antisym | apply number_compare_le_trans].
  - rewrite !compareRows_text. apply by_key_le_trans;
      [apply string_compare_antisym | apply string_compare_le_trans].
Qed.

Lemma filter_length_Permutation {A} (p : A -> bool) (l l' : list A) :
  l ≡ₚ l' -> length (List.filter p l) = length (List.filter p l').
Proof.
  induction 1 as [|x l l' _ IH|x y l|l l' l'' _ IH1 _ IH2]; simpl.
  - reflexivity.
  - destruct (p x); simpl; now rewrite IH.
  - destruct (p x), (p y); reflexivity.
  - now rewrite IH1.
Qed.

(** Whether a column is numeric does not depend on the order of the
    rows. *)
Lemma isNumericColumn_Permutation (col : nat) (hs hs' : list string)
    (rs rs' : list (list string)) :
  rs ≡ₚ rs' ->
  isNumericColumn col (mkTableData hs rs)
  = isNumericColumn col (mkTableData hs' rs').
Proof.
  intros Hperm. unfold isNumericColumn, columnValues. simpl.
  assert (Hvalues :
    omap (fun row => if JS.nonBlank (row !! col) then row !! col else None) rs
    ≡ₚ omap (fun row => if JS.nonBlank (row !! col) then row !! col else None) rs')
    by now apply omap_Permutation.
  rewrite (Permutation_length Hvalues).
  now rewrite (filter_length_Permutation isNumericValue _ _ Hvalues).
Qed.

(** X9: sorting is idempotent: sorting by a column and a direction a
    table that was just sorted by that column and direction changes
    neither the headers nor the rows. *)
Theorem sortColumn_twice (columnIndex : nat) (dir : direction) (v : View) :
  let v1 := commit v (sortColumn columnIndex dir v) in
  data (commit v1 (sortColumn columnIndex dir v1)) = data v1.
Proof.
  intros v1.
  set (cmp := compareRows (isNumericColumn columnIndex (data v)) columnIndex dir).
  assert (Hd1 : data v1
                = mkTableData (headers (data v)) (JS.sort cmp (rows (data v))))
    by reflexivity.
  assert (Hperm : JS.sort cmp (rows (data v)) ≡ₚ rows (data v))
    by apply sort_Permutation.
  assert (Hd : mkTableData (headers (data v)) (rows (data v)) = data v)
    by now destruct (data v).
  unfold sortColumn. rewrite commit_data, Hd1. simpl. f_equal.
  rewrite (isNumericColumn_Permutation columnIndex _ (headers (data v)) _ _ Hperm).
  rewrite Hd. fold cmp. apply sort_sorted_id.
  apply sort_sorted.
  - apply compareRows_antisym.
  - apply compareRows_le_trans.
Qed.

(** *** Editing a cell *)

(** X10: editing a cell that exists writes the text to that cell and to
    no other: the headers are kept, the cell reads back as the new text
    and every other cell reads as before. *)
Theorem handleCellChange_writes_one_cell (rowIndex colIndex : nat)
    (value : string) (v : View) (row : list string) :
  rows (data v) !! rowIndex = Some row -> colIndex < length row ->
  exists u d',
    handleCellChange rowIndex colIndex value v = Some u
    /\ u_data u = Some d'
    /\ headers d' = headers (data v)
    /\ cellAt d' rowIndex colIndex = Some value
    /\ (forall r c, (r, c) <> (rowIndex, colIndex) ->
          cellAt d' r c = cellAt (data v) r c).
Proof.
  intros Hrow Hcol. unfold handleCellChange. rewrite Hrow. simpl.
  rewrite assign_in_range by assumption. simpl.
  eexists. eexists. split; [reflexivity|]. split; [reflexivity|].
  pose proof (lookup_lt_Some _ _ _ Hrow) as Hr.
  split; [reflexivity|]. unfold cellAt. simpl. split.
  - rewrite list_lookup_insert_eq by assumption. simpl.
    now apply list_lookup_insert_eq.
  - intros r c Hne. destruct (decide (r = rowIndex)) as [->|Hr'].
    + rewrite list_lookup_insert_eq by assumption. rewrite Hrow. simpl.
      apply list_lookup_insert_ne. congruence.
    + now rewrite list_lookup_insert_ne.
Qed.

Lemma handleCellChange_writes_one_cell_witness :
  exists u d',
    handleCellChange 1 0 "Gamma" scenario_view = Some u
    /\ u_data u = Some d'
    /\ cellAt d' 1 0 = Some "Gamma"
    /\ cellAt d' 0 1 = Some "Large".
Proof.
  destruct (handleCellChange_writes_one_cell 1 0 "Gamma" scenario_view
              ["Beta"; "Small"] eq_refl)
    as (u & d' & Hu & Hd & _ & Hcell & Hothers).
  - simpl. lia.
  - exists u, d'. split; [exact Hu|]. split; [exact Hd|].
    split; [exact Hcell|]. rewrite Hothers by congruence. reflexivity.
Defined.

End ColumnOperations.

(** ** Operations that amount to the same *)

Section Compositions.
Import DataTable.

Lemma splice_insert_at_end {A} (k : nat) (x : A) (l : list A) :
  length l <= k -> JS.splice_insert k x l = l ++ [x].
Proof.
  intros Hk. unfold JS.splice_insert.
  now rewrite take_ge, drop_ge by exact Hk.
Qed.

(** X11: on a table whose rows all have the length of the header list,
    with one width per header, inserting a column to the right of the
    last column is adding a column: the same widths are set and the same
    table is passed on. *)
Theorem insertColumnRight_of_last_is_addColumn (v : View) :
  rectangular (data v) -> widths_aligned v ->
  insertColumnRight (length (headers (data v)) - 1) v = addColumn v.
Proof.
  intros Hrect Hw. unfold insertColumnRight, insertColumnAt, addColumn.
  unfold widths_aligned in Hw.
  rewrite !splice_insert_at_end by lia. do 3 f_equal.
  apply map_ext_in. intros row Hrow.
  unfold rectangular in Hrect. rewrite List.Forall_forall in Hrect.
  specialize (Hrect row Hrow). simpl in Hrect.
  apply splice_insert_at_end. lia.
Qed.

Lemma insertColumnRight_of_last_is_addColumn_witness :
  insertColumnRight 1 scenario_view = addColumn scenario_view.
Proof.
  apply (insertColumnRight_of_last_is_addColumn scenario_view).
  - repeat constructor.
  - reflexivity.
Defined.

Lemma filteri_from_none {A} (p : A -> nat -> bool) (k : nat) (l : list A) :
  (forall x i, k <= i < k + length l -> p x i = false) ->
  JS.filteri_from p k l = [].
Proof.
  revert k. induction l as [|x l IH]; intros k Hnone; simpl; [reflexivity|].
  rewrite Hnone by (simpl; lia). apply IH.
  intros y i Hi. apply Hnone. simpl. lia.
Qed.

(** X12: selecting all the rows, when they are not all selected, and
    deleting the selection leaves the headers and no row. *)
Theorem selectAllRows_then_deleteSelectedRows (v : View) :
  size (selectedRows (local v)) <> length (rows (data v)) ->
  let v1 := commit v (selectAllRows v) in
  data (commit v1 (deleteSelectedRows v1)) = mkTableData (headers (data v)) [].
Proof.
  intros Hsize v1.
  assert (Hsel : selectedRows (local v1)
                 = list_to_set (imap (fun index _ => index) (rows (data v))))
    by now apply selectAllRows_when_not_full.
  assert (Hdata : data v1 = data v) by apply selectAllRows_data.
  unfold deleteSelectedRows. rewrite commit_data, Hsel, Hdata. f_equal.
  apply filteri_from_none. intros row i Hi.
  apply negb_false_iff, bool_decide_eq_true_2, elem_of_all_rows. lia.
Qed.

Lemma selectAllRows_then_deleteSelectedRows_witness :
  data (commit (commit three_column_view (selectAllRows three_column_view))
          (deleteSelectedRows
             (commit three_column_view (selectAllRows three_column_view))))
  = mkTableData ["Name"; "Size"; "City"] [].
Proof.
  apply (selectAllRows_then_deleteSelectedRows three_column_view).
  vm_compute. lia.
Defined.

End Compositions.

(** ** The header editor and the tab editor *)

Section Editors.

Lemma trimEnd_cons (c : ascii) (s : string) :
  JS.trimEnd (String c s)
  = match JS.trimEnd s with
    | EmptyString =>
        if JS.isWhiteSpace c then EmptyString else String c EmptyString
    | t => String c t
    end.
Proof. reflexivity. Qed.

Lemma trimEnd_idempotent (s : string) :
  JS.trimEnd (JS.trimEnd s) = JS.trimEnd s.
Proof.
  induction s as [|c s IH]; [reflexivity|].
  rewrite trimEnd_cons. destruct (JS.trimEnd s) as [|d t] eqn:He.
  - destruct (JS.isWhiteSpace c) eqn:Hc; [reflexivity|].
    rewrite trimEnd_cons. simpl. now rewrite Hc.
  - rewrite trimEnd_cons, IH. reflexivity.
Qed.

Lemma trimEnd_keeps_head (c : ascii) (s : string) :
  JS.isWhiteSpace c = false ->
  JS.trimEnd (String c s) = String c (JS.trimEnd s).
Proof.
  intros Hc. rewrite trimEnd_cons, Hc. now destruct (JS.trimEnd s).
Qed.

Lemma trimStart_shape (s : string) :
  JS.trimStart s = EmptyString
  \/ exists c r, JS.trimStart s = String c r /\ JS.isWhiteSpace c = false.
Proof.
  induction s as [|c s IH]; simpl; [now left|].
  destruct (JS.isWhiteSpace c) eqn:Hc; [exact IH|].
  right. now exists c, s.
Qed.

(** Trimming a trimmed text changes nothing. *)
Lemma trim_idempotent (s : string) : JS.trim (JS.trim s) = JS.trim s.
Proof.
  unfold JS.trim.
  destruct (trimStart_shape s) as [->|(c & r & -> & Hc)]; [reflexivity|].
  rewrite (trimEnd_keeps_head c r Hc). simpl JS.trimStart. rewrite Hc.
  rewrite <- (trimEnd_keeps_head c r Hc). apply trimEnd_idempotent.
Qed.

(** X13: the header editor never blanks a header.  What it passes to
    [handleHeaderChange] is not blank when the header it edits is not;
    and when the text typed is blank, the table passed to
    [onDataChange] is the table as it was. *)
Theorem handleHeaderSave_never_blanks (tempHeader header : string)
    (colIndex : nat) (v : DataTable.View) :
  headers (DataTable.data v) !! colIndex = Some header ->
  let value := DataTable.handleHeaderSave tempHeader header in
  (JS.truthy (JS.trim header) = true -> JS.truthy (JS.trim value) = true)
  /\ (JS.truthy (JS.trim tempHeader) = false ->
      DataTable.handleHeaderChange colIndex value v
      = Some (DataTable.mkUpdate (DataTable.local v) (Some (DataTable.data v)))).
Proof.
  intros Hh. unfold DataTable.handleHeaderSave. simpl. split.
  - intros Hold.
    destruct (JS.truthy (JS.trim tempHeader)) eqn:Ht; [|exact Hold].
    now rewrite trim_idempotent.
  - intros ->. unfold DataTable.handleHeaderChange.
    rewrite assign_in_range by (eapply lookup_lt_Some; exact Hh). simpl.
    rewrite list_insert_id by exact Hh. now destruct (DataTable.data v).
Qed.

Lemma handleHeaderSave_never_blanks_witness :
  DataTable.handleHeaderChange 1
    (DataTable.handleHeaderSave "   " "Size") scenario_view
  = Some (DataTable.mkUpdate (DataTable.local scenario_view)
            (Some (DataTable.data scenario_view))).
Proof.
  apply (handleHeaderSave_never_blanks "   " "Size" 1 scenario_view);
    reflexivity.
Defined.

End Editors.

(** ** The registry: the active sheet, imports and renaming *)

Section ActiveSheet.
Import App.

Lemma find_app_none {A} (p : A -> bool) (l k : list A) :
  (forall x, x ∈ l -> p x = false) -> List.find p (l ++ k) = List.find p k.
Proof.
  induction l as [|x l IH]; intros Hnone; simpl; [reflexivity|].
  rewrite (Hnone x) by (now left). apply IH.
  intros y Hy. apply Hnone. now right.
Qed.

Lemma find_map_same {A} (p : A -> bool) (f : A -> A) (l : list A) :
  (forall x, p (f x) = p x) -> List.find p (map f l) = f <$> List.find p l.
Proof.
  intros Hp. induction l as [|x l IH]; simpl; [reflexivity|].
  rewrite Hp. destruct (p x); [reflexivity|exact IH].
Qed.

Lemma nextSheetId_unused (st : State) (s : Sheet) :
  s ∈ sheets st -> String.eqb (id s) (JS.Z_toString (nextSheetId st)) = false.
Proof.
  intros Hs. apply String.eqb_neq. intros Heq.
  apply (nextSheetId_fresh st). rewrite <- Heq.
  apply list_elem_of_fmap. now exists s.
Qed.

Lemma activeExists_currentSheet (st : State) :
  activeExists st ->
  exists sheet, currentSheet st = Some sheet /\ id sheet = activeSheetId st.
Proof.
  unfold activeExists, currentSheet. intros Hin.
  apply list_elem_of_fmap in Hin as (s & Hid & Hs).
  destruct (List.find _ (sheets st)) as [sheet|] eqn:Hfind.
  - exists sheet. split; [reflexivity|].
    apply find_some in Hfind as [_ Heq]. now apply String.eqb_eq in Heq.
  - exfalso. apply list_elem_of_In in Hs.
    pose proof (find_none _ _ Hfind s Hs) as Hno. simpl in Hno.
    rewrite <- Hid, String.eqb_refl in Hno. discriminate.
Qed.

(** X14: in a registry whose numeric ids are below 2^53, importing into
    a new sheet is [addNewSheet] followed by [handleDataChange]: the
    sheets there were are untouched, and the current sheet is the new
    one, named after its id and holding the imported table. *)
Theorem handleImportData_new_adds_a_sheet (d : TableData) (st : State) :
  exactIds st ->
  let st' := handleImportData d new st in
  st' = handleDataChange (Some d) (addNewSheet st)
  /\ take (length (sheets st)) (sheets st') = sheets st
  /\ currentSheet st'
     = Some (mkSheet (activeSheetId st')
               (String.append "Sheet " (activeSheetId st')) (Some d)).
Proof.
  intros _. simpl. split; [|split].
  - unfold handleDataChange, addNewSheet. simpl. f_equal.
    rewrite map_app. simpl. rewrite String.eqb_refl. f_equal.
    rewrite <- (map_id (sheets st)) at 1. apply map_ext_in.
    intros s Hs. apply list_elem_of_In in Hs.
    now rewrite (nextSheetId_unused st s Hs).
  - apply take_app_length.
  - unfold currentSheet. simpl.
    rewrite find_app_none by (intros s Hs; now apply nextSheetId_unused).
    simpl. now rewrite String.eqb_refl.
Qed.

Lemma handleImportData_new_adds_a_sheet_witness :
  currentSheet (handleImportData p6_table new three_sheets)
  = Some (mkSheet "4" "Sheet 4" (Some p6_table)).
Proof.
  destruct (handleImportData_new_adds_a_sheet p6_table three_sheets)
    as (_ & _ & Hcurrent).
  - intros s z Hs Hz. apply list_elem_of_In in Hs. simpl in Hs.
    destruct Hs as [<-|[<-|[<-|[]]]]; vm_compute in Hz;
      injection Hz as <-; reflexivity.
  - exact Hcurrent.
Defined.

(** X15: [handleDataChange] replaces the table of the current sheet and
    nothing else: the current sheet keeps its id and its name and holds
    the new table; the active id, and the ids and names of all the
    sheets, are kept; every sheet with another id is untouched. *)
Theorem handleDataChange_replaces_current_table (d : option TableData)
    (st : State) :
  activeExists st ->
  let st' := handleDataChange d st in
  (exists sheet,
      currentSheet st = Some sheet
      /\ currentSheet st' = Some (mkSheet (id sheet) (name sheet) d))
  /\ activeSheetId st' = activeSheetId st
  /\ map id (sheets st') = map id (sheets st)
  /\ map name (sheets st') = map name (sheets st)
  /\ (forall i sheet,
        sheets st !! i = Some sheet -> id sheet <> activeSheetId st ->
        sheets st' !! i = Some sheet).
Proof.
  intros Hactive. simpl. split; [|split; [reflexivity|split; [|split]]].
  - destruct (activeExists_currentSheet st Hactive) as (sheet & Hcur & Hid).
    exists sheet. split; [exact Hcur|].
    unfold currentSheet in *. simpl. rewrite find_map_same.
    + rewrite Hcur. simpl. apply String.eqb_eq in Hid. now rewrite Hid.
    + intros s. simpl.
      destruct (String.eqb (id s) (activeSheetId st)) eqn:He; simpl;
        now rewrite ?He.
  - simpl. apply map_id_map. intros s. now destruct (String.eqb _ _).
  - simpl. rewrite map_map. apply map_ext. intros s.
    now destruct (String.eqb _ _).
  - intros i sheet Hi Hne. simpl. rewrite list_lookup_fmap, Hi. simpl.
    apply String.eqb_neq in Hne. now rewrite Hne.
Qed.

Lemma handleDataChange_replaces_current_table_witness :
  currentSheet (handleDataChange (Some p6_table) three_sheets)
  = Some (mkSheet "2" "Sheet 2" (Some p6_table)).
Proof.
  destruct (handleDataChange_replaces_current_table (Some p6_table) three_sheets)
    as ((sheet & Hcur & Hnew) & _).
  - unfold activeExists. simpl. apply (bool_decide_unpack _). vm_compute.
    reflexivity.
  - injection Hcur as <-. exact Hnew.
Defined.

Lemma deleteSheet_activeExists (id_ : string) (st st1 : State) :
  activeExists st -> deleteSheet id_ st = Some st1 -> activeExists st1.
Proof.
  unfold activeExists, deleteSheet. intros Hactive.
  destruct (length (sheets st) <=? 1); [now intros [= <-]|].
  destruct (String.eqb_spec id_ (activeSheetId st)) as [->|Hne].
  - destruct (List.filter _ (sheets st)) as [|first rest]; [discriminate|].
    intros [= <-]. simpl. now left.
  - intros [= <-]. simpl.
    apply list_elem_of_fmap in Hactive as (s & Hid & Hs).
    apply list_elem_of_fmap. exists s. split; [exact Hid|].
    apply list_elem_of_In, filter_In. split; [now apply list_elem_of_In|].
    apply negb_true_iff, String.eqb_neq. congruence.
Qed.

(** X16: the active id always names a sheet.  In a registry with unique
    ids whose active id is the id of a sheet, every operation that the
    tab bar can issue succeeds and leaves a registry whose active id is
    the id of a sheet, so that the current sheet is defined. *)
Theorem step_keeps_current_sheet (op : Op) (st : State) :
  wellFormed st -> activeExists st -> registryIssuable op st ->
  exists st' sheet,
    step op st = Some st'
    /\ activeExists st'
    /\ currentSheet st' = Some sheet
    /\ id sheet = activeSheetId st'.
Proof.
  intros Hwf Hactive Hissue.
  destruct (step_wellFormed op st Hwf) as (st' & Hstep & Hwf').
  assert (Hex : activeExists st').
  { unfold step in Hstep.
    assert (Hcommit : forall st1, 1 <= length (sheets st1) ->
                        Some (commit st1) = Some st' -> st1 = st').
    { intros st1 H1 Heq. rewrite commit_nonempty in Heq by exact H1.
      now injection Heq. }
    pose proof Hwf as [Hlen _].
    destruct op as [|i n|i|i|d|d m]; simpl in Hstep, Hissue.
    - apply Hcommit in Hstep as <-; [|simpl; rewrite length_app; simpl; lia].
      unfold activeExists. simpl. rewrite map_app. apply elem_of_app.
      right. simpl. now left.
    - apply Hcommit in Hstep as <-; [|simpl; now rewrite length_map].
      unfold activeExists in *. simpl. rewrite map_id_map; [exact Hactive|].
      intros s. now destruct (String.eqb _ _).
    - destruct (deleteSheet i st) as [st1|] eqn:Hdel; [|discriminate].
      destruct (deleteSheet_wellFormed i st Hwf) as (st2 & Hdel2 & [Hlen2 _]).
      rewrite Hdel in Hdel2. injection Hdel2 as <-.
      simpl in Hstep. apply Hcommit in Hstep as <-; [|exact Hlen2].
      exact (deleteSheet_activeExists i st st1 Hactive Hdel).
    - apply Hcommit in Hstep as <-; [|exact Hlen]. exact Hissue.
    - apply Hcommit in Hstep as <-; [|simpl; now rewrite length_map].
      unfold activeExists in *. simpl. rewrite map_id_map; [exact Hactive|].
      intros s. now destruct (String.eqb _ _).
    - destruct m.
      + apply Hcommit in Hstep as <-; [|simpl; now rewrite length_map].
        unfold activeExists in *. simpl. rewrite map_id_map; [exact Hactive|].
        intros s. now destruct (String.eqb _ _).
      + apply Hcommit in Hstep as <-; [|simpl; rewrite length_app; simpl; lia].
        unfold activeExists. simpl. rewrite map_app. apply elem_of_app.
        right. simpl. now left. }
  destruct (activeExists_currentSheet st' Hex) as (sheet & Hcur & Hid).
  now exists st', sheet.
Qed.

Lemma step_keeps_current_sheet_witness :
  exists st' sheet,
    step (DeleteSheet "2") three_sheets = Some st'
    /\ activeExists st'
    /\ currentSheet st' = Some sheet
    /\ id sheet = activeSheetId st'.
Proof.
  apply (step_keeps_current_sheet (DeleteSheet "2") three_sheets).
  - split; [simpl; lia|]. apply (bool_decide_unpack _). vm_compute. reflexivity.
  - unfold activeExists. apply (bool_decide_unpack _). vm_compute. reflexivity.
  - exact I.
Defined.

Lemma NoDup_ids_same_sheet (l : list Sheet) (s s' : Sheet) :
  NoDup (map id l) -> s ∈ l -> s' ∈ l -> id s = id s' -> s = s'.
Proof.
  induction l as [|x l IH]; intros Hnd Hs Hs' Hid.
  - now apply elem_of_nil in Hs.
  - simpl in Hnd. apply NoDup_cons in Hnd as [Hx Hnd].
    apply elem_of_cons in Hs as [->|Hs];
      apply elem_of_cons in Hs' as [->|Hs']; auto.
    + exfalso. apply Hx. rewrite Hid. apply list_elem_of_fmap. now exists s'.
    + exfalso. apply Hx. rewrite <- Hid. apply list_elem_of_fmap. now exists s.
Qed.

(** X17: the tab editor never blanks a sheet name.  The name it passes
    to [renameSheet] is not blank when the name it edits is not; and in
    a registry with unique ids, a blank text leaves the registry as it
    was. *)
Theorem SheetTab_handleSave_never_blanks (tempName : string) (sheet : Sheet)
    (st : State) :
  NoDup (map id (sheets st)) -> sheet ∈ sheets st ->
  let newName := SheetTab.handleSave tempName sheet in
  (JS.truthy (JS.trim (name sheet)) = true ->
   JS.truthy (JS.trim newName) = true)
  /\ (JS.truthy (JS.trim tempName) = false ->
      renameSheet (id sheet) newName st = st).
Proof.
  intros Hnd Hsheet. unfold SheetTab.handleSave. simpl. split.
  - intros Hold. destruct (JS.truthy (JS.trim tempName)) eqn:Ht; [|exact Hold].
    now rewrite trim_idempotent.
  - intros ->. unfold renameSheet. destruct st as [l a]. simpl in *. f_equal.
    rewrite <- (map_id l) at 2. apply map_ext_in. intros s Hs.
    apply list_elem_of_In in Hs.
    destruct (String.eqb_spec (id s) (id sheet)) as [Heq|_]; [|reflexivity].
    rewrite <- (NoDup_ids_same_sheet l s sheet Hnd Hs Hsheet Heq).
    now destruct s.
Qed.

Lemma SheetTab_handleSave_never_blanks_witness :
  renameSheet "2" (SheetTab.handleSave "  " (sheet_of "2")) three_sheets
  = three_sheets.
Proof.
  apply (SheetTab_handleSave_never_blanks "  " (sheet_of "2") three_sheets).
  - apply (bool_decide_unpack _). vm_compute. reflexivity.
  - unfold three_sheets. simpl. apply elem_of_cons. right.
    apply elem_of_cons. now left.
  - reflexivity.
Defined.

End ActiveSheet.

(** ** Loading a CSV file *)

Section FileImport.
Import ImportModal.

Lemma filter_sublist {A} (p : A -> bool) (l : list A) :
  List.filter p l `sublist_of` l.
Proof.
  induction l as [|x l IH]; simpl; [constructor|].
  destruct (p x); [now apply sublist_skip|now apply sublist_cons].
Qed.

Lemma nonBlank_trim (cell : string) :
  JS.nonBlank (Some cell) = true <-> JS.trim cell <> EmptyString.
Proof.
  unfold JS.nonBlank. destruct cell as [|c s]; simpl.
  - split; [discriminate|]. intros H. now contradiction H.
  - destruct (JS.trim (String c s)); simpl; split; congruence.
Qed.

Lemma hasContent_spec (row : list string) :
  hasContent row = true
  <-> exists cell, cell ∈ row /\ JS.trim cell <> EmptyString.
Proof.
  unfold hasContent. rewrite existsb_exists. split.
  - intros (cell & Hin & Hnb). exists cell.
    split; [now apply list_elem_of_In|now apply nonBlank_trim].
  - intros (cell & Hin & Hnb). exists cell.
    split; [now apply list_elem_of_In|now apply nonBlank_trim].
Qed.

(** X18: what the import dialog makes of a parsed file.  A file is
    refused when it has no line or when its first line has no field.
    Otherwise the first line gives the headers, of which there is at
    least one, and the rows are the later lines that have a cell with
    something else than white space, in their order; when every later
    line has as many fields as the first, every row is as long as the
    header list. *)
Theorem complete_keeps_rows_with_content (data : list (list string)) :
  match complete data with
  | inl _ => data = [] \/ head data = Some []
  | inr d =>
      head data = Some (headers d)
      /\ 1 <= length (headers d)
      /\ rows d `sublist_of` tail data
      /\ (forall row,
            row ∈ rows d
            <-> row ∈ tail data
                /\ exists cell, cell ∈ row /\ JS.trim cell <> EmptyString)
      /\ (Forall (fun row => length row = length (headers d)) (tail data) ->
          rectangular d)
  end.
Proof.
  unfold complete. destruct data as [|hs rest]; [now left|].
  destruct (Nat.eqb_spec (length hs) 0) as [H0|H0].
  - right. simpl. f_equal. now apply length_zero_iff_nil.
  - simpl. split; [reflexivity|]. split; [lia|]. split; [|split].
    + apply filter_sublist.
    + intros row. rewrite <- hasContent_spec, !list_elem_of_In.
      apply filter_In.
    + intros Hall. unfold rectangular. simpl.
      rewrite List.Forall_forall in *. intros row Hrow.
      apply Hall. now apply filter_In in Hrow.
Qed.

End FileImport.

(** ** The configuration of the score *)

Section Configuration.
Import LeadScoringModal.

(** X19: the level shown for the points of a level is that level, and
    points that belong to no level are shown as [Normal]. *)
Theorem getImportanceLevelByPoints_of_level (level : importance) (points : Z) :
  getImportanceLevelByPoints (IMPORTANCE_LEVELS level) = level
  /\ ((forall l, IMPORTANCE_LEVELS l <> points) ->
      getImportanceLevelByPoints points = Normal).
Proof.
  split; [now destruct level|].
  intros Hnone. unfold getImportanceLevelByPoints, IMPORTANCE_LEVELS_entries.
  cbn [map List.find snd fst IMPORTANCE_LEVELS].
  destruct (Z.eqb_spec 100 points) as [He|_];
    [exfalso; exact (Hnone VeryImportant He)|].
  destruct (Z.eqb_spec 75 points) as [He|_];
    [exfalso; exact (Hnone Important He)|].
  destruct (Z.eqb_spec 50 points) as [He|_];
    [exfalso; exact (Hnone Normal He)|].
  destruct (Z.eqb_spec 25 points) as [He|_];
    [exfalso; exact (Hnone ALittleImportant He)|].
  destruct (Z.eqb_spec 0 points) as [He|_];
    [exfalso; exact (Hnone NotImportant He)|].
  reflexivity.
Qed.

(** X20: assigning a level to the chosen value of a column sets the
    weight of that value in that column to the points of the level and
    changes the weight of no other value of any column; the column then
    has value weights, the column weights and the included columns are
    untouched, and the choice of the value is cleared. *)
Theorem handleAssignImportance_assigns_one_value (columnName : string)
    (st : State) :
  JS.truthy (selectedValue st) = true ->
  let st' := commit (handleAssignImportance columnName st) in
  assignedWeight st' columnName (selectedValue st)
  = Some (IMPORTANCE_LEVELS (selectedImportance st))
  /\ (forall c x, (c, x) <> (columnName, selectedValue st) ->
        assignedWeight st' c x = assignedWeight st c x)
  /\ hasSubcategoryWeights columnName st' = true
  /\ weights st' = weights st
  /\ includedColumns st' = includedColumns st
  /\ selectedValue st' = EmptyString.
Proof.
  intros Hsel. unfold handleAssignImportance. rewrite Hsel.
  unfold commit, assignedWeight, hasSubcategoryWeights. simpl.
  split; [|split; [|split; [|auto]]].
  - rewrite lookup_insert_eq. simpl. apply lookup_insert_eq.
  - intros c x Hne. destruct (decide (c = columnName)) as [->|Hc].
    + rewrite lookup_insert_eq. simpl.
      rewrite lookup_insert_ne by congruence.
      now destruct (subcategoryWeights st !! columnName).
    + now rewrite lookup_insert_ne.
  - rewrite lookup_insert_eq.
    destruct (Nat.ltb_spec 0
                (size (<[selectedValue st:=IMPORTANCE_LEVELS (selectedImportance st)]>
                         (default ∅ (subcategoryWeights st !! columnName)))))
      as [_|Hzero]; [reflexivity|].
    assert (H0 : size (<[selectedValue st:=IMPORTANCE_LEVELS (selectedImportance st)]>
                         (default ∅ (subcategoryWeights st !! columnName))) = 0)
      by lia.
    apply map_size_empty_inv in H0.
    pose proof (lookup_insert_eq
                  (default ∅ (subcategoryWeights st !! columnName))
                  (selectedValue st)
                  (IMPORTANCE_LEVELS (selectedImportance st))) as Hl.
    rewrite H0, lookup_empty in Hl. discriminate.
Qed.

Lemma handleAssignImportance_assigns_one_value_witness :
  assignedWeight cold_clicks "Segment" "Cold" = Some 0%Z.
Proof.
  exact (proj1 (handleAssignImportance_assigns_one_value "Segment"
                  (setSelectedImportance NotImportant
                     (setSelectedValue "Cold"
                        (commit (handleRowClick "Segment"
                                   (commit (addColumn "Segment" opened_config))))))
                  eq_refl)).
Defined.

Lemma totalWeight_insert (m : gmap string Z) (h : string) (old w : Z) :
  m !! h = Some old ->
  map_fold (fun _ weight sum => (sum + weight)%Z) 0%Z (<[h:=w]> m)
  = (map_fold (fun _ weight sum => (sum + weight)%Z) 0%Z m - old + w)%Z.
Proof.
  intros Hold.
  rewrite <- (insert_delete_eq m h w).
  rewrite <- (insert_delete_id m h old Hold) at 2.
  rewrite !map_fold_sum_insert by apply lookup_delete_eq. lia.
Qed.

(** X21: typing a weight for a column that has one stores the number
    read from the text, brought into [0,100] (0 when the text is not a
    number), and changes no other weight: nothing is redistributed, and
    the total moves by the difference.  So in a configuration that was
    valid, a weight that differs from the old one makes the
    configuration invalid, and applying the score is refused. *)
Theorem handleWeightChange_moves_the_total (data : TableData)
    (header value : string) (st : State) (old : Z) :
  weights st !! header = Some old ->
  let st' := commit (handleWeightChange header value st) in
  let w := Z.max 0 (Z.min 100 (JS.orNum (JS.parseInt value) 0)) in
  weights st' !! header = Some w
  /\ (0 <= w <= 100)%Z
  /\ (forall h, h <> header -> weights st' !! h = weights st !! h)
  /\ totalWeight st' = (totalWeight st - old + w)%Z
  /\ (isValidWeight st = true -> w <> old ->
      isValidWeight st' = false /\ handleApplyScoreToData data st' = None).
Proof.
  intros Hold. simpl. unfold commit, handleWeightChange. simpl.
  set (w := Z.max 0 (Z.min 100 (JS.orNum (JS.parseInt value) 0))).
  assert (Htotal : totalWeight (setWeights (<[header:=w]> (weights st)) st)
                   = (totalWeight st - old + w)%Z).
  { unfold totalWeight. simpl. now apply totalWeight_insert. }
  split; [apply lookup_insert_eq|]. split; [lia|]. split; [|split].
  - intros h Hne. now apply lookup_insert_ne.
  - exact Htotal.
  - intros Hvalid Hne. unfold isValidWeight in Hvalid.
    apply andb_true_iff in Hvalid as [Hsum _]. apply Z.eqb_eq in Hsum.
    assert (Hinvalid : isValidWeight (setWeights (<[header:=w]> (weights st)) st)
                       = false).
    { unfold isValidWeight. rewrite Htotal, Hsum.
      destruct (Z.eqb_spec (100 - old + w) 100); [lia|reflexivity]. }
    split; [exact Hinvalid|].
    unfold handleApplyScoreToData. now rewrite Hinvalid.
Qed.

Lemma handleWeightChange_moves_the_total_witness :
  isValidWeight (commit (handleWeightChange "A" "70" p6_config)) = false
  /\ handleApplyScoreToData p6_table
       (commit (handleWeightChange "A" "70" p6_config)) = None.
Proof.
  apply (handleWeightChange_moves_the_total p6_table "A" "70" p6_config 60).
  - reflexivity.
  - reflexivity.
  - vm_compute. discriminate.
Defined.

(** X22: saving a valid configuration under a name that is not blank
    appends it to the saved scores.  Loading that saved score brings
    back its included columns and its value weights, but not its column
    weights: its array of included columns is new to the state, and the
    effect on the included columns replaces the column weights by the
    equal split.  Loading it once more right away passes the array that
    the state holds: the effect does not run, and the column weights are
    the saved ones. *)
Theorem saved_score_loads_with_equal_weights (now : Z) (st st0 : State)
    (lib : Library) :
  JS.truthy (JS.trim (scoreName lib)) = true -> isValidWeight st = true ->
  let score :=
    mkSavedScore (JS.Z_toString now) (JS.trim (scoreName lib))
      (weights st) (subcategoryWeights st) (includedColumns st) in
  let st1 := commit (handleLoadScore false score st0) in
  let st2 := commit (handleLoadScore true score st1) in
  savedScores (handleSaveScore now st lib) = savedScores lib ++ [score]
  /\ includedColumns st1 = includedColumns st
  /\ subcategoryWeights st1 = subcategoryWeights st
  /\ weights st1 = equalWeights (includedColumns st)
  /\ includedColumns st2 = includedColumns st
  /\ subcategoryWeights st2 = subcategoryWeights st
  /\ weights st2 = weights st.
Proof.
  intros Hname Hvalid. simpl.
  unfold handleSaveScore. rewrite Hname, Hvalid. simpl.
  split; [reflexivity|].
  unfold isValidWeight in Hvalid. apply andb_true_iff in Hvalid as [_ Hlen].
  unfold commit, handleLoadScore. simpl. rewrite Hlen. simpl.
  repeat split; reflexivity.
Qed.

Lemma saved_score_loads_with_equal_weights_witness :
  weights p6_config !! "A"%string = Some 60%Z
  /\ weights
       (commit
          (handleLoadScore false
             (mkSavedScore "1700000000000" "Mine" (weights p6_config)
                (subcategoryWeights p6_config) (includedColumns p6_config))
             opened_config)) !! "A"%string = Some 50%Z.
Proof.
  split; [reflexivity|].
  destruct (saved_score_loads_with_equal_weights 1700000000000 p6_config
              opened_config (mkLibrary [] " Mine " true) eq_refl eq_refl)
    as (_ & _ & _ & Hw & _).
  change (JS.Z_toString 1700000000000) with "1700000000000"%string in Hw.
  change (JS.trim (scoreName (mkLibrary [] " Mine " true)))
    with "Mine"%string in Hw.
  rewrite Hw. reflexivity.
Defined.

Lemma filter_other_than_last (header : string) (cols : list string) :
  header ∉ cols ->
  List.filter (fun col => negb (String.eqb col header)) (cols ++ [header]) = cols.
Proof.
  intros Hnot. rewrite List.filter_app. simpl. rewrite String.eqb_refl. simpl.
  rewrite app_nil_r. induction cols as [|c cols IH]; [reflexivity|].
  apply not_elem_of_cons in Hnot as [Hne Hnot]. simpl.
  destruct (String.eqb_spec c header) as [->|_]; [contradiction|].
  simpl. f_equal. now apply IH.
Qed.

(** X23: including a column that is not included and removing it again
    gives back the list of included columns and leaves the value weights
    alone; the column weights are then the equal split of the list (none
    when the list is empty), whatever they were before.  Including a
    column that is already included changes nothing. *)
Theorem addColumn_then_removeColumn (header : string) (st : State) :
  header ∉ includedColumns st ->
  let st1 := commit (addColumn header st) in
  let st2 := commit (removeColumn header st1) in
  includedColumns st2 = includedColumns st
  /\ subcategoryWeights st2 = subcategoryWeights st
  /\ weights st2
     = (if 0 <? length (includedColumns st)
        then equalWeights (includedColumns st) else ∅)
  /\ commit (addColumn header st1) = st1.
Proof.
  intros Hnot st1 st2.
  assert (H1 : st1 = setWeights (equalWeights (includedColumns st ++ [header]))
                       (setIncludedColumns (includedColumns st ++ [header]) st)).
  { unfold st1, addColumn. rewrite bool_decide_eq_false_2 by assumption.
    unfold commit. simpl. rewrite length_app. simpl.
    destruct (Nat.ltb_spec 0 (length (includedColumns st) + 1)); [|lia].
    reflexivity. }
  assert (Hinc : includedColumns (u_state (removeColumn header st1))
                 = includedColumns st).
  { rewrite (proj2 (removeColumn_changes_included header st1)), H1. simpl.
    now apply filter_other_than_last. }
  assert (Hsub : subcategoryWeights (u_state (removeColumn header st1))
                 = subcategoryWeights st).
  { rewrite H1. unfold removeColumn. simpl. now destruct (String.eqb _ _). }
  assert (Hw : weights (u_state (removeColumn header st1))
               = delete header (equalWeights (includedColumns st ++ [header]))).
  { rewrite H1. unfold removeColumn. simpl. now destruct (String.eqb _ _). }
  unfold st2, commit.
  rewrite (proj1 (removeColumn_changes_included header st1)), Hinc.
  rewrite Bool.andb_true_l.
  destruct (Nat.ltb_spec 0 (length (includedColumns st))) as [Hpos|Hzero].
  - split; [exact Hinc|]. split; [exact Hsub|]. split; [reflexivity|].
    unfold addColumn. rewrite bool_decide_eq_true_2; [reflexivity|].
    rewrite H1. simpl. apply elem_of_app. right. now left.
  - split; [exact Hinc|]. split; [exact Hsub|]. split.
    + rewrite Hw.
      assert (Hnil : includedColumns st = []).
      { apply length_zero_iff_nil. lia. }
      rewrite Hnil. unfold equalWeights, JS.forEachi. simpl.
      destruct (String.eqb_spec header "__proto__") as [->|Hne].
      * rewrite put_proto by apply lookup_empty. apply delete_empty.
      * rewrite put_insert by assumption.
        apply delete_insert_id, lookup_empty.
    + unfold addColumn. rewrite bool_decide_eq_true_2; [reflexivity|].
      rewrite H1. simpl. apply elem_of_app. right. now left.
Qed.

Lemma addColumn_then_removeColumn_witness :
  weights (commit (removeColumn "C" (commit (addColumn "C" p6_config))))
  = equalWeights ["A"; "B"]%string.
Proof.
  apply (addColumn_then_removeColumn "C" p6_config).
  apply (bool_decide_unpack _). vm_compute. reflexivity.
Defined.

End Configuration.

(** ** Including and removing columns *)

Section InclusionValid.
Import LeadScoringModal.

Lemma commit_included_change_valid (u : Update) :
  u_included u = true -> NoDup (includedColumns (u_state u)) ->
  includedColumns (u_state u) <> [] ->
  "__proto__"%string ∉ includedColumns (u_state u) ->
  isValidWeight (commit u) = true.
Proof.
  intros Hfresh Hnd Hne Hproto.
  assert (Hlen : 1 <= length (includedColumns (u_state u))).
  { destruct (includedColumns (u_state u)); [contradiction|simpl; lia]. }
  unfold commit. rewrite Hfresh.
  destruct (Nat.ltb_spec 0 (length (includedColumns (u_state u)))) as [_|Hbad];
    [|lia].
  simpl. unfold isValidWeight, totalWeight. simpl.
  rewrite equalWeights_total by assumption.
  destruct (Nat.ltb_spec 0 (length (includedColumns (u_state u)))); [|lia].
  reflexivity.
Qed.

Lemma commit_included_change_invalid (u : Update) :
  u_included u = true -> NoDup (includedColumns (u_state u)) ->
  length (includedColumns (u_state u)) <= 100 ->
  "__proto__"%string ∈ includedColumns (u_state u) ->
  isValidWeight (commit u) = false.
Proof.
  intros Hfresh Hnd Hle Hproto.
  assert (Hlen : 1 <= length (includedColumns (u_state u))).
  { destruct (includedColumns (u_state u)); [|simpl; lia].
    now apply elem_of_nil in Hproto. }
  unfold commit. rewrite Hfresh.
  destruct (Nat.ltb_spec 0 (length (includedColumns (u_state u)))) as [_|Hbad];
    [|lia].
  simpl. unfold isValidWeight, totalWeight. simpl.
  pose proof (equalWeights_total_proto _ Hnd Hproto (conj Hlen Hle)) as Htotal.
  destruct (Z.eqb_spec
              (map_fold (fun _ weight sum => (sum + weight)%Z) 0%Z
                 (equalWeights (includedColumns (u_state u)))) 100);
    [lia|reflexivity].
Qed.

(** X24: the include and remove buttons keep the configuration valid
    as long as no included column has the header [__proto__].  With
    distinct included columns, including a column that is not included,
    or removing a column, leaves the included columns distinct; when at
    least one column is then included and none of them is [__proto__],
    the column weights add up to 100, so that the score can be applied;
    when [__proto__] is then among up to 100 included columns, they do
    not, and the score cannot be applied.  A column just included is no
    longer offered for inclusion, and a removed column of the table is
    offered again. *)
Theorem inclusion_change_keeps_weights_valid (data : TableData)
    (header : string) (st : State) :
  NoDup (includedColumns st) ->
  let added := commit (addColumn header st) in
  let removed := commit (removeColumn header st) in
  (header ∉ includedColumns st ->
   NoDup (includedColumns added)
   /\ ("__proto__"%string ∉ includedColumns added ->
       isValidWeight added = true)
   /\ (length (includedColumns added) <= 100 ->
       "__proto__"%string ∈ includedColumns added ->
       isValidWeight added = false)
   /\ header ∉ availableColumns data added)
  /\ NoDup (includedColumns removed)
  /\ (includedColumns removed <> [] ->
      "__proto__"%string ∉ includedColumns removed ->
      isValidWeight removed = true)
  /\ (length (includedColumns removed) <= 100 ->
      "__proto__"%string ∈ includedColumns removed ->
      isValidWeight removed = false)
  /\ (header ∈ headers data -> header ∈ availableColumns data removed).
Proof.
  intros Hnd added removed. split; [|split; [|split; [|split]]].
  - intros Hnot.
    destruct (addColumn_changes_included header st Hnot) as [Hfresh Hcols].
    assert (Hnd' : NoDup (includedColumns added))
      by now apply addColumn_NoDup.
    unfold added in *. rewrite commit_includedColumns in *.
    split; [exact Hnd'|]. split; [|split].
    + intros Hproto. apply commit_included_change_valid; try assumption.
      rewrite Hcols. now destruct (includedColumns st).
    + intros Hle Hproto. now apply commit_included_change_invalid.
    + unfold availableColumns. intros Hin.
      apply list_elem_of_In, filter_In in Hin as [_ Hin].
      apply negb_true_iff, bool_decide_eq_false in Hin. apply Hin.
      rewrite commit_includedColumns, Hcols.
      apply elem_of_app. right. now left.
  - now apply removeColumn_NoDup.
  - intros Hne Hproto.
    destruct (removeColumn_changes_included header st) as [Hfresh Hcols].
    assert (Hnd' : NoDup (includedColumns removed))
      by now apply removeColumn_NoDup.
    unfold removed in *. rewrite commit_includedColumns in *.
    now apply commit_included_change_valid.
  - intros Hle Hproto.
    destruct (removeColumn_changes_included header st) as [Hfresh Hcols].
    assert (Hnd' : NoDup (includedColumns removed))
      by now apply removeColumn_NoDup.
    unfold removed in *. rewrite commit_includedColumns in *.
    now apply commit_included_change_invalid.
  - intros Hin. unfold availableColumns.
    apply list_elem_of_In, filter_In. split; [now apply list_elem_of_In|].
    apply negb_true_iff, bool_decide_eq_false.
    unfold removed. rewrite commit_includedColumns.
    rewrite (proj2 (removeColumn_changes_included header st)).
    intros Hbad. apply list_elem_of_In, filter_In in Hbad as [_ Hbad].
    rewrite String.eqb_refl in Hbad. discriminate.
Qed.

Lemma inclusion_change_keeps_weights_valid_witness :
  isValidWeight (commit (addColumn "C" p6_config)) = true
  /\ isValidWeight (commit (removeColumn "A" p6_config)) = true.
Proof.
  destruct (inclusion_change_keeps_weights_valid p6_table "A" p6_config)
    as (_ & _ & Hremoved & _).
  { apply (bool_decide_unpack _). vm_compute. reflexivity. }
  destruct (inclusion_change_keeps_weights_valid p6_table "C" p6_config)
    as (Hadded & _).
  { apply (bool_decide_unpack _). vm_compute. reflexivity. }
  split.
  - apply Hadded; apply (bool_decide_unpack _); vm_compute; reflexivity.
  - apply Hremoved; [vm_compute; discriminate|].
    apply (bool_decide_unpack _). vm_compute. reflexivity.
Defined.

End InclusionValid.

(** ** The values offered for a column *)

Section UniqueValues.
Import LeadScoringModal.

Lemma findIndex_from_cases (l : list string) (x : string) (k : Z) :
  (JS.findIndex_from (String.eqb x) k l = (-1)%Z /\ x ∉ l)
  \/ exists i, JS.findIndex_from (String.eqb x) k l = (k + Z.of_nat i)%Z
               /\ l !! i = Some x.
Proof.
  revert k. induction l as [|y l IH]; intros k; simpl.
  - left. split; [reflexivity|apply not_elem_of_nil].
  - destruct (String.eqb_spec x y) as [<-|Hne].
    + right. exists 0. split; [lia|reflexivity].
    + destruct (IH (k + 1)%Z) as [[-> Hnot]|(i & -> & Hi)].
      * left. split; [reflexivity|]. apply not_elem_of_cons. now split.
      * right. exists (S i). split; [lia|exact Hi].
Qed.

(** [indexOf] returns [-1] for an absent element and otherwise an index
    at which the element is. *)
Lemma indexOf_cases (l : list string) (x : string) :
  (JS.indexOf l x = (-1)%Z /\ x ∉ l)
  \/ exists i, JS.indexOf l x = Z.of_nat i /\ l !! i = Some x.
Proof.
  unfold JS.indexOf, JS.findIndex.
  destruct (findIndex_from_cases l x 0) as [H|(i & Hi & Hx)]; [now left|].
  right. exists i. split; [rewrite Hi; lia|exact Hx].
Qed.

Lemma Set_values_from (values acc : list string) :
  NoDup acc ->
  NoDup (fold_left JS.Set_add values acc)
  /\ forall x, x ∈ fold_left JS.Set_add values acc <-> x ∈ acc \/ x ∈ values.
Proof.
  revert acc. induction values as [|v values IH]; intros acc Hnd; simpl.
  - split; [exact Hnd|]. intros x. rewrite elem_of_nil. tauto.
  - unfold JS.Set_add at 2 4.
    destruct (bool_decide_reflect (v ∈ acc)) as [Hin|Hnot].
    + destruct (IH acc Hnd) as [Hnd' Hmem]. split; [exact Hnd'|].
      intros x. rewrite Hmem, elem_of_cons.
      split; [tauto|]. intros [H|[->|H]]; tauto.
    + assert (Hnd1 : NoDup (acc ++ [v])).
      { apply NoDup_app. split; [exact Hnd|]. split; [|apply NoDup_singleton].
        intros y Hy Hy'. apply list_elem_of_singleton in Hy' as ->.
        contradiction. }
      destruct (IH (acc ++ [v]) Hnd1) as [Hnd' Hmem]. split; [exact Hnd'|].
      intros x. rewrite Hmem, elem_of_app, list_elem_of_singleton, elem_of_cons.
      tauto.
Qed.

(** The elements of a [Set] built from an array are the elements of the
    array, each once. *)
Lemma Set_values_spec (values : list string) :
  NoDup (JS.Set_values values)
  /\ forall x, x ∈ JS.Set_values values <-> x ∈ values.
Proof.
  destruct (Set_values_from values [] (NoDup_nil_2)) as [Hnd Hmem].
  split; [exact Hnd|]. intros x. unfold JS.Set_values. rewrite Hmem.
  rewrite elem_of_nil. tauto.
Qed.

Lemma columnValues_spec (columnIndex : nat) (data : TableData) (x : string) :
  x ∈ DataTable.columnValues columnIndex data
  <-> exists row, row ∈ rows data /\ row !! columnIndex = Some x
                  /\ JS.trim x <> EmptyString.
Proof.
  unfold DataTable.columnValues. rewrite list_elem_of_omap. split.
  - intros (row & Hrow & Hcell). exists row. split; [exact Hrow|].
    destruct (row !! columnIndex) as [y|] eqn:Hy;
      [|simpl in Hcell; discriminate].
    destruct (JS.nonBlank (Some y)) eqn:Hnb; [|discriminate].
    injection Hcell as ->. split; [reflexivity|]. now apply nonBlank_trim.
  - intros (row & Hrow & Hcell & Hnb). exists row. split; [exact Hrow|].
    rewrite Hcell. apply nonBlank_trim in Hnb. now rewrite Hnb.
Qed.

Lemma sorted_NoDup_strict (l : list string) :
  StronglySorted (fun a b => String.compare a b <> Gt) l -> NoDup l ->
  StronglySorted (fun a b => String.compare a b = Lt) l.
Proof.
  induction 1 as [|x l Hsorted IH Hx]; intros Hnd; constructor.
  - apply IH. now apply NoDup_cons in Hnd as [_ Hnd].
  - apply NoDup_cons in Hnd as [Hnot _].
    rewrite List.Forall_forall in *. intros y Hy.
    specialize (Hx y Hy). destruct (String.compare x y) eqn:Hc;
      [|reflexivity|contradiction].
    apply String.compare_eq_iff in Hc as ->.
    exfalso. apply Hnot. now apply list_elem_of_In.
Qed.

(** X25: the values offered for a column are exactly the texts, not
    blank, that the cells of the column hold (the column being the
    first one with that header), each offered once, in strictly
    ascending order of their code units. *)
Theorem getUniqueValuesForColumn_lists_distinct_values (data : TableData)
    (columnName : string) :
  let options := getUniqueValuesForColumn data columnName in
  StronglySorted (fun a b => String.compare a b = Lt) options
  /\ forall x,
       x ∈ options
       <-> exists i row,
             JS.indexOf (headers data) columnName = Z.of_nat i
             /\ row ∈ rows data /\ row !! i = Some x
             /\ JS.trim x <> EmptyString.
Proof.
  simpl. unfold getUniqueValuesForColumn.
  destruct (indexOf_cases (headers data) columnName)
    as [[-> _]|(i & -> & _)]; simpl.
  - split; [constructor|]. intros x. split.
    + intros Hx. now apply elem_of_nil in Hx.
    + intros (i & row & Hi & _). lia.
  - destruct (Z.eqb_spec (Z.of_nat i) (-1)) as [Hbad|_]; [lia|].
    rewrite Nat2Z.id. unfold JS.sort_default.
    destruct (Set_values_spec (DataTable.columnValues i data)) as [Hnd Hmem].
    assert (Hperm : JS.sort String.compare
                      (JS.Set_values (DataTable.columnValues i data))
                    ≡ₚ JS.Set_values (DataTable.columnValues i data))
      by apply sort_Permutation.
    split.
    + apply sorted_NoDup_strict; [|now rewrite Hperm].
      apply sort_sorted;
        [apply string_compare_antisym|apply string_compare_le_trans].
    + intros x. rewrite Hperm, Hmem, columnValues_spec. split.
      * intros (row & Hrow & Hcell & Hnb). now exists i, row.
      * intros (j & row & Hj & Hrow & Hcell & Hnb).
        apply Nat2Z.inj in Hj as <-. now exists row.
Qed.

(** X26: the sample of values shown for a column holds at most five
    values, each once, all of them values offered for the column; and
    when the column has no more than five distinct values, the sample
    holds them all. *)
Theorem getUniqueValues_samples_the_values (data : TableData) (header : string) :
  let sample := getUniqueValues data header in
  length sample <= 5
  /\ NoDup sample
  /\ (forall x, x ∈ sample -> x ∈ getUniqueValuesForColumn data header)
  /\ (length (getUniqueValuesForColumn data header) <= 5 ->
      sample ≡ₚ getUniqueValuesForColumn data header).
Proof.
  simpl. unfold getUniqueValues, getUniqueValuesForColumn.
  destruct (Z.eqb (JS.indexOf (headers data) header) (-1)).
  { split; [simpl; lia|]. split; [constructor|]. split; [tauto|reflexivity]. }
  set (values := DataTable.columnValues _ data).
  destruct (Set_values_spec values) as [Hnd _].
  assert (Hperm : JS.sort_default (JS.Set_values values)
                  ≡ₚ JS.Set_values values) by apply sort_Permutation.
  split; [rewrite length_take; lia|]. split; [|split].
  - eapply sublist_NoDup; [exact Hnd|apply sublist_take].
  - intros x Hx. rewrite Hperm. now apply elem_of_take in Hx as (j & Hx & _);
      apply list_elem_of_lookup_2 in Hx.
  - intros Hlen. rewrite (Permutation_length Hperm) in Hlen.
    rewrite take_ge by exact Hlen. now symmetry.
Qed.

End UniqueValues.

(** ** Writing the scores into the table *)

Section ApplyScore.
Import LeadScoringModal.

Lemma findIndex_from_app_absent (l : list string) (x : string) (k : Z) :
  x ∉ l ->
  JS.findIndex_from (String.eqb x) k (l ++ [x]) = (k + Z.of_nat (length l))%Z.
Proof.
  revert k. induction l as [|y l IH]; intros k Hnot; simpl.
  - rewrite String.eqb_refl. lia.
  - apply not_elem_of_cons in Hnot as [Hne Hnot].
    destruct (String.eqb_spec x y) as [->|_]; [contradiction|].
    rewrite IH by assumption. lia.
Qed.

Lemma findIndex_from_app_other (l : list string) (x y : string) (k : Z) :
  x <> y ->
  JS.findIndex_from (String.eqb x) k (l ++ [y])
  = JS.findIndex_from (String.eqb x) k l.
Proof.
  intros Hne. revert k. induction l as [|z l IH]; intros k; simpl.
  - now destruct (String.eqb_spec x y).
  - destruct (String.eqb x z); [reflexivity|apply IH].
Qed.

(** The table that [handleApplyScoreToData] returns: the index of the
    score column, the headers and the rows; the score of no row has
    thrown. *)
Lemma applyScore_shape (data d1 : TableData) (st : State) :
  handleApplyScoreToData data st = Some d1 ->
  exists k,
    JS.indexOf (headers d1) "Lead Score" = Z.of_nat k
    /\ headers d1 !! k = Some "Lead Score"%string
    /\ headers d1
       = (if bool_decide ("Lead Score"%string ∈ headers data)
          then headers data else headers data ++ ["Lead Score"%string])
    /\ (forall c, c <> "Lead Score"%string ->
          JS.indexOf (headers d1) c = JS.indexOf (headers data) c)
    /\ Forall2
         (fun row newRow =>
            exists score,
              calculateRowScore data st row = Some score
              /\ newRow
                 = <[k := JS.Number_toString score]>
                     (row ++ replicate (length (headers d1) - length row)
                                EmptyString))
         (rows data) (rows d1)
    /\ isValidWeight st = true.
Proof.
  unfold handleApplyScoreToData.
  destruct (isValidWeight st); [|discriminate]. simpl.
  assert (Hrows : forall (hs : list string) (k : nat)
                         (newRows : list (list string)),
    mapM (fun row =>
            score ← calculateRowScore data st row;
            Some (<[k := JS.Number_toString score]>
                    (row ++ replicate (length hs - length row) EmptyString)))
         (rows data) = Some newRows ->
    Forall2
      (fun row newRow =>
         exists score,
           calculateRowScore data st row = Some score
           /\ newRow
              = <[k := JS.Number_toString score]>
                  (row ++ replicate (length hs - length row) EmptyString))
      (rows data) newRows).
  { intros hs k newRows Hm. apply mapM_Some in Hm.
    eapply Forall2_impl; [exact Hm|]. intros row newRow Hrow. simpl in Hrow.
    destruct (calculateRowScore data st row) as [score|]; [|discriminate].
    injection Hrow as <-. now exists score. }
  destruct (indexOf_cases (headers data) "Lead Score")
    as [[Hfound Hnot]|(i & Hfound & Hi)]; rewrite Hfound.
  - simpl. destruct (mapM _ _) as [newRows|] eqn:Hm; [|discriminate].
    simpl. intros [= <-]. simpl. exists (length (headers data)).
    rewrite length_app in *. simpl in *.
    replace (length (headers data) + 1 - 1) with (length (headers data))
      in * by lia.
    split; [|split; [|split; [|split; [|split]]]].
    + unfold JS.indexOf, JS.findIndex.
      rewrite findIndex_from_app_absent by assumption. lia.
    + now apply list_lookup_middle.
    + now rewrite bool_decide_eq_false_2.
    + intros c Hc. unfold JS.indexOf, JS.findIndex.
      now apply findIndex_from_app_other.
    + specialize (Hrows (headers data ++ ["Lead Score"%string])
                    (length (headers data)) newRows).
      rewrite length_app in Hrows. simpl in Hrows. now apply Hrows.
    + reflexivity.
  - destruct (Z.eqb_spec (Z.of_nat i) (-1)) as [Hbad|_]; [lia|].
    rewrite Nat2Z.id.
    destruct (mapM _ _) as [newRows|] eqn:Hm; [|discriminate].
    simpl. intros [= <-]. simpl. exists i.
    split; [exact Hfound|]. split; [exact Hi|]. split; [|split; [auto|]].
    + rewrite bool_decide_eq_true_2; [reflexivity|].
      now apply list_elem_of_lookup_2 in Hi.
    + split; [|reflexivity]. now apply Hrows.
Qed.

(** X27: applying the score writes the score column and nothing else.
    The headers are kept, "Lead Score" being added at the end when no
    header has that text; no row is added or removed; in every row the
    cell of the score column holds the score of that row as it was
    before, printed as a number, and every other cell the row had is
    untouched. *)
Theorem handleApplyScoreToData_writes_the_score_column (data d1 : TableData)
    (st : State) :
  handleApplyScoreToData data st = Some d1 ->
  exists k,
    JS.indexOf (headers d1) "Lead Score" = Z.of_nat k
    /\ headers d1
       = (if bool_decide ("Lead Score"%string ∈ headers data)
          then headers data else headers data ++ ["Lead Score"%string])
    /\ length (rows d1) = length (rows data)
    /\ forall r row,
         rows data !! r = Some row ->
         (exists score,
             calculateRowScore data st row = Some score
             /\ cellAt d1 r k = Some (JS.Number_toString score))
         /\ forall c x, c <> k -> row !! c = Some x -> cellAt d1 r c = Some x.
Proof.
  intros Happly.
  destruct (applyScore_shape data d1 st Happly)
    as (k & Hk & Hls & Hhs & _ & Hrows & _).
  exists k. split; [exact Hk|]. split; [exact Hhs|].
  split; [symmetry; exact (Forall2_length _ _ _ Hrows)|].
  intros r row Hrow. unfold cellAt.
  destruct (Forall2_lookup_l _ _ _ _ _ Hrows Hrow)
    as (newRow & -> & score & Hscore & ->).
  simpl. pose proof (lookup_lt_Some _ _ _ Hls) as Hlt. split.
  - exists score. split; [exact Hscore|].
    apply list_lookup_insert_eq. rewrite length_app, length_replicate. lia.
  - intros c x Hne Hc. rewrite list_lookup_insert_ne by congruence.
    now apply lookup_app_l_Some.
Qed.

Lemma handleApplyScoreToData_writes_the_score_column_witness :
  exists d1,
    handleApplyScoreToData p6_table p6_config = Some d1
    /\ cellAt d1 0 2 = Some "80"%string
    /\ cellAt d1 0 1 = Some "Y"%string.
Proof.
  exists (mkTableData ["A"; "B"; "Lead Score"] [["X"; "Y"; "80"]])%string.
  assert (Happly : handleApplyScoreToData p6_table p6_config
                   = Some (mkTableData ["A"; "B"; "Lead Score"]
                             [["X"; "Y"; "80"]])%string)
    by (vm_compute; reflexivity).
  split; [exact Happly|].
  destruct (handleApplyScoreToData_writes_the_score_column _ _ _ Happly)
    as (k & Hk & _ & _ & Hcells).
  vm_compute in Hk. change 2%Z with (Z.of_nat 2) in Hk.
  apply Nat2Z.inj in Hk as <-.
  destruct (Hcells 0 ["X"; "Y"]%string eq_refl)
    as [(score & _ & Hscore) Hothers].
  split; [reflexivity|].
  apply Hothers; [lia|reflexivity].
Defined.

(** A column scores the same on two rows that show the same text, blank
    or absent cells apart, at its index, in two tables that give it the
    same index. *)
Lemma scoreColumn_same_cell (data data1 : TableData) (st : State)
    (row row1 : list string) (totalScore : JS.exactNumber)
    (columnName : string) :
  JS.indexOf (headers data1) columnName = JS.indexOf (headers data) columnName ->
  (forall i x,
      JS.indexOf (headers data) columnName = Z.of_nat i ->
      JS.nonBlank (Some x) = true ->
      (row1 !! i = Some x <-> row !! i = Some x)) ->
  scoreColumn data1 st row1 totalScore columnName
  = scoreColumn data st row totalScore columnName.
Proof.
  intros Hidx Hcell. unfold scoreColumn, scoreColumnIn. rewrite Hidx.
  destruct (indexOf_cases (headers data) columnName)
    as [[-> _]|(i & Hi & _)]; [reflexivity|].
  rewrite Hi in *. destruct (Z.eqb_spec (Z.of_nat i) (-1)); [reflexivity|].
  rewrite Nat2Z.id. specialize (Hcell i).
  destruct (row1 !! i) as [x1|] eqn:H1, (row !! i) as [x|] eqn:H.
  - destruct (JS.nonBlank (Some x1)) eqn:Hn1.
    + pose proof (proj1 (Hcell x1 eq_refl Hn1) eq_refl) as Heq.
      injection Heq as ->. now rewrite Hn1.
    + destruct (JS.nonBlank (Some x)) eqn:Hn; [|reflexivity].
      pose proof (proj2 (Hcell x eq_refl Hn) eq_refl) as Heq.
      injection Heq as ->. congruence.
  - destruct (JS.nonBlank (Some x1)) eqn:Hn1; [|reflexivity].
    pose proof (proj1 (Hcell x1 eq_refl Hn1) eq_refl). discriminate.
  - destruct (JS.nonBlank (Some x)) eqn:Hn; [|reflexivity].
    pose proof (proj2 (Hcell x eq_refl Hn) eq_refl). discriminate.
  - reflexivity.
Qed.

Lemma fold_left_ext_in {A B} (f g : A -> B -> A) (l : list B) (a : A) :
  (forall x acc, x ∈ l -> f acc x = g acc x) ->
  fold_left f l a = fold_left g l a.
Proof.
  revert a. induction l as [|x l IH]; intros a Hext; simpl; [reflexivity|].
  rewrite (Hext x a) by (now left). apply IH.
  intros y acc Hy. apply Hext. now right.
Qed.

(** X28: applying the score is idempotent when the score column is not
    itself scored: applying the same configuration to the table that an
    application returned returns that table again. *)
Theorem handleApplyScoreToData_twice (data d1 : TableData) (st : State) :
  "Lead Score"%string ∉ includedColumns st ->
  handleApplyScoreToData data st = Some d1 ->
  handleApplyScoreToData d1 st = Some d1.
Proof.
  intros Hnot Happly.
  destruct (applyScore_shape data d1 st Happly)
    as (k & Hk & Hls & Hhs & Hother & Hrows & Hvalid).
  pose proof (lookup_lt_Some _ _ _ Hls) as Hlt.
  unfold handleApplyScoreToData. rewrite Hvalid. simpl. rewrite Hk.
  destruct (Z.eqb_spec (Z.of_nat k) (-1)) as [Hbad|_]; [lia|].
  rewrite Nat2Z.id. destruct d1 as [hs1 rs1]. simpl in *.
  assert (Hsame : forall row score rs,
    calculateRowScore (mkTableData hs1 rs) st
      (<[k := JS.Number_toString score]>
         (row ++ replicate (length hs1 - length row) EmptyString))
    = calculateRowScore data st row).
  { intros row score rs. rewrite !calculateRowScore_round2. f_equal.
    apply fold_left_ext_in. intros c acc Hc.
    destruct acc as [t|]; [simpl|reflexivity].
    assert (Hne : c <> "Lead Score"%string) by (intros ->; contradiction).
    apply (scoreColumn_same_cell data (mkTableData hs1 rs)).
    - simpl. now apply Hother.
    - intros i x Hi Hnb.
      assert (Hik : i <> k).
      { intros ->. rewrite <- (Hother c Hne) in Hi.
        destruct (indexOf_cases hs1 c) as [[Hm _]|(j & Hj & Hcj)]; [lia|].
        rewrite Hj in Hi. apply Nat2Z.inj in Hi as ->. congruence. }
      rewrite list_lookup_insert_ne by congruence. split.
      + intros Hx. apply lookup_app_Some in Hx as [Hx|[_ Hx]]; [exact Hx|].
        apply lookup_replicate in Hx as [-> _]. discriminate.
      + intros Hx. now apply lookup_app_l_Some. }
  assert (Hm : mapM (fun row =>
                 score ← calculateRowScore (mkTableData hs1 rs1) st row;
                 Some (<[k := JS.Number_toString score]>
                         (row ++ replicate (length hs1 - length row)
                                    EmptyString)))
               rs1 = Some rs1).
  { apply mapM_Some, Forall_Forall2_diag.
    eapply Forall2_Forall_r; [exact Hrows|].
    apply Forall_forall. intros row _ newRow (score & Hscore & ->).
    rewrite Hsame, Hscore. simpl. f_equal.
    set (padded := row ++ replicate (length hs1 - length row) EmptyString).
    assert (Hlen : length hs1 <= length (<[k := JS.Number_toString score]> padded)).
    { unfold padded. rewrite length_insert, length_app, length_replicate.
      lia. }
    replace (length hs1 - length (<[k := JS.Number_toString score]> padded))
      with 0 by lia.
    simpl replicate. rewrite app_nil_r. apply list_insert_insert_eq. }
  rewrite Hm. reflexivity.
Qed.

Lemma handleApplyScoreToData_twice_witness :
  handleApplyScoreToData
    (mkTableData ["A"; "B"; "Lead Score"] [["X"; "Y"; "80"]]) p6_config
  = Some (mkTableData ["A"; "B"; "Lead Score"] [["X"; "Y"; "80"]])%string.
Proof.
  apply (handleApplyScoreToData_twice p6_table).
  - apply (bool_decide_unpack _). vm_compute. reflexivity.
  - vm_compute. reflexivity.
Defined.

End ApplyScore.
